(** * Many-valued modal logic over user-defined lattices

    A shallow embedding of the computational core of the repository:
    [math_objects/lattice.py], [math_objects/world.py],
    [math_objects/model.py] and [parser/formula_parser.py].

    Conventions of the embedding.
    - A Python [set] is a [gset], a [dict] a [gmap].  Where the code
      iterates over a set, the embedding iterates over [iter s]; Python
      does not fix that order, so results that are claimed to be
      independent of it are stated for every permutation of the scan.
    - A Python exception is a value [Raise e] of the [result] type; [e]
      records the exception class, the message text is not modelled.
    - The recursion limit of the interpreter is no part of [result]: the
      recursive functions are embedded without it.  [evaluate_limited]
      is the evaluator under a limit, with [RecursionError] as a further
      outcome.
    - [isinstance] tests are discharged by typing and never raise here.
    - Objects compared by identity (worlds) are references of type [wref];
      a [store] gives the object each reference denotes. *)

From Stdlib Require Import Ascii String.
From stdpp Require Import base option list gmap sets strings pretty.

Open Scope string_scope.

(** ** Exceptions and results *)

Inductive exn : Type :=
  | ValueError
  | TypeError
  | AttributeError
  | KeyError
  | Exception_.

Inductive result (A : Type) : Type :=
  | Ok (a : A)
  | Raise (e : exn).
Arguments Ok {A} a.
Arguments Raise {A} e.

#[global] Instance exn_eq_dec : EqDecision exn.
Proof. solve_decision. Defined.

#[global] Instance result_ret : MRet result := λ A a, Ok a.
#[global] Instance result_bind : MBind result :=
  λ A B f r, match r with Ok a => f a | Raise e => Raise e end.

Definition is_ok {A} (r : result A) : bool :=
  match r with Ok _ => true | Raise _ => false end.

(** Reading an attribute of an object under construction: an attribute that
    has not been assigned yet raises [AttributeError]. *)
Definition getattr {A} (field : option A) : result A :=
  match field with Some v => Ok v | None => Raise AttributeError end.

(** The order in which the executable model visits the members of a set. *)
Definition iter `{Countable A} (s : gset A) : list A := base.elements s.

(** [for x in l: acc = f(acc, x)], stopping at the first exception. *)
Fixpoint for_each {A B} (f : B → A → result B) (acc : B) (l : list A) : result B :=
  match l with
  | [] => Ok acc
  | x :: l' => match f acc x with
               | Ok acc' => for_each f acc' l'
               | Raise e => Raise e
               end
  end.

(** ** math_objects/lattice.py : class Lattice *)

Record Lattice : Type := mkLattice {
  name : string;
  elements : gset string;
  relations : gset (string * string);
  negation_map : gmap string string;
  implication_map : gmap (string * string) string;
  (* assigned by the last two statements of [__init__] *)
  bottom : option string;
  top : option string;
}.

Definition is_less_than_or_equal (self : Lattice) (a b : string) : bool :=
  bool_decide ((a, b) ∈ relations self).

Definition negation (self : Lattice) (variable : string) : option string :=
  negation_map self !! variable.

Definition implication (self : Lattice) (variable1 variable2 : string) : option string :=
  implication_map self !! (variable1, variable2).

(** The set comprehension of [join], in scan order. *)
Definition upper_bounds (self : Lattice) (a b : string) : list string :=
  List.filter
    (λ x, is_less_than_or_equal self a x && is_less_than_or_equal self b x)
    (iter (elements self)).

(** The set comprehension of [meet], in scan order. *)
Definition lower_bounds (self : Lattice) (a b : string) : list string :=
  List.filter
    (λ x, is_less_than_or_equal self x a && is_less_than_or_equal self x b)
    (iter (elements self)).

(** The tail of [join]: empty-set test, then the scan for the least bound. *)
Definition scan_least (self : Lattice) (bounds : list string) : result string :=
  match bounds with
  | [] => Raise ValueError
  | _ :: _ =>
      match List.find
              (λ x, forallb (λ y, is_less_than_or_equal self x y) bounds) bounds with
      | Some x => Ok x
      | None => Raise ValueError
      end
  end.

(** The tail of [meet]: empty-set test, then the scan for the greatest bound. *)
Definition scan_greatest (self : Lattice) (bounds : list string) : result string :=
  match bounds with
  | [] => Raise ValueError
  | _ :: _ =>
      match List.find
              (λ x, forallb (λ y, is_less_than_or_equal self y x) bounds) bounds with
      | Some x => Ok x
      | None => Raise ValueError
      end
  end.

Definition join (self : Lattice) (a b : string) : result string :=
  if bool_decide (a ∉ elements self ∨ b ∉ elements self) then Raise ValueError
  else scan_least self (upper_bounds self a b).

Definition meet (self : Lattice) (a b : string) : result string :=
  if bool_decide (a ∉ elements self ∨ b ∉ elements self) then Raise ValueError
  else scan_greatest self (lower_bounds self a b).

Definition meet_set (self : Lattice) (subset : option (gset string)) : result string :=
  let subset := default ∅ subset in
  let subset_list := iter subset in
  match subset_list with
  | [] => getattr (top self)
  | lower :: _ => for_each (λ lower element, meet self lower element) lower subset_list
  end.

Definition join_set (self : Lattice) (subset : option (gset string)) : result string :=
  let subset := default ∅ subset in
  let subset_list := iter subset in
  match subset_list with
  | [] => getattr (bottom self)
  | greatest :: _ =>
      for_each (λ greatest element, join self greatest element) greatest subset_list
  end.

(** The body of the [try] block of [_check_is_lattice]. *)
Definition check_pairs (self : Lattice) : result unit :=
  for_each
    (λ _ x,
       for_each
         (λ _ y, _ ← meet self x y; _ ← join self x y; Ok tt)
         tt (iter (elements self)))
    tt (iter (elements self)).

(** [except ValueError] turns a failed bound computation into [False]. *)
Definition _check_is_lattice (self : Lattice) : result bool :=
  match check_pairs self with
  | Ok _ => Ok true
  | Raise ValueError => Ok false
  | Raise e => Raise e
  end.

Definition Lattice_init (name : string) (elements : gset string)
    (relations : gset (string * string))
    (negation_map : option (gmap string string))
    (implication_map : option (gmap (string * string) string)) : result Lattice :=
  let self := mkLattice name elements relations
                (default ∅ negation_map) (default ∅ implication_map) None None in
  ok ← _check_is_lattice self;
  if negb ok then Raise ValueError
  else
    b ← meet_set self (Some elements);
    let self := mkLattice name elements relations
                  (default ∅ negation_map) (default ∅ implication_map) (Some b) None in
    t ← join_set self (Some elements);
    Ok (mkLattice name elements relations
          (default ∅ negation_map) (default ∅ implication_map) (Some b) (Some t)).

(** ** class FilteredLattice(Lattice) *)

Record FilteredLattice : Type := mkFilteredLattice {
  fl_lattice :> Lattice;            (* the inherited [Lattice] part *)
  name_filtered_lattice : string;
  filter : gset string;
}.

Definition _check_filter (self : FilteredLattice) : bool :=
  bool_decide (filter self ⊆ elements self).

Definition FilteredLattice_init (name_filtered_lattice name_lattice : string)
    (elements : gset string) (relations : gset (string * string))
    (negation_map : option (gmap string string))
    (implication_map : option (gmap (string * string) string))
    (filter : option (gset string)) : result FilteredLattice :=
  super ← Lattice_init name_lattice elements relations negation_map implication_map;
  let self := mkFilteredLattice super name_filtered_lattice (default ∅ filter) in
  if negb (_check_filter self) then Raise ValueError else Ok self.

(** ** class ManyLattice(FilteredLattice) *)

Record ManyLattice : Type := mkManyLattice {
  ml_filtered :> FilteredLattice;   (* the inherited [FilteredLattice] part *)
  comp_sub_lat : list Lattice;
  name_many_lattice : string;
}.

Definition ManyLattice_init (name_many_lattice name_filtered_lattice name_lattice : string)
    (elements : gset string) (relations : gset (string * string))
    (comp_sub_lat : list Lattice)
    (negation_map : option (gmap string string))
    (implication_map : option (gmap (string * string) string))
    (filter : option (gset string)) : result ManyLattice :=
  super ← FilteredLattice_init name_filtered_lattice name_lattice elements relations
            negation_map implication_map filter;
  Ok (mkManyLattice super comp_sub_lat name_many_lattice).

Definition get_comp_sub_lattice (self : ManyLattice) (nm : string) : option Lattice :=
  List.find (λ lattice, bool_decide (name lattice = nm)) (comp_sub_lat self).

(** A mutating method returns the object after the call together with the
    outcome of the call. *)
Definition add_comp_sub_lat (self : ManyLattice) (lattice : Lattice)
    : ManyLattice * result unit :=
  if bool_decide (is_Some (get_comp_sub_lattice self (name lattice)))
  then (self, Raise ValueError)
  else (mkManyLattice (ml_filtered self) (comp_sub_lat self ++ [lattice])
          (name_many_lattice self), Ok tt).

Definition down_interpretation (self : ManyLattice) (lattice : Lattice)
    (element_a : string) : result string :=
  if bool_decide (name lattice ∉ (name <$> comp_sub_lat self)) then Raise ValueError
  else if bool_decide (element_a ∈ elements lattice) then Ok element_a
  else
    let lower_set : gset string :=
      base.filter (λ x, is_less_than_or_equal self x element_a) (elements lattice) in
    if bool_decide (lower_set = ∅) then getattr (bottom lattice)
    else join_set lattice (Some lower_set).

Definition up_interpretation (self : ManyLattice) (lattice : Lattice)
    (element_a : string) : result string :=
  if bool_decide (name lattice ∉ (name <$> comp_sub_lat self)) then Raise ValueError
  else if bool_decide (element_a ∈ elements lattice) then Ok element_a
  else
    let upper_set : gset string :=
      base.filter (λ x, is_less_than_or_equal self element_a x) (elements lattice) in
    if bool_decide (upper_set = ∅) then getattr (top lattice)
    else meet_set lattice (Some upper_set).

(** ** math_objects/world.py : class World *)

Record World : Type := mkWorld {
  name_long : string;
  name_short : string;
  lattice : Lattice;
  assignments : gmap string string;
}.

Definition World_init (name_long name_short : string) (lattice : Lattice)
    (assignments : option (gmap string string)) : result World :=
  Ok (mkWorld name_long name_short lattice (default ∅ assignments)).

Definition get_assignment (self : World) (variable : string) : option string :=
  assignments self !! variable.

Definition assign_value (self : World) (variable value : string) : World * result unit :=
  if bool_decide (value ∉ elements (lattice self)) then (self, Raise ValueError)
  else (mkWorld (name_long self) (name_short self) (lattice self)
          (<[variable := value]> (assignments self)), Ok tt).

(** ** math_objects/model.py : class Model *)

(** [World] defines neither [__eq__] nor [__hash__]: sets and dictionaries
    of worlds are keyed by object identity.  A [wref] is that identity and
    a [store] maps it to the object. *)
Definition wref : Type := positive.
Definition store : Type := wref → World.

Record Model : Type := mkModel {
  name_model : string;
  many_lattice : ManyLattice;
  worlds : gset wref;
  initial_state : wref;
  props : gset string;
  actions : gset string;
  accessibility_relation : gmap wref (gset wref);
}.

(** [if world not in d: d[world] = set()] *)
Definition ensure_entry (d : gmap wref (gset wref)) (world : wref) : gmap wref (gset wref) :=
  match d !! world with
  | None => <[world := ∅]> d
  | Some _ => d
  end.

Definition Model_init (name_model : string) (many_lattice : ManyLattice)
    (worlds : gset wref) (initial_state : wref)
    (assessibility_relation : option (gmap wref (gset wref)))
    (props actions : option (gset string)) : result Model :=
  let accessibility_relation := default ∅ assessibility_relation in
  let accessibility_relation := foldl ensure_entry accessibility_relation (iter worlds) in
  Ok (mkModel name_model many_lattice worlds initial_state
        (default ∅ props) (default ∅ actions) accessibility_relation).

Definition get_world (σ : store) (self : Model) (nm : string) : option wref :=
  List.find (λ world, bool_decide (name_short (σ world) = nm)) (iter (worlds self)).

Definition add_world (σ : store) (self : Model) (world : wref) : Model * result unit :=
  if bool_decide (is_Some (get_world σ self (name_short (σ world))))
  then (self, Raise ValueError)
  else
    let valid_sublattice_names := name <$> comp_sub_lat (many_lattice self) in
    if bool_decide (name (lattice (σ world)) ∉ valid_sublattice_names)
    then (self, Raise Exception_)
    else
      (mkModel (name_model self) (many_lattice self) ({[world]} ∪ worlds self)
         (initial_state self) (props self) (actions self)
         (ensure_entry (accessibility_relation self) world), Ok tt).

Definition delete_world (self : Model) (world : wref) : Model * result unit :=
  (* outgoing relations: [.get(world)] is falsy when absent or empty *)
  if bool_decide (default ∅ (accessibility_relation self !! world) ≠ ∅)
  then (self, Raise ValueError)
  (* incoming relations *)
  else if existsb (λ item : wref * gset wref, bool_decide (world ∈ item.2))
            (map_to_list (accessibility_relation self))
  then (self, Raise ValueError)
  else
    let accessibility_relation' :=
      if bool_decide (is_Some (accessibility_relation self !! world))
      then delete world (accessibility_relation self)
      else accessibility_relation self in
    (* [set.remove] raises KeyError for a missing member *)
    if bool_decide (world ∈ worlds self)
    then (mkModel (name_model self) (many_lattice self) (worlds self ∖ {[world]})
            (initial_state self) (props self) (actions self)
            accessibility_relation', Ok tt)
    else (mkModel (name_model self) (many_lattice self) (worlds self)
            (initial_state self) (props self) (actions self)
            accessibility_relation', Raise KeyError).

(** ** parser/formula_parser.py : class Lexer *)

Inductive token_type : Type :=
  | ATOM | NOT | BOX | DIAMOND | AND | OR | IMPLIES | IFF | LPAREN | RPAREN | EOF.

#[global] Instance token_type_eq_dec : EqDecision token_type.
Proof. solve_decision. Defined.

(** A token is the tuple [(TYPE, VALUE)]. *)
Definition token : Type := token_type * option string.

(** [str.isspace] and [str.isalnum] on the code points below 256. *)
Definition isspace (c : ascii) : bool :=
  let n := nat_of_ascii c in
  ((9 <=? n)%nat && (n <=? 13)%nat) || ((28 <=? n)%nat && (n <=? 32)%nat)
  || (n =? 133)%nat || (n =? 160)%nat.

Definition isalnum (c : ascii) : bool :=
  let n := nat_of_ascii c in
  ((48 <=? n)%nat && (n <=? 57)%nat) || ((65 <=? n)%nat && (n <=? 90)%nat)
  || ((97 <=? n)%nat && (n <=? 122)%nat)
  || (n =? 170)%nat || ((178 <=? n)%nat && (n <=? 179)%nat) || (n =? 181)%nat
  || ((185 <=? n)%nat && (n <=? 186)%nat) || ((188 <=? n)%nat && (n <=? 190)%nat)
  || ((192 <=? n)%nat && (n <=? 214)%nat) || ((216 <=? n)%nat && (n <=? 246)%nat)
  || ((248 <=? n)%nat && (n <=? 255)%nat).

(** The lexer object ([text], [pos], [current_char]) is represented by the
    unread suffix [text[pos:]]; [current_char] is its first character and
    [advance] drops it. *)
Definition Lexer : Type := string.

Definition Lexer_init (text : string) : Lexer := text.

Fixpoint skip_whitespace (self : Lexer) : Lexer :=
  match self with
  | String c rest => if isspace c then skip_whitespace rest else self
  | EmptyString => self
  end.

(** Returns the token and the lexer after the call. *)
Fixpoint get_atom (self : Lexer) : string * Lexer :=
  match self with
  | String c rest =>
      if isalnum c then let '(r, self') := get_atom rest in (String c r, self')
      else (EmptyString, self)
  | EmptyString => (EmptyString, self)
  end.

Fixpoint get_next_token (self : Lexer) : result (token * Lexer) :=
  match self with
  | EmptyString => Ok ((EOF, None), self)
  | String c rest =>
      if isspace c then get_next_token rest
      else if isalnum c then
        let '(value, self') := get_atom self in Ok ((ATOM, Some value), self')
      else if Ascii.eqb c "~" then Ok ((NOT, Some "~"), rest)
      else if Ascii.eqb c "[" then
        match rest with
        | String "]" rest' => Ok ((BOX, Some "[]"), rest')
        | _ => Raise ValueError
        end
      else if Ascii.eqb c "<" then
        match rest with
        | String ">" rest' => Ok ((DIAMOND, Some "<>"), rest')
        | String "-" (String ">" rest') => Ok ((IFF, Some "<->"), rest')
        | _ => Raise ValueError
        end
      else if Ascii.eqb c "-" then
        match rest with
        | String ">" rest' => Ok ((IMPLIES, Some "->"), rest')
        | _ => Raise ValueError
        end
      else if Ascii.eqb c "&" then Ok ((AND, Some "&"), rest)
      else if Ascii.eqb c "|" then Ok ((OR, Some "|"), rest)
      else if Ascii.eqb c "(" then Ok ((LPAREN, Some "("), rest)
      else if Ascii.eqb c ")" then Ok ((RPAREN, Some ")"), rest)
      else Raise ValueError
  end.

(** ** AST nodes and their evaluation *)

Inductive ASTNode : Type :=
  | Atom (name : string)
  | Not (child : ASTNode)
  | And (left right : ASTNode)
  | Or (left right : ASTNode)
  | Implies (left right : ASTNode)
  | Iff (left right : ASTNode)
  | Box (child : ASTNode)
  | Diamond (child : ASTNode).

#[global] Instance ASTNode_eq_dec : EqDecision ASTNode.
Proof. solve_decision. Defined.

Fixpoint get_atoms (node : ASTNode) : gset string :=
  match node with
  | Atom name => {[name]}
  | Not child | Box child | Diamond child => get_atoms child
  | And l r | Or l r | Implies l r | Iff l r => get_atoms l ∪ get_atoms r
  end.

Section evaluation.
Variable σ : store.
Variable model : Model.
Variable interpretation : string.

(** The [evaluate] method of a node, as a function of the world. *)
Definition evaluator : Type := wref → result string.

(** [if interpretation == "up": up_interpretation(...) else: down_interpretation(...)] *)
Definition interpret (target : Lattice) (value : string) : result string :=
  if bool_decide (interpretation = "up")
  then up_interpretation (many_lattice model) target value
  else down_interpretation (many_lattice model) target value.

Definition Atom_evaluate (name : string) : evaluator := λ world,
  match assignments (σ world) !! name with
  | Some v => Ok v
  | None => Raise ValueError
  end.

Definition Not_evaluate (child : evaluator) : evaluator := λ world,
  val ← child world;
  match negation_map (many_lattice model) !! val with
  | Some negated_base => interpret (lattice (σ world)) negated_base
  | None => Raise ValueError
  end.

Definition And_evaluate (left right : evaluator) : evaluator := λ world,
  val_a ← left world;
  val_b ← right world;
  meet (lattice (σ world)) val_a val_b.

Definition Or_evaluate (left right : evaluator) : evaluator := λ world,
  val_a ← left world;
  val_b ← right world;
  join (lattice (σ world)) val_a val_b.

Definition Implies_evaluate (left right : evaluator) : evaluator := λ world,
  val_a ← left world;
  val_b ← right world;
  match implication_map (many_lattice model) !! (val_a, val_b) with
  | Some base_result => interpret (lattice (σ world)) base_result
  | None =>
      match negation_map (many_lattice model) !! val_a with
      | Some neg_a_base =>
          val_not_a ← interpret (lattice (σ world)) neg_a_base;
          join (lattice (σ world)) val_not_a val_b
      | None => Raise ValueError
      end
  end.

(** [And(Implies(left, right), Implies(right, left)).evaluate] *)
Definition Iff_evaluate (left right : evaluator) : evaluator :=
  And_evaluate (Implies_evaluate left right) (Implies_evaluate right left).

Definition Box_evaluate (child : evaluator) : evaluator := λ world,
  let accessible_worlds := default ∅ (accessibility_relation model !! world) in
  if bool_decide (accessible_worlds = ∅) then getattr (top (lattice (σ world)))
  else
    relativized_values ←
      for_each
        (λ (relativized_values : gset string) u,
           raw_val ← child u;
           interp_val ← interpret (lattice (σ world)) raw_val;
           Ok ({[interp_val]} ∪ relativized_values))
        ∅ (iter accessible_worlds);
    meet_set (lattice (σ world)) (Some relativized_values).

(** [Not(Box(Not(child))).evaluate] *)
Definition Diamond_evaluate (child : evaluator) : evaluator :=
  Not_evaluate (Box_evaluate (Not_evaluate child)).

Fixpoint evaluate (node : ASTNode) : evaluator :=
  match node with
  | Atom name => Atom_evaluate name
  | Not child => Not_evaluate (evaluate child)
  | And l r => And_evaluate (evaluate l) (evaluate r)
  | Or l r => Or_evaluate (evaluate l) (evaluate r)
  | Implies l r => Implies_evaluate (evaluate l) (evaluate r)
  | Iff l r => Iff_evaluate (evaluate l) (evaluate r)
  | Box child => Box_evaluate (evaluate child)
  | Diamond child => Diamond_evaluate (evaluate child)
  end.
End evaluation.

(** ** class FormulaParser *)

Record FormulaParser : Type := mkFormulaParser {
  lexer : Lexer;
  current_token : token;
}.

Definition FormulaParser_init (text : string) : result FormulaParser :=
  '(tok, lx) ← get_next_token (Lexer_init text);
  Ok (mkFormulaParser lx tok).

Definition eat (self : FormulaParser) (tt : token_type) : result FormulaParser :=
  if bool_decide ((current_token self).1 = tt) then
    '(tok, lx) ← get_next_token (lexer self);
    Ok (mkFormulaParser lx tok)
  else Raise ValueError.

(** The recursive-descent methods call one another without bound; the
    embedding counts nested calls and loop turns with [fuel].  [None] means
    the count ran out, [Some r] is the outcome of the Python call. *)
Definition parsing : Type := option (result (ASTNode * FormulaParser)).

Fixpoint iff (fuel : nat) (self : FormulaParser) : parsing :=
  match fuel with
  | 0 => None
  | S fuel =>
      match implies fuel self with
      | Some (Ok (node, self)) => iff_loop fuel node self
      | r => r
      end
  end
with iff_loop (fuel : nat) (node : ASTNode) (self : FormulaParser) : parsing :=
  match fuel with
  | 0 => None
  | S fuel =>
      if bool_decide ((current_token self).1 = IFF) then
        match eat self IFF with
        | Raise e => Some (Raise e)
        | Ok self =>
            match implies fuel self with
            | Some (Ok (rhs, self)) => iff_loop fuel (Iff node rhs) self
            | r => r
            end
        end
      else Some (Ok (node, self))
  end
with implies (fuel : nat) (self : FormulaParser) : parsing :=
  match fuel with
  | 0 => None
  | S fuel =>
      match or_expr fuel self with
      | Some (Ok (node, self)) => implies_loop fuel node self
      | r => r
      end
  end
with implies_loop (fuel : nat) (node : ASTNode) (self : FormulaParser) : parsing :=
  match fuel with
  | 0 => None
  | S fuel =>
      if bool_decide ((current_token self).1 = IMPLIES) then
        match eat self IMPLIES with
        | Raise e => Some (Raise e)
        | Ok self =>
            match or_expr fuel self with
            | Some (Ok (rhs, self)) => implies_loop fuel (Implies node rhs) self
            | r => r
            end
        end
      else Some (Ok (node, self))
  end
with or_expr (fuel : nat) (self : FormulaParser) : parsing :=
  match fuel with
  | 0 => None
  | S fuel =>
      match and_expr fuel self with
      | Some (Ok (node, self)) => or_loop fuel node self
      | r => r
      end
  end
with or_loop (fuel : nat) (node : ASTNode) (self : FormulaParser) : parsing :=
  match fuel with
  | 0 => None
  | S fuel =>
      if bool_decide ((current_token self).1 = OR) then
        match eat self OR with
        | Raise e => Some (Raise e)
        | Ok self =>
            match and_expr fuel self with
            | Some (Ok (rhs, self)) => or_loop fuel (Or node rhs) self
            | r => r
            end
        end
      else Some (Ok (node, self))
  end
with and_expr (fuel : nat) (self : FormulaParser) : parsing :=
  match fuel with
  | 0 => None
  | S fuel =>
      match unary fuel self with
      | Some (Ok (node, self)) => and_loop fuel node self
      | r => r
      end
  end
with and_loop (fuel : nat) (node : ASTNode) (self : FormulaParser) : parsing :=
  match fuel with
  | 0 => None
  | S fuel =>
      if bool_decide ((current_token self).1 = AND) then
        match eat self AND with
        | Raise e => Some (Raise e)
        | Ok self =>
            match unary fuel self with
            | Some (Ok (rhs, self)) => and_loop fuel (And node rhs) self
            | r => r
            end
        end
      else Some (Ok (node, self))
  end
with unary (fuel : nat) (self : FormulaParser) : parsing :=
  match fuel with
  | 0 => None
  | S fuel =>
      match (current_token self).1 with
      | NOT =>
          match eat self NOT with
          | Raise e => Some (Raise e)
          | Ok self =>
              match unary fuel self with
              | Some (Ok (child, self)) => Some (Ok (Not child, self))
              | r => r
              end
          end
      | BOX =>
          match eat self BOX with
          | Raise e => Some (Raise e)
          | Ok self =>
              match unary fuel self with
              | Some (Ok (child, self)) => Some (Ok (Box child, self))
              | r => r
              end
          end
      | DIAMOND =>
          match eat self DIAMOND with
          | Raise e => Some (Raise e)
          | Ok self =>
              match unary fuel self with
              | Some (Ok (child, self)) => Some (Ok (Diamond child, self))
              | r => r
              end
          end
      | LPAREN =>
          match eat self LPAREN with
          | Raise e => Some (Raise e)
          | Ok self =>
              match iff fuel self with
              | Some (Ok (node, self)) =>
                  match eat self RPAREN with
                  | Raise e => Some (Raise e)
                  | Ok self => Some (Ok (node, self))
                  end
              | r => r
              end
          end
      | ATOM =>
          let name := default EmptyString (current_token self).2 in
          match eat self ATOM with
          | Raise e => Some (Raise e)
          | Ok self => Some (Ok (Atom name, self))
          end
      | _ => Some (Raise ValueError)
      end
  end.

(** The count given to the parser; [parse_total] shows that it is never
    exhausted. *)
Definition parse_fuel (text : string) : nat := 16 * (String.length text + 1).

(** [FormulaParser(text).parse()] *)
Definition parse (text : string) : option (result ASTNode) :=
  match FormulaParser_init text with
  | Raise e => Some (Raise e)
  | Ok self =>
      match iff (parse_fuel text) self with
      | Some (Ok (result, self)) =>
          if bool_decide ((current_token self).1 ≠ EOF) then Some (Raise ValueError)
          else Some (Ok result)
      | Some (Raise e) => Some (Raise e)
      | None => None
      end
  end.

(** ** The two-valued Boolean scenario *)

Module Boolean.
Definition elems : gset string := {["0"; "1"]}.
Definition rels : gset (string * string) := {[("0", "0"); ("0", "1"); ("1", "1")]}.
Definition neg : gmap string string := {["0" := "1"; "1" := "0"]}.

(** The Boolean lattice registered as complete sublattice. *)
Definition sub : result Lattice := Lattice_init "bool" elems rels (Some neg) (Some ∅).

(** The base many-lattice, with [sub] as its only complete sublattice and
    [filt] as filter. *)
Definition base (filt : option (gset string)) : result ManyLattice :=
  l ← sub;
  ManyLattice_init "many" "filtered" "bool" elems rels [l] (Some neg) (Some ∅) filt.

(** The single world, at reference [1]. *)
Definition w : wref := 1%positive.
Definition world : result World :=
  l ← sub;
  World_init "world" "w" l (Some {["p" := "1"; "q" := "0"]}).

Definition model (filt : option (gset string)) : result Model :=
  ml ← base filt;
  Model_init "model" ml {[w]} w None None None.

(** [FormulaParser(text).parse().evaluate(model, world, interpretation)] *)
Definition run (filt : option (gset string)) (interpretation text : string)
    : option (result string) :=
  match world, model filt with
  | Ok wd, Ok m =>
      match parse text with
      | Some (Ok ast) => Some (evaluate (λ _, wd) m interpretation ast w)
      | Some (Raise e) => Some (Raise e)
      | None => None
      end
  | Raise e, _ | _, Raise e => Some (Raise e)
  end.
End Boolean.

(** ** Concrete objects used in the examples *)

Module Examples.
(** A world over the Boolean lattice with no assignment at all. *)
Definition blank : World :=
  mkWorld "blank" "b"
    (mkLattice "bool" Boolean.elems Boolean.rels Boolean.neg ∅ (Some "0") (Some "1")) ∅.

(** A many-lattice over the Boolean chain with no complete sublattice. *)
Definition bare : ManyLattice :=
  mkManyLattice
    (mkFilteredLattice
       (mkLattice "bool" Boolean.elems Boolean.rels ∅ ∅ (Some "0") (Some "1"))
       "filtered" ∅)
    [] "many".

(** Three worlds [1], [2], [3]; the only edge goes from [1] to [2]. *)
Definition line : Model :=
  mkModel "line" bare {[1%positive; 2%positive; 3%positive]} 1%positive ∅ ∅
    {[1%positive := {[2%positive]}; 2%positive := ∅; 3%positive := ∅]}.

(** A model without worlds over [bare]. *)
Definition empty_model : Model :=
  mkModel "empty" bare ∅ 1%positive ∅ ∅ ∅.
(** The chain [0 ≤ h ≤ 1] as base, with the sublattice [{0, 1}] carrying the
    restricted order. *)
Definition chain_elems : gset string := {["0"; "h"; "1"]}.
Definition chain_rels : gset (string * string) :=
  {[("0", "0"); ("0", "h"); ("0", "1"); ("h", "h"); ("h", "1"); ("1", "1")]}.
Definition ends : Lattice :=
  mkLattice "ends" Boolean.elems Boolean.rels ∅ ∅ (Some "0") (Some "1").
Definition chain : ManyLattice :=
  mkManyLattice
    (mkFilteredLattice
       (mkLattice "chain" chain_elems chain_rels ∅ ∅ (Some "0") (Some "1"))
       "filtered" ∅)
    [ends] "many".
End Examples.

(** ** Vocabulary for the parser *)

(** What is left to parse: the unread text and the current token, unless it
    is the end marker. *)
Definition pending (self : FormulaParser) : nat :=
  String.length (lexer self) + (if bool_decide ((current_token self).1 = EOF) then 0 else 1).

(** A parser call returned within its count, and left less (or no more)
    than [bound] to parse. *)
Definition finishes (r : parsing) (bound : nat) (strict : bool) : Prop :=
  match r with
  | None => False
  | Some (Raise _) => True
  | Some (Ok (_, self')) =>
      if strict then (pending self' < bound)%nat else (pending self' ≤ bound)%nat
  end.

(** Counts that are enough for each method when at most [n] characters are
    left. *)
Definition fuel_suffices (n : nat) (self : FormulaParser) : Prop :=
  (∀ fuel, (10 * n + 1 ≤ fuel)%nat → finishes (unary fuel self) (pending self) true)
  ∧ (∀ fuel node, (10 * n + 1 ≤ fuel)%nat →
       finishes (and_loop fuel node self) (pending self) false)
  ∧ (∀ fuel, (10 * n + 2 ≤ fuel)%nat → finishes (and_expr fuel self) (pending self) true)
  ∧ (∀ fuel node, (10 * n + 3 ≤ fuel)%nat →
       finishes (or_loop fuel node self) (pending self) false)
  ∧ (∀ fuel, (10 * n + 4 ≤ fuel)%nat → finishes (or_expr fuel self) (pending self) true)
  ∧ (∀ fuel node, (10 * n + 5 ≤ fuel)%nat →
       finishes (implies_loop fuel node self) (pending self) false)
  ∧ (∀ fuel, (10 * n + 6 ≤ fuel)%nat → finishes (implies fuel self) (pending self) true)
  ∧ (∀ fuel node, (10 * n + 7 ≤ fuel)%nat →
       finishes (iff_loop fuel node self) (pending self) false)
  ∧ (∀ fuel, (10 * n + 8 ≤ fuel)%nat → finishes (iff fuel self) (pending self) true).

(** ** Vocabulary for models *)

(** [world] has an edge to some world. *)
Definition has_outgoing (self : Model) (world : wref) : Prop :=
  ∃ targets u, accessibility_relation self !! world = Some targets ∧ u ∈ targets.

(** Some entry of the accessibility relation points to [world]. *)
Definition has_incoming (self : Model) (world : wref) : Prop :=
  ∃ other targets, accessibility_relation self !! other = Some targets ∧ world ∈ targets.

(** Invariant (1) of the model: the lattice of every world is registered, by
    name, among the complete sublattices of the many-lattice. *)
Definition worlds_registered (σ : store) (self : Model) : Prop :=
  ∀ world, world ∈ worlds self →
    name (lattice (σ world)) ∈ (name <$> comp_sub_lat (many_lattice self)).

(** The invariant of a many-lattice named in the data model. *)
Definition sublattices_within (self : ManyLattice) : Prop :=
  ∀ lattice, lattice ∈ comp_sub_lat self → elements lattice ⊆ elements self.

(** Two interpretation arguments select the same branch of every
    [if interpretation == "up"]. *)
Definition same_mode (i j : string) : Prop :=
  bool_decide (i = "up") = bool_decide (j = "up").

(** ** Order-theoretic vocabulary used in the statements *)

Definition antisymmetric_on (L : Lattice) : Prop :=
  ∀ x y, x ∈ elements L → y ∈ elements L →
    is_less_than_or_equal L x y = true → is_less_than_or_equal L y x = true → x = y.

Definition reflexive_on (L : Lattice) : Prop :=
  ∀ x, x ∈ elements L → is_less_than_or_equal L x x = true.

Definition transitive_on (L : Lattice) : Prop :=
  ∀ x y z, x ∈ elements L → y ∈ elements L → z ∈ elements L →
    is_less_than_or_equal L x y = true → is_less_than_or_equal L y z = true →
    is_less_than_or_equal L x z = true.

(** [j] is a least upper bound of [a] and [b] among the elements. *)
Definition is_lub (L : Lattice) (a b j : string) : Prop :=
  j ∈ elements L
  ∧ is_less_than_or_equal L a j = true ∧ is_less_than_or_equal L b j = true
  ∧ ∀ u, u ∈ elements L → is_less_than_or_equal L a u = true →
         is_less_than_or_equal L b u = true → is_less_than_or_equal L j u = true.

(** [m] is a greatest lower bound of [a] and [b] among the elements. *)
Definition is_glb (L : Lattice) (a b m : string) : Prop :=
  m ∈ elements L
  ∧ is_less_than_or_equal L m a = true ∧ is_less_than_or_equal L m b = true
  ∧ ∀ u, u ∈ elements L → is_less_than_or_equal L u a = true →
         is_less_than_or_equal L u b = true → is_less_than_or_equal L u m = true.

(** The closure check of [__init__] went through. *)
Definition closed (L : Lattice) : Prop := check_pairs L = Ok tt.

(** The sublattice lies inside the base lattice and carries the base order
    restricted to its own elements. *)
Definition order_restricted (ML : ManyLattice) (L : Lattice) : Prop :=
  elements L ⊆ elements ML
  ∧ ∀ x y, x ∈ elements L → y ∈ elements L →
      is_less_than_or_equal L x y = is_less_than_or_equal ML x y.

(** Executable checks of the order properties, for concrete lattices. *)
Definition reflexive_onb (L : Lattice) : bool :=
  bool_decide (set_Forall (λ x, is_less_than_or_equal L x x = true) (elements L)).

Definition antisymmetric_onb (L : Lattice) : bool :=
  bool_decide
    (set_Forall (λ x, set_Forall (λ y,
       is_less_than_or_equal L x y = true → is_less_than_or_equal L y x = true → x = y)
       (elements L)) (elements L)).

Definition transitive_onb (L : Lattice) : bool :=
  bool_decide
    (set_Forall (λ x, set_Forall (λ y, set_Forall (λ z,
       is_less_than_or_equal L x y = true → is_less_than_or_equal L y z = true →
       is_less_than_or_equal L x z = true)
       (elements L)) (elements L)) (elements L)).

Definition order_restrictedb (ML : ManyLattice) (L : Lattice) : bool :=
  bool_decide (elements L ⊆ elements ML)
  && bool_decide
       (set_Forall (λ x, set_Forall (λ y,
          is_less_than_or_equal L x y = is_less_than_or_equal ML x y)
          (elements L)) (elements L)).

(** * Further code of the repository *)

(** ** class Model, continued: relations *)

Definition set_accessibility_relation (self : Model) (d : gmap wref (gset wref)) : Model :=
  mkModel (name_model self) (many_lattice self) (worlds self) (initial_state self)
    (props self) (actions self) d.

(** The accessibility dictionary is created as a [defaultdict(set)] when no
    dictionary is passed to [Model(...)], and is the caller's dictionary
    otherwise.  Indexing a missing key, [d[k]], creates an empty entry in a
    [defaultdict] and raises [KeyError] in a plain [dict]; the argument
    [defaultdict] of the methods below tells which kind the model holds. *)
Definition add_relation (σ : store) (defaultdict : bool) (self : Model)
    (world1_name world2_name : string) : Model * result unit :=
  match get_world σ self world1_name, get_world σ self world2_name with
  | Some world1, Some world2 =>
      match accessibility_relation self !! world1 with
      | Some targets =>
          (set_accessibility_relation self
             (<[world1 := {[world2]} ∪ targets]> (accessibility_relation self)), Ok tt)
      | None =>
          if defaultdict
          then (set_accessibility_relation self
                  (<[world1 := {[world2]}]> (accessibility_relation self)), Ok tt)
          else (self, Raise KeyError)
      end
  | _, _ => (self, Raise ValueError)
  end.

Definition delete_relation (σ : store) (defaultdict : bool) (self : Model)
    (world1_name world2_name : string) : Model * result unit :=
  match get_world σ self world1_name, get_world σ self world2_name with
  | Some world1, Some world2 =>
      match accessibility_relation self !! world1 with
      | Some targets =>
          if bool_decide (world2 ∉ targets) then (self, Raise ValueError)
          else (set_accessibility_relation self
                  (<[world1 := targets ∖ {[world2]}]> (accessibility_relation self)), Ok tt)
      | None =>
          (* the membership test indexes the dictionary first *)
          if defaultdict
          then (set_accessibility_relation self
                  (<[world1 := ∅]> (accessibility_relation self)), Raise ValueError)
          else (self, Raise KeyError)
      end
  | _, _ => (self, Raise ValueError)
  end.

Definition get_accessible_worlds (σ : store) (self : Model) (world_name : string)
    : result (gset wref) :=
  match get_world σ self world_name with
  | None => Raise ValueError
  | Some world => Ok (default ∅ (accessibility_relation self !! world))
  end.

(** ** app_obj_creation/new_many_lattice_dialog.py : is_valid_sublattice *)

(** A loop whose body may [return False]: [Ok true] goes on to the next
    item, anything else ends the loop with that outcome. *)
Fixpoint all_pass {A} (body : A → result bool) (l : list A) : result bool :=
  match l with
  | [] => Ok true
  | x :: l' =>
      match body x with
      | Ok true => all_pass body l'
      | r => r
      end
  end.

(** [except ValueError: return False] *)
Definition except_ValueError (r : result bool) : result bool :=
  match r with
  | Raise ValueError => Ok false
  | r => r
  end.

Definition is_valid_sublattice (subset : gset string) (lattice : Lattice) : result bool :=
  if bool_decide (size subset = 1%nat) then Ok true
  else
    all_pass
      (λ a, all_pass
         (λ b, except_ValueError
            (j ← join lattice a b;
             if bool_decide (j ∉ subset) then Ok false
             else
               m ← meet lattice a b;
               if bool_decide (m ∉ subset) then Ok false else Ok true))
         (iter subset))
      (iter subset).

(** ** app.py : the sublattices generated in create_new_many_lattice *)

(** [str.strip()]: leading and trailing white space is removed. *)
Fixpoint lstrip (s : string) : string :=
  match s with
  | String c rest => if isspace c then lstrip rest else s
  | EmptyString => s
  end.

Fixpoint rstrip (s : string) : string :=
  match s with
  | String c rest =>
      match rstrip rest with
      | EmptyString => if isspace c then EmptyString else String c EmptyString
      | r => String c r
      end
  | EmptyString => s
  end.

Definition strip (s : string) : string := rstrip (lstrip s).

(** The body of the loop over the selected subsets: the [i]-th subset
    (counted from 0) becomes the lattice [<new_name>_gen_<i+1>] on the
    stripped names, ordered by the pairs of the base relation that lie
    inside it, with empty maps. *)
Definition generated_sublattice (new_name : string) (i : nat) (subset : gset string)
    (base_lat : Lattice) : result Lattice :=
  let subset_str : gset string := set_map strip subset in
  let sub_name := new_name +:+ "_gen_" +:+ pretty (i + 1)%nat in
  let sub_relations : gset (string * string) :=
    base.filter (λ p : string * string, p.1 ∈ subset_str ∧ p.2 ∈ subset_str)
      (set_map (λ p : string * string, (strip p.1, strip p.2)) (relations base_lat)
         : gset (string * string)) in
  Lattice_init sub_name subset_str sub_relations (Some ∅) (Some ∅).

(** ** Vocabulary for the further properties of models *)

(** Every world of the model has an entry in the accessibility relation. *)
Definition entries_total (self : Model) : Prop :=
  ∀ world, world ∈ worlds self → is_Some (accessibility_relation self !! world).

(** No two worlds of the model share a short name. *)
Definition unique_short_names (σ : store) (self : Model) : Prop :=
  ∀ v w, v ∈ worlds self → w ∈ worlds self →
    name_short (σ v) = name_short (σ w) → v = w.

(** Names that [strip] leaves alone. *)
Definition stripped (s : string) : Prop := strip s = s.

(** ** class ResiduatedLattice(Lattice) *)

Record ResiduatedLattice : Type := mkResiduatedLattice {
  rl_lattice :> Lattice;            (* the inherited [Lattice] part *)
  name_residuated_lattice : string;
  operation : gmap (string * string) string;
  neutral_elem : option string;
}.

Definition ResiduatedLattice_init (name_residuated_lattice name_lattice : string)
    (elements : gset string) (relations : gset (string * string))
    (operation : option (gmap (string * string) string))
    (neutral_elem : option string)
    (negation_map : option (gmap string string))
    (implication_map : option (gmap (string * string) string))
    : result ResiduatedLattice :=
  super ← Lattice_init name_lattice elements relations negation_map implication_map;
  Ok (mkResiduatedLattice super name_residuated_lattice (default ∅ operation) neutral_elem).

(** ** class TwistStructure *)

Module Twist.
(** The three builders, called by [__init__] in this order. *)
Definition _build_elements (rl : ResiduatedLattice) : gset (string * string) :=
  list_to_set (e1 ← iter (elements rl); e2 ← iter (elements rl); [(e1, e2)]).

Definition _build_truth_order (rl : ResiduatedLattice) (els : gset (string * string))
    : gset ((string * string) * (string * string)) :=
  list_to_set
    (p1 ← iter els; p2 ← iter els;
     if is_less_than_or_equal rl p1.1 p2.1 && is_less_than_or_equal rl p2.2 p1.2
     then [(p1, p2)] else []).

Definition _build_quantity_info_order (rl : ResiduatedLattice)
    (els : gset (string * string)) : gset ((string * string) * (string * string)) :=
  list_to_set
    (p1 ← iter els; p2 ← iter els;
     if is_less_than_or_equal rl p1.1 p2.1 && is_less_than_or_equal rl p1.2 p2.2
     then [(p1, p2)] else []).

Record TwistStructure : Type := mkTwistStructure {
  residuated_lattice : ResiduatedLattice;
  elements : gset (string * string);
  truth_relation : gset ((string * string) * (string * string));
  qntt_info_relation : gset ((string * string) * (string * string));
}.

Definition TwistStructure_init (residuated_lattice : ResiduatedLattice) : TwistStructure :=
  let els := _build_elements residuated_lattice in
  mkTwistStructure residuated_lattice els
    (_build_truth_order residuated_lattice els)
    (_build_quantity_info_order residuated_lattice els).

Definition is_lq_truth (self : TwistStructure) (pair1 pair2 : string * string) : bool :=
  bool_decide ((pair1, pair2) ∈ truth_relation self).

Definition is_lq_qntt_info (self : TwistStructure) (pair1 pair2 : string * string) : bool :=
  bool_decide ((pair1, pair2) ∈ qntt_info_relation self).

Definition weak_meet (self : TwistStructure) (pair1 pair2 : string * string)
    : result (string * string) :=
  let rl := residuated_lattice self in
  m ← meet rl pair1.1 pair2.1;
  j ← join rl pair1.2 pair2.2;
  Ok (m, j).

Definition weak_join (self : TwistStructure) (pair1 pair2 : string * string)
    : result (string * string) :=
  let rl := residuated_lattice self in
  j ← join rl pair1.1 pair2.1;
  m ← meet rl pair1.2 pair2.2;
  Ok (j, m).

Definition consensus (self : TwistStructure) (pair1 pair2 : string * string)
    : result (string * string) :=
  let rl := residuated_lattice self in
  meet_t ← meet rl pair1.1 pair2.1;
  match implication rl pair1.1 pair2.2, implication rl pair2.1 pair1.2 with
  | Some imp_t1_f2, Some imp_t2_f1 =>
      meet_imp ← meet rl imp_t1_f2 imp_t2_f1;
      Ok (meet_t, meet_imp)
  | _, _ => Raise ValueError
  end.

Definition accept_all (self : TwistStructure) (pair1 pair2 : string * string)
    : result (string * string) :=
  let rl := residuated_lattice self in
  jt ← join rl pair1.1 pair2.1;
  jf ← join rl pair1.2 pair2.2;
  Ok (jt, jf).

Definition negation (self : TwistStructure) (pair : string * string) : string * string :=
  (pair.2, pair.1).

Definition implication (self : TwistStructure) (pair1 pair2 : string * string)
    : result (string * string) :=
  let rl := residuated_lattice self in
  let '(t1, f1) := pair1 in
  let '(t2, f2) := pair2 in
  match implication rl t1 t2, implication rl f2 f1 with
  | Some imp_t1_t2, Some imp_f2_f1 =>
      meet_imp ← meet rl imp_t1_t2 imp_f2_f1;
      meet_t1_f2 ← meet rl t1 f2;
      Ok (meet_imp, meet_t1_f2)
  | _, _ => Raise ValueError
  end.
End Twist.

(** ** Vocabulary for the further properties *)

(** Every pair of elements has a greatest lower and a least upper bound
    among the elements; the bounds of a pair depend on the elements and the
    relations only. *)
Definition has_bounds (E : gset string) (R : gset (string * string)) : Prop :=
  ∀ x y, x ∈ E → y ∈ E →
    (∃ m, is_glb (mkLattice "" E R ∅ ∅ None None) x y m)
    ∧ (∃ j, is_lub (mkLattice "" E R ∅ ∅ None None) x y j).

(** ** Vocabulary for the further properties of evaluation *)

(** The part of a model that evaluation at the worlds [W] can reach is in
    order: the lattice of every world was built successfully and is
    registered by name, the accessibility relation does not lead out of
    [W], and the negation table of the base covers the elements of every
    world's lattice. *)
Definition well_formed (σ : store) (model : Model) (W : gset wref) : Prop :=
  (∀ w, w ∈ W → ∃ nm E R neg imp, Lattice_init nm E R neg imp = Ok (lattice (σ w)))
  ∧ (∀ w, w ∈ W →
       name (lattice (σ w)) ∈ (name <$> comp_sub_lat (many_lattice model)))
  ∧ (∀ w ts, w ∈ W → accessibility_relation model !! w = Some ts → ts ⊆ W)
  ∧ (∀ w x, w ∈ W → x ∈ elements (lattice (σ w)) →
       is_Some (negation_map (many_lattice model) !! x)).

(** Every atom of [atoms] is assigned, in every world of [W], an element of
    that world's lattice. *)
Definition atoms_assigned (σ : store) (W : gset wref) (atoms : gset string) : Prop :=
  ∀ w p, w ∈ W → p ∈ atoms →
    ∃ v, assignments (σ w) !! p = Some v ∧ v ∈ elements (lattice (σ w)).

(** An evaluator returns, at every world of [W], an element of that world's
    lattice. *)
Definition safe (σ : store) (W : gset wref) (ev : evaluator) : Prop :=
  ∀ w, w ∈ W → ∃ v, ev w = Ok v ∧ v ∈ elements (lattice (σ w)).

(** The worlds of [W] live in one lattice: their lattices were built
    successfully and have the same elements, the accessibility relation
    does not lead out of [W], every assignment is an element, and the base
    negation and implication tables map elements to elements. *)
Definition one_lattice (σ : store) (model : Model) (W : gset wref) : Prop :=
  (∀ w, w ∈ W → ∃ nm E R neg imp, Lattice_init nm E R neg imp = Ok (lattice (σ w)))
  ∧ (∀ w u, w ∈ W → u ∈ W → elements (lattice (σ u)) = elements (lattice (σ w)))
  ∧ (∀ w ts, w ∈ W → accessibility_relation model !! w = Some ts → ts ⊆ W)
  ∧ (∀ w p v, w ∈ W → assignments (σ w) !! p = Some v → v ∈ elements (lattice (σ w)))
  ∧ (∀ w x n, w ∈ W → x ∈ elements (lattice (σ w)) →
       negation_map (many_lattice model) !! x = Some n → n ∈ elements (lattice (σ w)))
  ∧ (∀ w x y r, w ∈ W → x ∈ elements (lattice (σ w)) → y ∈ elements (lattice (σ w)) →
       implication_map (many_lattice model) !! (x, y) = Some r →
       r ∈ elements (lattice (σ w))).

(** Two evaluators have the same outcome at every world of [W], and a value
    they return is an element of that world's lattice. *)
Definition agree_on (σ : store) (W : gset wref) (e1 e2 : evaluator) : Prop :=
  ∀ w, w ∈ W → e1 w = e2 w ∧ ∀ v, e2 w = Ok v → v ∈ elements (lattice (σ w)).

(** ** The recursion limit of the interpreter *)

(** Every call of an [evaluate] method takes a frame of the interpreter's
    stack; a call beyond the recursion limit raises [RecursionError]
    instead of running, and no method of the evaluator catches it.  The
    outcome of an evaluation under a limit is an outcome of the method or
    [RecursionError]. *)
Inductive limited (A : Type) : Type :=
  | Within (r : result A)
  | RecursionError.
Arguments Within {A} r.
Arguments RecursionError {A}.

#[global] Instance limited_bind : MBind limited :=
  λ A B f x,
    match x with
    | Within (Ok a) => f a
    | Within (Raise e) => Within (Raise e)
    | RecursionError => RecursionError
    end.

(** [for x in l: acc = f(acc, x)] under a limit. *)
Fixpoint for_each_limited {A B} (f : B → A → limited B) (acc : B) (l : list A)
    : limited B :=
  match l with
  | [] => Within (Ok acc)
  | x :: l' => acc' ← f acc x; for_each_limited f acc' l'
  end.

Section limited_evaluation.
Variable σ : store.
Variable model : Model.
Variable interpretation : string.

(** [node.evaluate(model, world, interpretation)] when the interpreter
    admits [limit] more nested calls of [evaluate].  Each method evaluates
    its children with one call less, in the order of its statements, and
    then runs the rest of its body on their values; [Iff] and [Diamond]
    build the node they are defined by and call its [evaluate].  The
    lattice methods called from the bodies do not call [evaluate] and nest
    to a bounded depth: [limit] counts the calls of [evaluate] that are
    left once the frames of those methods are set aside. *)
Fixpoint evaluate_limited (limit : nat) (node : ASTNode) (world : wref) : limited string :=
  match limit with
  | O => RecursionError
  | S limit =>
      match node with
      | Atom name => Within (Atom_evaluate σ name world)
      | Not child =>
          val ← evaluate_limited limit child world;
          Within (Not_evaluate σ model interpretation (λ _, Ok val) world)
      | And l r =>
          val_a ← evaluate_limited limit l world;
          val_b ← evaluate_limited limit r world;
          Within (And_evaluate σ (λ _, Ok val_a) (λ _, Ok val_b) world)
      | Or l r =>
          val_a ← evaluate_limited limit l world;
          val_b ← evaluate_limited limit r world;
          Within (Or_evaluate σ (λ _, Ok val_a) (λ _, Ok val_b) world)
      | Implies l r =>
          val_a ← evaluate_limited limit l world;
          val_b ← evaluate_limited limit r world;
          Within (Implies_evaluate σ model interpretation
                    (λ _, Ok val_a) (λ _, Ok val_b) world)
      | Iff l r =>
          evaluate_limited limit (And (Implies l r) (Implies r l)) world
      | Box child =>
          let accessible_worlds := default ∅ (accessibility_relation model !! world) in
          if bool_decide (accessible_worlds = ∅)
          then Within (getattr (top (lattice (σ world))))
          else
            relativized_values ←
              for_each_limited
                (λ (relativized_values : gset string) u,
                   raw_val ← evaluate_limited limit child u;
                   interp_val ←
                     Within (interpret model interpretation (lattice (σ world)) raw_val);
                   Within (Ok ({[interp_val]} ∪ relativized_values)))
                ∅ (iter accessible_worlds);
            Within (meet_set (lattice (σ world)) (Some relativized_values))
      | Diamond child =>
          evaluate_limited limit (Not (Box (Not child))) world
      end
  end.
End limited_evaluation.

(** The number of nested calls of [evaluate] that the evaluation of a node
    makes at most: one for the node itself on top of its children, three
    for [Iff] (its own, [And.evaluate] and [Implies.evaluate]) and four for
    [Diamond] (its own, [Not.evaluate], [Box.evaluate] and [Not.evaluate]). *)
Fixpoint evaluate_depth (node : ASTNode) : nat :=
  match node with
  | Atom _ => 1%nat
  | Not child | Box child => S (evaluate_depth child)
  | And l r | Or l r | Implies l r => S (Nat.max (evaluate_depth l) (evaluate_depth r))
  | Iff l r => (3 + Nat.max (evaluate_depth l) (evaluate_depth r))%nat
  | Diamond child => (4 + evaluate_depth child)%nat
  end.

(** ** Concrete objects used in the further examples *)

Module Samples.
(** The Boolean lattice with its negation table, and a many-lattice over it
    that registers it. *)
Definition bool_lat : Lattice :=
  mkLattice "bool" Boolean.elems Boolean.rels Boolean.neg ∅ (Some "0") (Some "1").
Definition bool_many : ManyLattice :=
  mkManyLattice (mkFilteredLattice bool_lat "filtered" {["1"]}) [bool_lat] "many".

(** A world with [p = 1] and [q = 0], in a model where it sees itself. *)
Definition valued : World :=
  mkWorld "world" "w" bool_lat {["p" := "1"; "q" := "0"]}.
Definition loop : Model :=
  mkModel "loop" bool_many {[1%positive]} 1%positive ∅ ∅ {[1%positive := {[1%positive]}]}.
(** The same world in a model where it sees no world. *)
Definition dead_end : Model :=
  mkModel "dead" bool_many {[1%positive]} 1%positive ∅ ∅ {[1%positive := ∅]}.

(** Worlds named [a] (reference 1) and [b] (any other reference) over the
    lattice [ends] of the chain. *)
Definition two_worlds : store := λ r,
  if bool_decide (r = 1%positive) then mkWorld "first" "a" Examples.ends ∅
  else mkWorld "second" "b" Examples.ends ∅.
Definition solo : Model :=
  mkModel "solo" Examples.chain {[1%positive]} 1%positive ∅ ∅ {[1%positive := ∅]}.
Definition duo : Model :=
  mkModel "duo" Examples.chain {[1%positive; 2%positive]} 1%positive ∅ ∅
    {[1%positive := ∅; 2%positive := ∅]}.
(** A model whose accessibility relation has an entry for a non-world. *)
Definition stray : Model :=
  mkModel "stray" Examples.chain {[1%positive]} 1%positive ∅ ∅
    {[1%positive := ∅; 2%positive := ∅]}.

(** The chain [0 ≤ h ≤ 1] as a lattice. *)
Definition chain_lat : Lattice :=
  mkLattice "chain" Examples.chain_elems Examples.chain_rels ∅ ∅ (Some "0") (Some "1").

(** Two elements that are not related to each other. *)
Definition loose : gset (string * string) := {[("0", "0"); ("1", "1")]}.
Definition loose_lat : Lattice := mkLattice "loose" Boolean.elems loose ∅ ∅ None None.
End Samples.

(** * Properties *)

(** ** Construction of a lattice *)

Lemma iter_empty `{Countable A} : iter (∅ : gset A) = [].
Proof. unfold iter. apply elements_empty. Qed.

Lemma elem_of_iter `{Countable A} (s : gset A) x : x ∈ iter s ↔ x ∈ s.
Proof. unfold iter. apply elem_of_elements. Qed.

Lemma In_iter `{Countable A} (s : gset A) x : In x (iter s) ↔ x ∈ s.
Proof. rewrite <- list_elem_of_In. apply elem_of_iter. Qed.

(** C10: a lattice with no element cannot be built.  Whatever the name, the
    relations and the two maps, the closure check succeeds on the empty
    element set, and the computation of [bottom] then reads the attribute
    [top] before it is assigned: construction ends in [AttributeError], which
    is not the [ValueError] documented for an invalid lattice. *)
Theorem Lattice_init_empty_raises (nm : string) (rel : gset (string * string))
    (neg : option (gmap string string))
    (imp : option (gmap (string * string) string)) :
  _check_is_lattice (mkLattice nm ∅ rel (default ∅ neg) (default ∅ imp) None None) = Ok true
  ∧ Lattice_init nm ∅ rel neg imp = Raise AttributeError
  ∧ Lattice_init nm ∅ rel neg imp ≠ Raise ValueError.
Proof.
  assert (Hc : check_pairs (mkLattice nm ∅ rel (default ∅ neg) (default ∅ imp) None None)
               = Ok tt).
  { unfold check_pairs. cbn [elements]. rewrite iter_empty. reflexivity. }
  assert (Hi : Lattice_init nm ∅ rel neg imp = Raise AttributeError).
  { unfold Lattice_init, _check_is_lattice. rewrite Hc. cbn.
    unfold meet_set. cbn. rewrite iter_empty. reflexivity. }
  split; [|split].
  - unfold _check_is_lattice. rewrite Hc. reflexivity.
  - exact Hi.
  - rewrite Hi. discriminate.
Qed.

(** What a successful [__init__] establishes. *)
Lemma Lattice_init_Ok nm E R neg imp L :
  Lattice_init nm E R neg imp = Ok L →
  ∃ b t,
    L = mkLattice nm E R (default ∅ neg) (default ∅ imp) (Some b) (Some t)
    ∧ check_pairs (mkLattice nm E R (default ∅ neg) (default ∅ imp) None None) = Ok tt
    ∧ meet_set (mkLattice nm E R (default ∅ neg) (default ∅ imp) None None) (Some E) = Ok b
    ∧ join_set (mkLattice nm E R (default ∅ neg) (default ∅ imp) (Some b) None) (Some E) = Ok t.
Proof.
  unfold Lattice_init, _check_is_lattice.
  destruct (check_pairs _) as [[]|[]] eqn:Hc; cbn; try discriminate.
  destruct (meet_set _ _) as [b|] eqn:Hb; cbn; try discriminate.
  destruct (join_set _ _) as [t|] eqn:Ht; cbn; try discriminate.
  intros [= <-]. eauto 10.
Qed.

(** C5: in a lattice that was built successfully, the meet of the empty set
    is [top] and the join of the empty set is [bottom]; the same holds when
    the argument is omitted. *)
Theorem meet_set_join_set_empty nm E R neg imp L :
  Lattice_init nm E R neg imp = Ok L →
  ∃ t b,
    top L = Some t ∧ bottom L = Some b
    ∧ meet_set L (Some ∅) = Ok t ∧ join_set L (Some ∅) = Ok b
    ∧ meet_set L None = Ok t ∧ join_set L None = Ok b.
Proof.
  intros (b & t & -> & _)%Lattice_init_Ok. exists t, b.
  unfold meet_set, join_set. cbn. rewrite iter_empty. cbn. auto 10.
Qed.

(** ** Meet and join *)

Lemma for_each_unit {A} (f : A → result unit) (l : list A) :
  for_each (λ _ x, f x) tt l = Ok tt ↔ ∀ x, In x l → f x = Ok tt.
Proof.
  induction l as [|x l IH]; cbn.
  - split; [intros _ ? []|reflexivity].
  - destruct (f x) as [[]|e] eqn:Hx.
    + rewrite IH. split.
      * intros H y [<-|Hy]; auto.
      * intros H y Hy. apply H. auto.
    + split; [discriminate|]. intros H. specialize (H x (or_introl eq_refl)). congruence.
Qed.

Section bounds.
Variable L : Lattice.
Implicit Types a b x y : string.

Local Abbreviation leq := (is_less_than_or_equal L).

Lemma In_upper_bounds a b x :
  In x (upper_bounds L a b) ↔ x ∈ elements L ∧ leq a x = true ∧ leq b x = true.
Proof.
  unfold upper_bounds. rewrite filter_In, In_iter, andb_true_iff. tauto.
Qed.

Lemma In_lower_bounds a b x :
  In x (lower_bounds L a b) ↔ x ∈ elements L ∧ leq x a = true ∧ leq x b = true.
Proof.
  unfold lower_bounds. rewrite filter_In, In_iter, andb_true_iff. tauto.
Qed.

Lemma upper_bounds_comm a b : upper_bounds L a b = upper_bounds L b a.
Proof.
  unfold upper_bounds. apply filter_ext. intros x. apply andb_comm.
Qed.

Lemma lower_bounds_comm a b : lower_bounds L a b = lower_bounds L b a.
Proof.
  unfold lower_bounds. apply filter_ext. intros x. apply andb_comm.
Qed.

(** The scan returns a member that is below every member ... *)
Lemma scan_least_Ok bounds x :
  scan_least L bounds = Ok x →
  In x bounds ∧ ∀ y, In y bounds → leq x y = true.
Proof.
  unfold scan_least. destruct bounds as [|b0 bs]; [discriminate|].
  destruct (find _ _) as [x'|] eqn:Hf; [|discriminate].
  intros [= <-]. apply find_some in Hf as [Hin Hall].
  split; [exact Hin|]. intros y Hy.
  rewrite forallb_forall in Hall. auto.
Qed.

(** ... and finds one whenever there is one, in whatever order it scans. *)
Lemma scan_least_total bounds x :
  In x bounds → (∀ y, In y bounds → leq x y = true) →
  ∃ x', scan_least L bounds = Ok x'.
Proof.
  intros Hin Hall. unfold scan_least.
  destruct bounds as [|b0 bs]; [destruct Hin|].
  destruct (find _ _) as [x'|] eqn:Hf; [eauto|].
  apply find_none with (x := x) in Hf; [|exact Hin].
  rewrite (proj2 (forallb_forall _ _)) in Hf; [discriminate|auto].
Qed.

Lemma scan_greatest_Ok bounds x :
  scan_greatest L bounds = Ok x →
  In x bounds ∧ ∀ y, In y bounds → leq y x = true.
Proof.
  unfold scan_greatest. destruct bounds as [|b0 bs]; [discriminate|].
  destruct (find _ _) as [x'|] eqn:Hf; [|discriminate].
  intros [= <-]. apply find_some in Hf as [Hin Hall].
  split; [exact Hin|]. intros y Hy.
  rewrite forallb_forall in Hall. auto.
Qed.

Lemma scan_greatest_total bounds x :
  In x bounds → (∀ y, In y bounds → leq y x = true) →
  ∃ x', scan_greatest L bounds = Ok x'.
Proof.
  intros Hin Hall. unfold scan_greatest.
  destruct bounds as [|b0 bs]; [destruct Hin|].
  destruct (find _ _) as [x'|] eqn:Hf; [eauto|].
  apply find_none with (x := x) in Hf; [|exact Hin].
  rewrite (proj2 (forallb_forall _ _)) in Hf; [discriminate|auto].
Qed.

Lemma join_unfold a b :
  a ∈ elements L → b ∈ elements L →
  join L a b = scan_least L (upper_bounds L a b).
Proof.
  intros Ha Hb. unfold join. rewrite bool_decide_eq_false_2; [reflexivity|].
  intros [?|?]; contradiction.
Qed.

Lemma meet_unfold a b :
  a ∈ elements L → b ∈ elements L →
  meet L a b = scan_greatest L (lower_bounds L a b).
Proof.
  intros Ha Hb. unfold meet. rewrite bool_decide_eq_false_2; [reflexivity|].
  intros [?|?]; contradiction.
Qed.

Lemma join_Ok a b j : join L a b = Ok j → a ∈ elements L ∧ b ∈ elements L ∧ is_lub L a b j.
Proof.
  unfold join. case_bool_decide as Hmem; [discriminate|].
  intros [Hin Hall]%scan_least_Ok.
  apply In_upper_bounds in Hin as (Hj & Haj & Hbj).
  assert (a ∈ elements L ∧ b ∈ elements L) as [Ha Hb].
  { split; apply dec_stable; intros ?; apply Hmem; auto. }
  repeat split; try assumption.
  intros u Hu Hau Hbu. apply Hall, In_upper_bounds. auto.
Qed.

Lemma meet_Ok a b m : meet L a b = Ok m → a ∈ elements L ∧ b ∈ elements L ∧ is_glb L a b m.
Proof.
  unfold meet. case_bool_decide as Hmem; [discriminate|].
  intros [Hin Hall]%scan_greatest_Ok.
  apply In_lower_bounds in Hin as (Hm & Hma & Hmb).
  assert (a ∈ elements L ∧ b ∈ elements L) as [Ha Hb].
  { split; apply dec_stable; intros ?; apply Hmem; auto. }
  repeat split; try assumption.
  intros u Hu Hua Hub. apply Hall, In_lower_bounds. auto.
Qed.

Lemma join_comm a b : join L a b = join L b a.
Proof.
  unfold join. rewrite (upper_bounds_comm a b).
  rewrite (bool_decide_ext (a ∉ elements L ∨ b ∉ elements L)
             (b ∉ elements L ∨ a ∉ elements L)) by tauto.
  reflexivity.
Qed.

Lemma meet_comm a b : meet L a b = meet L b a.
Proof.
  unfold meet. rewrite (lower_bounds_comm a b).
  rewrite (bool_decide_ext (a ∉ elements L ∨ b ∉ elements L)
             (b ∉ elements L ∨ a ∉ elements L)) by tauto.
  reflexivity.
Qed.

(** Any exception of [meet] and [join] is a [ValueError]. *)
Lemma join_Raise a b e : join L a b = Raise e → e = ValueError.
Proof.
  unfold join, scan_least. case_bool_decide; [congruence|].
  destruct (upper_bounds L a b); [congruence|].
  destruct (find _ _); congruence.
Qed.

Lemma meet_Raise a b e : meet L a b = Raise e → e = ValueError.
Proof.
  unfold meet, scan_greatest. case_bool_decide; [congruence|].
  destruct (lower_bounds L a b); [congruence|].
  destruct (find _ _); congruence.
Qed.

(** The closure check is the statement that every pair has both bounds. *)
Lemma closed_iff :
  closed L ↔
  ∀ x y, x ∈ elements L → y ∈ elements L →
    (∃ m, meet L x y = Ok m) ∧ (∃ j, join L x y = Ok j).
Proof.
  unfold closed, check_pairs. rewrite for_each_unit. split.
  - intros H x y Hx%In_iter Hy%In_iter. specialize (H x Hx).
    rewrite for_each_unit in H. specialize (H y Hy). cbn in H.
    destruct (meet L x y) as [m|]; [|discriminate]. cbn in H.
    destruct (join L x y) as [j|]; [|discriminate]. eauto.
  - intros H x Hx%In_iter. apply for_each_unit. intros y Hy%In_iter.
    destruct (H x y Hx Hy) as [[m ->] [j ->]]. reflexivity.
Qed.

Hypothesis Hclosed : closed L.

Lemma closed_join a b :
  a ∈ elements L → b ∈ elements L → ∃ j, join L a b = Ok j ∧ is_lub L a b j.
Proof.
  intros Ha Hb. destruct (proj1 closed_iff Hclosed a b Ha Hb) as [_ [j Hj]].
  exists j. split; [exact Hj|]. apply join_Ok in Hj. tauto.
Qed.

Lemma closed_meet a b :
  a ∈ elements L → b ∈ elements L → ∃ m, meet L a b = Ok m ∧ is_glb L a b m.
Proof.
  intros Ha Hb. destruct (proj1 closed_iff Hclosed a b Ha Hb) as [[m Hm] _].
  exists m. split; [exact Hm|]. apply meet_Ok in Hm. tauto.
Qed.

(** With an antisymmetric relation the scan order does not matter. *)
Lemma join_scan_order a b scan :
  antisymmetric_on L → a ∈ elements L → b ∈ elements L →
  scan ≡ₚ upper_bounds L a b → scan_least L scan = join L a b.
Proof.
  intros Hanti Ha Hb Hperm.
  destruct (closed_join a b Ha Hb) as (j & Hj & _). rewrite Hj.
  rewrite join_unfold in Hj by assumption.
  apply scan_least_Ok in Hj as [Hjin Hjall].
  destruct (scan_least_total scan j) as [x Hx].
  { eapply Permutation_in; [symmetry; exact Hperm|exact Hjin]. }
  { intros y Hy. apply Hjall. eapply Permutation_in; [exact Hperm|exact Hy]. }
  rewrite Hx. f_equal.
  apply scan_least_Ok in Hx as [Hxin Hxall].
  assert (Hxin' : In x (upper_bounds L a b))
    by (eapply Permutation_in; [exact Hperm|exact Hxin]).
  apply Hanti.
  - apply In_upper_bounds in Hxin'. tauto.
  - apply In_upper_bounds in Hjin. tauto.
  - apply Hxall. eapply Permutation_in; [symmetry; exact Hperm|exact Hjin].
  - apply Hjall, Hxin'.
Qed.

Lemma meet_scan_order a b scan :
  antisymmetric_on L → a ∈ elements L → b ∈ elements L →
  scan ≡ₚ lower_bounds L a b → scan_greatest L scan = meet L a b.
Proof.
  intros Hanti Ha Hb Hperm.
  destruct (closed_meet a b Ha Hb) as (m & Hm & _). rewrite Hm.
  rewrite meet_unfold in Hm by assumption.
  apply scan_greatest_Ok in Hm as [Hmin Hmall].
  destruct (scan_greatest_total scan m) as [x Hx].
  { eapply Permutation_in; [symmetry; exact Hperm|exact Hmin]. }
  { intros y Hy. apply Hmall. eapply Permutation_in; [exact Hperm|exact Hy]. }
  rewrite Hx. f_equal.
  apply scan_greatest_Ok in Hx as [Hxin Hxall].
  assert (Hxin' : In x (lower_bounds L a b))
    by (eapply Permutation_in; [exact Hperm|exact Hxin]).
  apply Hanti.
  - apply In_lower_bounds in Hxin'. tauto.
  - apply In_lower_bounds in Hmin. tauto.
  - apply Hmall, Hxin'.
  - apply Hxall. eapply Permutation_in; [symmetry; exact Hperm|exact Hmin].
Qed.

Lemma join_idem a :
  antisymmetric_on L → a ∈ elements L → leq a a = true → join L a a = Ok a.
Proof.
  intros Hanti Ha Hrefl.
  destruct (closed_join a a Ha Ha) as (j & -> & Hj & Haj & _ & Hleast).
  f_equal. apply Hanti; auto.
Qed.

Lemma meet_idem a :
  antisymmetric_on L → a ∈ elements L → leq a a = true → meet L a a = Ok a.
Proof.
  intros Hanti Ha Hrefl.
  destruct (closed_meet a a Ha Ha) as (m & -> & Hm & Hma & _ & Hgreatest).
  f_equal. apply Hanti; auto.
Qed.
End bounds.

(** [meet], [join] and the closure check read [elements] and [relations]
    only, so they agree on the object under construction and the finished
    one. *)
Lemma Lattice_init_closed nm E R neg imp L :
  Lattice_init nm E R neg imp = Ok L → closed L ∧ elements L = E ∧ relations L = R.
Proof.
  intros (b & t & -> & Hc & _)%Lattice_init_Ok. split; [exact Hc|split; reflexivity].
Qed.

(** C4, as the code has it.  In a lattice that was built successfully, for
    all elements [a] and [b]: [meet] and [join] return an element and are
    commutative.  When the relation is antisymmetric on the elements, the
    result does not depend on the order in which the bound set is scanned;
    when moreover [a ≤ a] is in the relation, [meet(a, a)] and [join(a, a)]
    are [a]. *)
Theorem meet_join_laws nm E R neg imp L (a b : string) :
  Lattice_init nm E R neg imp = Ok L →
  a ∈ elements L → b ∈ elements L →
  (∃ m j, meet L a b = Ok m ∧ join L a b = Ok j ∧ is_glb L a b m ∧ is_lub L a b j)
  ∧ meet L a b = meet L b a ∧ join L a b = join L b a
  ∧ (antisymmetric_on L →
       (∀ scan, scan ≡ₚ lower_bounds L a b → scan_greatest L scan = meet L a b)
       ∧ (∀ scan, scan ≡ₚ upper_bounds L a b → scan_least L scan = join L a b)
       ∧ (is_less_than_or_equal L a a = true → meet L a a = Ok a ∧ join L a a = Ok a)).
Proof.
  intros [Hc _]%Lattice_init_closed Ha Hb. repeat split.
  - destruct (closed_meet L Hc a b Ha Hb) as (m & Hm & Hglb).
    destruct (closed_join L Hc a b Ha Hb) as (j & Hj & Hlub).
    exists m, j. auto.
  - apply meet_comm.
  - apply join_comm.
  - intros scan. now apply meet_scan_order.
  - intros scan. now apply join_scan_order.
  - now apply meet_idem.
  - now apply join_idem.
Qed.

(** C4, as stated, fails: the relation [{(0,0), (0,1), (1,0)}] on [{0, 1}]
    passes the closure check, yet [meet(1, 1)] is [0]. *)
Lemma meet_idempotent_counterexample :
  ¬ (∀ nm E R neg imp L (a : string),
       Lattice_init nm E R neg imp = Ok L → a ∈ elements L → meet L a a = Ok a).
Proof.
  intros H.
  pose (R := ({[("0", "0"); ("0", "1"); ("1", "0")]} : gset (string * string))).
  pose (L := mkLattice "X" {["0"; "1"]} R ∅ ∅ (Some "0") (Some "0")).
  specialize (H "X" {["0"; "1"]} R None None L "1").
  assert (Hm : meet L "1" "1" = Ok "0") by (vm_compute; reflexivity).
  rewrite H in Hm; [discriminate| |].
  - vm_compute. reflexivity.
  - subst L. cbn. set_solver.
Qed.

(** ** Folding meet and join over a set *)

Section folds.
Variable L : Lattice.
Hypothesis Hclosed : closed L.
Hypothesis Htrans : transitive_on L.

Local Abbreviation leq := (is_less_than_or_equal L).

(** The loop of [join_set]: the accumulator only grows, ends above every
    element visited and below every common upper bound. *)
Lemma for_each_join (l : list string) : ∀ acc : string,
  acc ∈ elements L → (∀ x, In x l → x ∈ elements L) →
  ∃ j, for_each (λ greatest element, join L greatest element) acc l = Ok j
       ∧ j ∈ elements L
       ∧ (∀ z, z ∈ elements L → leq z acc = true → leq z j = true)
       ∧ (∀ x, In x l → leq x j = true)
       ∧ (∀ u, u ∈ elements L → leq acc u = true →
               (∀ x, In x l → leq x u = true) → leq j u = true).
Proof.
  induction l as [|e l IH]; intros acc Hacc Hl.
  - exists acc. cbn. repeat split; auto; try (intros ? []).
  - destruct (closed_join L Hclosed acc e Hacc (Hl e (or_introl eq_refl)))
      as (acc' & Hj & Hacc' & Hle1 & Hle2 & Hleast).
    destruct (IH acc' Hacc') as (j & Hfold & Hjin & Hgrow & Hub & Hlub).
    { intros x Hx. apply Hl. now right. }
    exists j. cbn. rewrite Hj.
    split; [exact Hfold|]. split; [exact Hjin|]. split; [|split].
    + intros z Hz Hzacc. apply Hgrow; [exact Hz|]. now apply (Htrans z acc acc').
    + intros x [<-|Hx]; [|now apply Hub].
      apply Hgrow; [|exact Hle2]. apply Hl. now left.
    + intros u Hu Haccu Hall. apply Hlub; [exact Hu| |].
      * apply Hleast; [exact Hu|exact Haccu|]. apply Hall. now left.
      * intros x Hx. apply Hall. now right.
Qed.

Lemma for_each_meet (l : list string) : ∀ acc : string,
  acc ∈ elements L → (∀ x, In x l → x ∈ elements L) →
  ∃ m, for_each (λ lower element, meet L lower element) acc l = Ok m
       ∧ m ∈ elements L
       ∧ (∀ z, z ∈ elements L → leq acc z = true → leq m z = true)
       ∧ (∀ x, In x l → leq m x = true)
       ∧ (∀ u, u ∈ elements L → leq u acc = true →
               (∀ x, In x l → leq u x = true) → leq u m = true).
Proof.
  induction l as [|e l IH]; intros acc Hacc Hl.
  - exists acc. cbn. repeat split; auto; try (intros ? []).
  - destruct (closed_meet L Hclosed acc e Hacc (Hl e (or_introl eq_refl)))
      as (acc' & Hm & Hacc' & Hle1 & Hle2 & Hgreatest).
    destruct (IH acc' Hacc') as (m & Hfold & Hmin & Hshrink & Hlb & Hglb).
    { intros x Hx. apply Hl. now right. }
    exists m. cbn. rewrite Hm.
    split; [exact Hfold|]. split; [exact Hmin|]. split; [|split].
    + intros z Hz Haccz. apply Hshrink; [exact Hz|]. now apply (Htrans acc' acc z).
    + intros x [<-|Hx]; [|now apply Hlb].
      apply Hshrink; [|exact Hle2]. apply Hl. now left.
    + intros u Hu Huacc Hall. apply Hglb; [exact Hu| |].
      * apply Hgreatest; [exact Hu|exact Huacc|]. apply Hall. now left.
      * intros x Hx. apply Hall. now right.
Qed.

Lemma join_set_nonempty (S : gset string) :
  S ⊆ elements L → S ≠ ∅ →
  ∃ j, join_set L (Some S) = Ok j ∧ j ∈ elements L
       ∧ (∀ x, x ∈ S → leq x j = true)
       ∧ (∀ u, u ∈ elements L → (∀ x, x ∈ S → leq x u = true) → leq j u = true).
Proof.
  intros Hsub Hne. unfold join_set. cbn.
  destruct (iter S) as [|g l] eqn:Hiter.
  { exfalso. apply Hne. apply elements_empty_inv in Hiter. now apply leibniz_equiv. }
  assert (Hin : ∀ x, In x (g :: l) ↔ x ∈ S) by (intros x; rewrite <- Hiter; apply In_iter).
  destruct (for_each_join (g :: l) g) as (j & Hfold & Hj & _ & Hub & Hlub).
  { apply Hsub, Hin. now left. }
  { intros x Hx. now apply Hsub, Hin. }
  exists j. split; [exact Hfold|]. split; [exact Hj|]. split.
  - intros x Hx. now apply Hub, Hin.
  - intros u Hu Hall. apply Hlub; [exact Hu| |].
    + apply Hall, Hin. now left.
    + intros x Hx. now apply Hall, Hin.
Qed.

Lemma meet_set_nonempty (S : gset string) :
  S ⊆ elements L → S ≠ ∅ →
  ∃ m, meet_set L (Some S) = Ok m ∧ m ∈ elements L
       ∧ (∀ x, x ∈ S → leq m x = true)
       ∧ (∀ u, u ∈ elements L → (∀ x, x ∈ S → leq u x = true) → leq u m = true).
Proof.
  intros Hsub Hne. unfold meet_set. cbn.
  destruct (iter S) as [|g l] eqn:Hiter.
  { exfalso. apply Hne. apply elements_empty_inv in Hiter. now apply leibniz_equiv. }
  assert (Hin : ∀ x, In x (g :: l) ↔ x ∈ S) by (intros x; rewrite <- Hiter; apply In_iter).
  destruct (for_each_meet (g :: l) g) as (m & Hfold & Hm & _ & Hlb & Hglb).
  { apply Hsub, Hin. now left. }
  { intros x Hx. now apply Hsub, Hin. }
  exists m. split; [exact Hfold|]. split; [exact Hm|]. split.
  - intros x Hx. now apply Hlb, Hin.
  - intros u Hu Hall. apply Hglb; [exact Hu| |].
    + apply Hall, Hin. now left.
    + intros x Hx. now apply Hall, Hin.
Qed.
End folds.

(** [bottom] is below and [top] above every element of a lattice that was
    built successfully, when its relation is transitive. *)
Lemma Lattice_init_extrema nm E R neg imp L :
  Lattice_init nm E R neg imp = Ok L → transitive_on L →
  ∃ b t, bottom L = Some b ∧ top L = Some t
         ∧ b ∈ elements L ∧ t ∈ elements L
         ∧ ∀ x, x ∈ elements L →
             is_less_than_or_equal L b x = true ∧ is_less_than_or_equal L x t = true.
Proof.
  intros Hinit Htr.
  destruct (Lattice_init_Ok _ _ _ _ _ _ Hinit) as (b & t & -> & Hc & Hb & Ht).
  exists b, t. cbn [bottom top elements].
  assert (HE : E ≠ ∅).
  { intros ->. revert Hb. unfold meet_set. cbn. rewrite iter_empty. discriminate. }
  set (L := mkLattice nm E R (default ∅ neg) (default ∅ imp) (Some b) (Some t)) in *.
  destruct (meet_set_nonempty L Hc Htr E) as (b' & Hb' & Hbin & Hlb & _); [done|done|].
  destruct (join_set_nonempty L Hc Htr E) as (t' & Ht' & Htin & Hub & _); [done|done|].
  assert (b' = b) as ->.
  { revert Hb Hb'. unfold meet_set. cbn. destruct (iter E); [discriminate|].
    intros H1 H2. enough (Ok b' = Ok b) by congruence.
    rewrite <- H1, <- H2. reflexivity. }
  assert (t' = t) as ->.
  { revert Ht Ht'. unfold join_set. cbn. destruct (iter E) eqn:HiE.
    - exfalso. apply HE. apply elements_empty_inv in HiE. now apply leibniz_equiv.
    - intros H1 H2. enough (Ok t' = Ok t) by congruence.
      rewrite <- H1, <- H2. reflexivity. }
  split; [reflexivity|]. split; [reflexivity|]. split; [exact Hbin|].
  split; [exact Htin|]. intros x Hx. split; [now apply Hlb|now apply Hub].
Qed.

(** ** Up and down interpretation *)

Section interpretation.
Variable ML : ManyLattice.
Variable L : Lattice.
Variables (nm : string) (E : gset string) (R : gset (string * string)).
Variables (neg : option (gmap string string)).
Variables (imp : option (gmap (string * string) string)).
Hypothesis Hinit : Lattice_init nm E R neg imp = Ok L.
Hypothesis Hreg : name L ∈ (name <$> comp_sub_lat ML).
Hypothesis Hres : order_restricted ML L.
Hypothesis Htrans : transitive_on ML.

Local Abbreviation leqB := (is_less_than_or_equal ML).
Local Abbreviation leqL := (is_less_than_or_equal L).

Lemma sub_transitive : transitive_on L.
Proof.
  destruct Hres as [Hsub Hord]. intros x y z Hx Hy Hz.
  rewrite !Hord by assumption. apply Htrans; auto.
Qed.

Lemma sub_closed : closed L.
Proof. now destruct (Lattice_init_closed _ _ _ _ _ _ Hinit). Qed.

(** The down interpretation of [c] lies above, in the sublattice, every
    sublattice element that lies below [c] in the base order.  It is [c]
    itself when [c] is a sublattice element, and otherwise the least
    sublattice element with that property. *)
Lemma down_interpretation_sup (c : string) :
  c ∈ elements ML →
  ∃ d, down_interpretation ML L c = Ok d ∧ d ∈ elements L
       ∧ (∀ x, x ∈ elements L → leqB x c = true → leqL x d = true)
       ∧ ((c ∈ elements L ∧ d = c)
          ∨ (∀ u, u ∈ elements L →
               (∀ x, x ∈ elements L → leqB x c = true → leqL x u = true) →
               leqL d u = true)).
Proof.
  intros Hc. pose proof Hres as [Hsub Hord].
  unfold down_interpretation.
  rewrite bool_decide_eq_false_2 by (intros Hn; apply Hn, Hreg).
  case_bool_decide as HcL.
  { exists c. split; [reflexivity|]. split; [exact HcL|]. split.
    - intros x Hx Hxc. now rewrite Hord.
    - left. split; [exact HcL|reflexivity]. }
  set (S := base.filter (λ x, is_less_than_or_equal ML x c) (elements L)).
  assert (HS : ∀ x, x ∈ S ↔ x ∈ elements L ∧ leqB x c = true).
  { intros x. unfold S. rewrite elem_of_filter, Is_true_true. tauto. }
  case_bool_decide as Hempty.
  - destruct (Lattice_init_extrema _ _ _ _ _ _ Hinit sub_transitive)
      as (bo & t & Hbo & _ & Hboin & _ & Hext).
    exists bo. rewrite Hbo. split; [reflexivity|]. split; [exact Hboin|]. split.
    + intros x Hx Hxc. exfalso. apply (not_elem_of_empty (C := gset string) x).
      rewrite <- Hempty. now apply HS.
    + right. intros u Hu _. now apply Hext.
  - destruct (join_set_nonempty L sub_closed sub_transitive S)
      as (j & Hj & Hjin & Hub & Hlub); [|exact Hempty|].
    { intros x Hx. now apply HS in Hx. }
    exists j. split; [exact Hj|]. split; [exact Hjin|]. split.
    + intros x Hx Hxc. now apply Hub, HS.
    + right. intros u Hu Hall. apply Hlub; [exact Hu|].
      intros x [Hx Hxc]%HS. now apply Hall.
Qed.

(** Dually, the up interpretation of [c] lies below every sublattice
    element that lies above [c]; it is [c] itself when [c] is a sublattice
    element, and otherwise the greatest sublattice element with that
    property. *)
Lemma up_interpretation_inf (c : string) :
  c ∈ elements ML →
  ∃ d, up_interpretation ML L c = Ok d ∧ d ∈ elements L
       ∧ (∀ x, x ∈ elements L → leqB c x = true → leqL d x = true)
       ∧ ((c ∈ elements L ∧ d = c)
          ∨ (∀ u, u ∈ elements L →
               (∀ x, x ∈ elements L → leqB c x = true → leqL u x = true) →
               leqL u d = true)).
Proof.
  intros Hc. pose proof Hres as [Hsub Hord].
  unfold up_interpretation.
  rewrite bool_decide_eq_false_2 by (intros Hn; apply Hn, Hreg).
  case_bool_decide as HcL.
  { exists c. split; [reflexivity|]. split; [exact HcL|]. split.
    - intros x Hx Hcx. now rewrite Hord.
    - left. split; [exact HcL|reflexivity]. }
  set (S := base.filter (λ x, is_less_than_or_equal ML c x) (elements L)).
  assert (HS : ∀ x, x ∈ S ↔ x ∈ elements L ∧ leqB c x = true).
  { intros x. unfold S. rewrite elem_of_filter, Is_true_true. tauto. }
  case_bool_decide as Hempty.
  - destruct (Lattice_init_extrema _ _ _ _ _ _ Hinit sub_transitive)
      as (bo & t & _ & Ht & _ & Htin & Hext).
    exists t. rewrite Ht. split; [reflexivity|]. split; [exact Htin|]. split.
    + intros x Hx Hcx. exfalso. apply (not_elem_of_empty (C := gset string) x).
      rewrite <- Hempty. now apply HS.
    + right. intros u Hu _. now apply Hext.
  - destruct (meet_set_nonempty L sub_closed sub_transitive S)
      as (m & Hm & Hmin & Hlb & Hglb); [|exact Hempty|].
    { intros x Hx. now apply HS in Hx. }
    exists m. split; [exact Hm|]. split; [exact Hmin|]. split.
    + intros x Hx Hcx. now apply Hlb, HS.
    + right. intros u Hu Hall. apply Hglb; [exact Hu|].
      intros x [Hx Hcx]%HS. now apply Hall.
Qed.

(** C3, as the code has it.  Let [L] be a lattice that was built
    successfully and is registered by name in the many-lattice [ML].  If
    [L] lies inside the base lattice and carries the base order restricted
    to its elements, and the base order is transitive on the base elements,
    then for base elements [a ≤ b] both interpretations return, and
    [down(L, a) ≤ down(L, b)] and [up(L, a) ≤ up(L, b)] hold in the order of
    [L]. *)
Theorem interpretation_monotone (a b : string) :
  a ∈ elements ML → b ∈ elements ML → is_less_than_or_equal ML a b = true →
  (∃ x y, down_interpretation ML L a = Ok x ∧ down_interpretation ML L b = Ok y
          ∧ is_less_than_or_equal L x y = true)
  ∧ (∃ x y, up_interpretation ML L a = Ok x ∧ up_interpretation ML L b = Ok y
            ∧ is_less_than_or_equal L x y = true).
Proof.
  intros Ha Hb Hab. pose proof Hres as [Hsub Hord]. split.
  - destruct (down_interpretation_sup a Ha) as (x & Hx & Hxin & _ & Hleast).
    destruct (down_interpretation_sup b Hb) as (y & Hy & Hyin & Hupper & _).
    exists x, y. split; [exact Hx|]. split; [exact Hy|].
    destruct Hleast as [[HaL ->]|Hleast]; [now apply Hupper|].
    apply Hleast; [exact Hyin|]. intros z Hz Hza.
    apply Hupper; [exact Hz|]. apply (Htrans z a b); auto.
  - destruct (up_interpretation_inf a Ha) as (x & Hx & Hxin & Hlower & _).
    destruct (up_interpretation_inf b Hb) as (y & Hy & Hyin & _ & Hgreatest).
    exists x, y. split; [exact Hx|]. split; [exact Hy|].
    destruct Hgreatest as [[HbL ->]|Hgreatest]; [now apply Hlower|].
    apply Hgreatest; [exact Hxin|]. intros z Hz Hbz.
    apply Hlower; [exact Hz|]. apply (Htrans a b z); auto.
Qed.
End interpretation.

(** C3, as stated, fails: nothing ties the order of a registered sublattice
    to the base order.  Over the base chain [0 ≤ 1], register the lattice on
    [{0, 1}] ordered the other way round: both elements are interpreted as
    themselves, and [0 ≤ 1] does not hold in the sublattice. *)
Lemma down_interpretation_monotone_counterexample :
  ¬ (∀ (nm : string) (E : gset string) (R : gset (string * string)) neg imp (L : Lattice)
       (n1 n2 n3 : string) (E' : gset string) (R' : gset (string * string))
       csl neg' imp' flt (ML : ManyLattice) (a b : string),
       Lattice_init nm E R neg imp = Ok L →
       ManyLattice_init n1 n2 n3 E' R' csl neg' imp' flt = Ok ML →
       L ∈ comp_sub_lat ML →
       a ∈ elements ML → b ∈ elements ML → is_less_than_or_equal ML a b = true →
       ∃ x y, down_interpretation ML L a = Ok x ∧ down_interpretation ML L b = Ok y
              ∧ is_less_than_or_equal L x y = true).
Proof.
  intros H.
  pose (E := ({["0"; "1"]} : gset string)).
  pose (Rrev := ({[("0", "0"); ("1", "0"); ("1", "1")]} : gset (string * string))).
  pose (Rbase := ({[("0", "0"); ("0", "1"); ("1", "1")]} : gset (string * string))).
  pose (L := mkLattice "rev" E Rrev ∅ ∅ (Some "1") (Some "0")).
  pose (base := mkLattice "base" E Rbase ∅ ∅ (Some "0") (Some "1")).
  pose (ML := mkManyLattice (mkFilteredLattice base "filtered" ∅) [L] "many").
  destruct (H "rev" E Rrev None None L "many" "filtered" "base" E Rbase [L]
              None None None ML "0" "1") as (x & y & Hx & Hy & Hxy).
  - vm_compute. reflexivity.
  - vm_compute. reflexivity.
  - cbn. set_solver.
  - cbn. set_solver.
  - cbn. set_solver.
  - vm_compute. reflexivity.
  - assert (Hx' : down_interpretation ML L "0" = Ok "0") by (vm_compute; reflexivity).
    assert (Hy' : down_interpretation ML L "1" = Ok "1") by (vm_compute; reflexivity).
    rewrite Hx' in Hx. rewrite Hy' in Hy. injection Hx as <-. injection Hy as <-.
    vm_compute in Hxy. discriminate.
Qed.

(** ** Registration of complete sublattices *)

Lemma ManyLattice_init_Ok n1 n2 n3 E R csl neg imp flt ML :
  ManyLattice_init n1 n2 n3 E R csl neg imp flt = Ok ML →
  comp_sub_lat ML = csl ∧ elements ML = E ∧ relations ML = R
  ∧ name_many_lattice ML = n1
  ∧ Lattice_init n3 E R neg imp = Ok (fl_lattice (ml_filtered ML)).
Proof.
  unfold ManyLattice_init, FilteredLattice_init.
  destruct (Lattice_init n3 E R neg imp) as [l|] eqn:Hl; cbn; [|discriminate].
  destruct (negb _); cbn; [discriminate|].
  intros [= <-]. cbn.
  destruct (Lattice_init_closed _ _ _ _ _ _ Hl) as (_ & HE & HR). auto.
Qed.

Lemma get_comp_sub_lattice_is_Some (self : ManyLattice) (nm : string) :
  is_Some (get_comp_sub_lattice self nm) ↔ nm ∈ (name <$> comp_sub_lat self).
Proof.
  unfold get_comp_sub_lattice. rewrite list_elem_of_fmap. split.
  - intros [l Hl]. apply find_some in Hl as [Hin Hnm].
    apply bool_decide_eq_true in Hnm. exists l. split; [done|].
    now apply list_elem_of_In.
  - intros (l & -> & Hin%list_elem_of_In).
    destruct (find _ _) as [l'|] eqn:Hf; [eauto|].
    apply find_none with (x := l) in Hf; [|exact Hin].
    apply bool_decide_eq_false in Hf. contradiction.
Qed.

(** C6, as the code has it.  The constructor keeps exactly the list of
    sublattices it is given, and [add_comp_sub_lat] rejects a lattice only
    when its name is already registered and appends it otherwise; neither
    looks at elements.  So every sublattice lies inside the base elements
    after construction exactly when that is true of the list supplied, and
    an accepted addition preserves this exactly when the added lattice lies
    inside the base elements. *)
Theorem sublattice_registration n1 n2 n3 E R csl neg imp flt ML (lattice : Lattice) :
  ManyLattice_init n1 n2 n3 E R csl neg imp flt = Ok ML →
  (comp_sub_lat ML = csl
   ∧ (sublattices_within ML ↔ ∀ l, l ∈ csl → elements l ⊆ E))
  ∧ (name lattice ∈ (name <$> comp_sub_lat ML) →
       add_comp_sub_lat ML lattice = (ML, Raise ValueError))
  ∧ (name lattice ∉ (name <$> comp_sub_lat ML) →
       ∃ ML', add_comp_sub_lat ML lattice = (ML', Ok tt)
              ∧ comp_sub_lat ML' = (comp_sub_lat ML ++ [lattice])%list
              ∧ ml_filtered ML' = ml_filtered ML
              ∧ (sublattices_within ML →
                   (sublattices_within ML' ↔ elements lattice ⊆ elements ML))).
Proof.
  intros (Hcsl & HE & _)%ManyLattice_init_Ok. split; [|split].
  - split; [exact Hcsl|]. unfold sublattices_within. now rewrite Hcsl, HE.
  - intros Hin. unfold add_comp_sub_lat.
    rewrite bool_decide_eq_true_2; [reflexivity|].
    now apply get_comp_sub_lattice_is_Some.
  - intros Hnin. unfold add_comp_sub_lat.
    rewrite bool_decide_eq_false_2 by now rewrite get_comp_sub_lattice_is_Some.
    eexists. split; [reflexivity|]. cbn. split; [reflexivity|]. split; [reflexivity|].
    intros Hinv. unfold sublattices_within. cbn. split.
    + intros H. apply H. set_solver.
    + intros Hsub l [Hl|Hl%list_elem_of_singleton]%elem_of_app; [now apply Hinv|now subst].
Qed.

(** C6, as stated, fails: a many-lattice over [{0, 1}] is built with, and
    then extended by, sublattices whose single element is not a base
    element. *)
Lemma sublattice_subset_counterexample :
  ¬ (∀ n1 n2 n3 E R csl neg imp flt ML,
       ManyLattice_init n1 n2 n3 E R csl neg imp flt = Ok ML →
       sublattices_within ML
       ∧ ∀ lattice, sublattices_within (add_comp_sub_lat ML lattice).1).
Proof.
  intros H.
  pose (E := ({["0"; "1"]} : gset string)).
  pose (R := ({[("0", "0"); ("0", "1"); ("1", "1")]} : gset (string * string)));
  pose (out := mkLattice "out" {["a"]} {[("a", "a")]} ∅ ∅ (Some "a") (Some "a")).
  pose (base := mkLattice "base" E R ∅ ∅ (Some "0") (Some "1")).
  pose (ML := mkManyLattice (mkFilteredLattice base "filtered" ∅) [out] "many").
  destruct (H "many" "filtered" "base" E R [out] None None None ML) as [Hinv _].
  - vm_compute. reflexivity.
  - specialize (Hinv out). cbn in Hinv.
    assert (Ha : "a" ∈ ({["0"; "1"]} : gset string)).
    { apply Hinv; [now apply list_elem_of_singleton|now apply elem_of_singleton]. }
    revert Ha. apply (bool_decide_eq_false_1 _). vm_compute. reflexivity.
Qed.

(** ** Worlds of a model *)

Lemma has_outgoing_iff (m : Model) (w : wref) :
  has_outgoing m w ↔ default ∅ (accessibility_relation m !! w) ≠ (∅ : gset wref).
Proof.
  unfold has_outgoing. split.
  - intros (ts & u & -> & Hu). cbn. intros ->. now apply not_elem_of_empty in Hu.
  - destruct (accessibility_relation m !! w) as [ts|]; cbn; [|done].
    intros [u Hu]%set_choose_L. eauto.
Qed.

Lemma has_incoming_iff (m : Model) (w : wref) :
  has_incoming m w ↔
  existsb (λ item : wref * gset wref, bool_decide (w ∈ item.2))
    (map_to_list (accessibility_relation m)) = true.
Proof.
  unfold has_incoming. rewrite existsb_exists. split.
  - intros (v & ts & Hv & Hw). exists (v, ts). split.
    + now apply list_elem_of_In, elem_of_map_to_list.
    + now apply bool_decide_eq_true.
  - intros ([v ts] & Hin%list_elem_of_In%elem_of_map_to_list & Hw%bool_decide_eq_true).
    eauto.
Qed.

(** C8: for a world [w] of the model, [delete_world(w)] raises exactly when
    [w] has an outgoing or an incoming edge, and then leaves the model as it
    was; otherwise it succeeds, and the model afterwards is the model before
    with [w] taken out of the worlds and its entry taken out of the
    accessibility relation, every other world and entry being as before. *)
Theorem delete_world_spec (m : Model) (w : wref) :
  w ∈ worlds m →
  ((∃ e, (delete_world m w).2 = Raise e) ↔ has_outgoing m w ∨ has_incoming m w)
  ∧ (has_outgoing m w ∨ has_incoming m w → delete_world m w = (m, Raise ValueError))
  ∧ (¬ (has_outgoing m w ∨ has_incoming m w) →
       ∃ m', delete_world m w = (m', Ok tt)
             ∧ worlds m' = worlds m ∖ {[w]}
             ∧ accessibility_relation m' = delete w (accessibility_relation m)
             ∧ (∀ v, v ≠ w → (v ∈ worlds m' ↔ v ∈ worlds m)
                  ∧ accessibility_relation m' !! v = accessibility_relation m !! v)
             ∧ name_model m' = name_model m ∧ many_lattice m' = many_lattice m
             ∧ initial_state m' = initial_state m
             ∧ props m' = props m ∧ actions m' = actions m).
Proof.
  intros Hw.
  assert (Hedges : has_outgoing m w ∨ has_incoming m w →
                   delete_world m w = (m, Raise ValueError)).
  { intros [Hout|Hin]; unfold delete_world.
    - rewrite bool_decide_eq_true_2 by now apply has_outgoing_iff. reflexivity.
    - case_bool_decide; [reflexivity|].
      apply has_incoming_iff in Hin. rewrite Hin. reflexivity. }
  assert (Hfree : ¬ (has_outgoing m w ∨ has_incoming m w) →
                  delete_world m w =
                  (mkModel (name_model m) (many_lattice m) (worlds m ∖ {[w]})
                     (initial_state m) (props m) (actions m)
                     (delete w (accessibility_relation m)), Ok tt)).
  { intros Hno. unfold delete_world.
    rewrite bool_decide_eq_false_2
      by (intros Hout%has_outgoing_iff; apply Hno; now left).
    destruct (existsb _ _) eqn:Hex.
    { exfalso. apply Hno. right. now apply has_incoming_iff. }
    rewrite (bool_decide_eq_true_2 _ Hw).
    case_bool_decide as Hsome; [reflexivity|].
    rewrite delete_id; [reflexivity|].
    now apply eq_None_not_Some. }
  split; [|split].
  - split.
    + intros [e He].
      destruct (decide (default ∅ (accessibility_relation m !! w) ≠ (∅ : gset wref)))
        as [Hout|Hout]; [left; now apply has_outgoing_iff|].
      destruct (existsb (λ item : wref * gset wref, bool_decide (w ∈ item.2))
                  (map_to_list (accessibility_relation m))) eqn:Hin;
        [right; now apply has_incoming_iff|].
      rewrite Hfree in He; [discriminate|].
      intros [H%has_outgoing_iff|H%has_incoming_iff]; [contradiction|congruence].
    + intros H. rewrite (Hedges H). eauto.
  - exact Hedges.
  - intros Hno. eexists. split; [exact (Hfree Hno)|]. cbn.
    split; [reflexivity|]. split; [reflexivity|]. split; [|auto 10].
    intros v Hv. split; [|now apply lookup_delete_ne].
    rewrite elem_of_difference, elem_of_singleton. tauto.
Qed.

Lemma get_world_is_Some (σ : store) (m : Model) (nm : string) :
  is_Some (get_world σ m nm) ↔ ∃ v, v ∈ worlds m ∧ name_short (σ v) = nm.
Proof.
  unfold get_world. split.
  - intros [v Hv]. apply find_some in Hv as [Hin%In_iter Hnm%bool_decide_eq_true]. eauto.
  - intros (v & Hin%In_iter & Hnm).
    destruct (find _ _) as [v'|] eqn:Hf; [eauto|].
    apply find_none with (x := v) in Hf; [|exact Hin].
    apply bool_decide_eq_false in Hf. contradiction.
Qed.

(** [add_world] does enforce the invariant: it accepts a world only when the
    name of its lattice is registered, and then keeps the invariant. *)
Lemma add_world_registered (σ : store) (m m' : Model) (w : wref) :
  add_world σ m w = (m', Ok tt) →
  name (lattice (σ w)) ∈ (name <$> comp_sub_lat (many_lattice m))
  ∧ (worlds_registered σ m → worlds_registered σ m').
Proof.
  unfold add_world. case_bool_decide; [discriminate|].
  case_bool_decide as Hreg; [discriminate|]. intros [= <-].
  split; [exact Hreg|].
  intros Hinv v. cbn. rewrite elem_of_union, elem_of_singleton.
  intros [->|Hv]; [exact Hreg|now apply Hinv].
Qed.

Lemma add_world_unregistered (σ : store) (m : Model) (w : wref) :
  ¬ (∃ v, v ∈ worlds m ∧ name_short (σ v) = name_short (σ w)) →
  name (lattice (σ w)) ∉ (name <$> comp_sub_lat (many_lattice m)) →
  add_world σ m w = (m, Raise Exception_).
Proof.
  intros Hfresh Hreg. unfold add_world.
  rewrite bool_decide_eq_false_2 by now rewrite get_world_is_Some.
  now rewrite bool_decide_eq_true_2.
Qed.

(** C7 at its failing input.  Over a many-lattice with no complete
    sublattice, [Model(...)] accepts a world set whose world has the lattice
    [bool]: the model is built, the world is in it, and its lattice is not
    registered.  Adding the same world to a model through [add_world] is
    refused with [Exception]. *)
Theorem Model_init_accepts_unregistered_world :
  ∃ m, Model_init "model" Examples.bare {[1%positive]} 1%positive None None None = Ok m
       ∧ 1%positive ∈ worlds m
       ∧ ¬ worlds_registered (λ _, Examples.blank) m
       ∧ add_world (λ _, Examples.blank) Examples.empty_model 1%positive
         = (Examples.empty_model, Raise Exception_).
Proof.
  eexists. split; [reflexivity|]. cbn. split; [now apply elem_of_singleton|]. split.
  - intros H. specialize (H 1%positive). cbn in H.
    apply (not_elem_of_nil (A := string) "bool"), H. now apply elem_of_singleton.
  - apply add_world_unregistered; cbn.
    + intros (v & Hv & _). now apply not_elem_of_empty in Hv.
    + apply not_elem_of_nil.
Qed.

(** ** Evaluation *)

(** C2: in any model, at a world [w] whose entry in the accessibility
    relation is the empty set and whose lattice was built successfully,
    [Box(A)] evaluates to the top of that lattice without raising, for every
    subformula [A], every interpretation argument and every assignment of
    the worlds (in particular when atoms of [A] are assigned nowhere). *)
Theorem Box_vacuous (σ : store) (model : Model) (interpretation : string)
    (A : ASTNode) (w : wref) nm E R neg imp :
  accessibility_relation model !! w = Some ∅ →
  Lattice_init nm E R neg imp = Ok (lattice (σ w)) →
  ∃ t, top (lattice (σ w)) = Some t
       ∧ evaluate σ model interpretation (Box A) w = Ok t.
Proof.
  intros Hacc (b & t & HL & _)%Lattice_init_Ok.
  exists t. cbn. unfold Box_evaluate. rewrite Hacc. cbn.
  rewrite bool_decide_eq_true_2 by reflexivity.
  rewrite HL. split; reflexivity.
Qed.

(** The two-branch tests on the interpretation argument only look at whether
    it is ["up"]. *)
Lemma interpret_same_mode (model : Model) (i j : string) target value :
  same_mode i j → interpret model i target value = interpret model j target value.
Proof. unfold same_mode, interpret. now intros ->. Qed.

Lemma for_each_ext {A B} (f g : B → A → result B) (l : list A) :
  (∀ acc x, f acc x = g acc x) → ∀ acc, for_each f acc l = for_each g acc l.
Proof.
  intros Hfg. induction l as [|x l IH]; intros acc; cbn; [reflexivity|].
  rewrite Hfg. destruct (g acc x); auto.
Qed.

Lemma evaluate_same_mode (σ : store) (model : Model) (i j : string) (node : ASTNode) :
  same_mode i j → ∀ w, evaluate σ model i node w = evaluate σ model j node w.
Proof.
  intros Hij.
  assert (Hnot : ∀ c1 c2 : evaluator, (∀ w, c1 w = c2 w) →
                 ∀ w, Not_evaluate σ model i c1 w = Not_evaluate σ model j c2 w).
  { intros c1 c2 Hc w. unfold Not_evaluate. rewrite Hc.
    destruct (c2 w); cbn; [|reflexivity].
    destruct (_ !! _); [|reflexivity]. now apply interpret_same_mode. }
  assert (Himp : ∀ l1 l2 r1 r2 : evaluator, (∀ w, l1 w = l2 w) → (∀ w, r1 w = r2 w) →
                 ∀ w, Implies_evaluate σ model i l1 r1 w
                      = Implies_evaluate σ model j l2 r2 w).
  { intros l1 l2 r1 r2 Hl Hr w. unfold Implies_evaluate. rewrite Hl, Hr.
    destruct (l2 w); cbn; [|reflexivity]. destruct (r2 w); cbn; [|reflexivity].
    destruct (_ !! _); [now apply interpret_same_mode|].
    destruct (_ !! _); [|reflexivity].
    now rewrite (interpret_same_mode model i j). }
  assert (Hand : ∀ l1 l2 r1 r2 : evaluator, (∀ w, l1 w = l2 w) → (∀ w, r1 w = r2 w) →
                 ∀ w, And_evaluate σ l1 r1 w = And_evaluate σ l2 r2 w).
  { intros l1 l2 r1 r2 Hl Hr w. unfold And_evaluate. now rewrite Hl, Hr. }
  assert (Hbox : ∀ c1 c2 : evaluator, (∀ w, c1 w = c2 w) →
                 ∀ w, Box_evaluate σ model i c1 w = Box_evaluate σ model j c2 w).
  { intros c1 c2 Hc w. unfold Box_evaluate. case_bool_decide; [reflexivity|].
    erewrite for_each_ext; [reflexivity|].
    intros acc u. cbn. rewrite Hc. destruct (c2 u); cbn; [|reflexivity].
    now rewrite (interpret_same_mode model i j). }
  induction node as [nm|c IH|l IHl r IHr|l IHl r IHr|l IHl r IHr|l IHl r IHr|c IH|c IH];
    intros w; cbn.
  - reflexivity.
  - now apply Hnot.
  - now apply Hand.
  - unfold Or_evaluate. now rewrite IHl, IHr.
  - now apply Himp.
  - unfold Iff_evaluate. apply Hand; intros w'; now apply Himp.
  - now apply Hbox.
  - unfold Diamond_evaluate. apply Hnot. intros w'. apply Hbox. intros w''.
    now apply Hnot.
Qed.

(** By construction, [Diamond(A)] evaluates as [Not(Box(Not(A)))] and
    [Iff(A, B)] as [And(Implies(A, B), Implies(B, A))]. *)
Lemma Diamond_evaluate_def σ model interpretation (A : ASTNode) :
  evaluate σ model interpretation (Diamond A)
  = evaluate σ model interpretation (Not (Box (Not A))).
Proof. reflexivity. Qed.

Lemma Iff_evaluate_def σ model interpretation (A B : ASTNode) :
  evaluate σ model interpretation (Iff A B)
  = evaluate σ model interpretation (And (Implies A B) (Implies B A)).
Proof. reflexivity. Qed.

(** C1: in the two-valued Boolean scenario, whatever the interpretation
    argument, the parsed formulas evaluate at the world as follows:
    [p & q] to [0], [p | q] to [1], [~p] to [0] and [p -> q] to [0].  The
    last one goes through the material fallback of [Implies.evaluate]: the
    implication table has no entry for [(1, 0)], so [p -> q] is evaluated
    as [~p | q] is, that is as the join of the interpreted base negation of
    [p = 1], which is [0], with [q = 0], and [join(0, 0) = 0] in the world's
    lattice.  The fallback is a law of the code, for every model: when both
    sides of an implication return and the base table has an entry for
    their values, the implication is the interpreted entry; when it has
    none, the implication evaluates as the disjunction of the negated
    antecedent with the consequent, namely to the join of the interpreted
    base negation of the antecedent with the consequent. *)
Theorem boolean_scenario (interpretation : string) :
  Boolean.run None interpretation "p & q" = Some (Ok "0")
  ∧ Boolean.run None interpretation "p | q" = Some (Ok "1")
  ∧ Boolean.run None interpretation "~p" = Some (Ok "0")
  ∧ Boolean.run None interpretation "p -> q" = Some (Ok "0")
  ∧ (∃ l ml wd m,
      Boolean.sub = Ok l ∧ Boolean.base None = Ok ml ∧ Boolean.world = Ok wd
      ∧ Boolean.model None = Ok m ∧ many_lattice m = ml
      ∧ lattice wd = l
      ∧ assignments wd !! "p" = Some "1" ∧ assignments wd !! "q" = Some "0"
      ∧ implication_map ml !! ("1", "0") = None
      ∧ negation_map ml !! "1" = Some "0"
      ∧ interpret m interpretation l "0" = Ok "0"
      ∧ join l "0" "0" = Ok "0"
      ∧ evaluate (λ _, wd) m interpretation (Implies (Atom "p") (Atom "q")) Boolean.w
        = evaluate (λ _, wd) m interpretation (Or (Not (Atom "p")) (Atom "q")) Boolean.w
      ∧ evaluate (λ _, wd) m interpretation (Implies (Atom "p") (Atom "q")) Boolean.w
        = (val_not_a ← interpret m interpretation l "0"; join l val_not_a "0"))
  ∧ ∀ (σ : store) (model : Model) (A B : ASTNode) (w : wref) (a b : string),
      evaluate σ model interpretation A w = Ok a →
      evaluate σ model interpretation B w = Ok b →
      match implication_map (many_lattice model) !! (a, b) with
      | Some base_result =>
          evaluate σ model interpretation (Implies A B) w
          = interpret model interpretation (lattice (σ w)) base_result
      | None =>
          evaluate σ model interpretation (Implies A B) w
          = evaluate σ model interpretation (Or (Not A) B) w
          ∧ evaluate σ model interpretation (Implies A B) w
            = match negation_map (many_lattice model) !! a with
              | Some neg_a_base =>
                  val_not_a ← interpret model interpretation (lattice (σ w)) neg_a_base;
                  join (lattice (σ w)) val_not_a b
              | None => Raise ValueError
              end
      end.
Proof.
  set (mode := if bool_decide (interpretation = "up") then "up" else "down").
  assert (Hmode : ∀ text, Boolean.run None interpretation text = Boolean.run None mode text).
  { intros text. unfold Boolean.run.
    destruct Boolean.world as [wd|]; [|reflexivity].
    destruct (Boolean.model None) as [m|]; [|reflexivity].
    destruct (parse text) as [[ast|]|]; try reflexivity.
    f_equal. apply evaluate_same_mode. unfold same_mode, mode.
    case_bool_decide; reflexivity. }
  rewrite !Hmode.
  repeat (split; [unfold mode; case_bool_decide; vm_compute; reflexivity|]).
  assert (Hlaw : ∀ (σ : store) (model : Model) (A B : ASTNode) (w : wref) (a b : string),
            evaluate σ model interpretation A w = Ok a →
            evaluate σ model interpretation B w = Ok b →
            match implication_map (many_lattice model) !! (a, b) with
            | Some base_result =>
                evaluate σ model interpretation (Implies A B) w
                = interpret model interpretation (lattice (σ w)) base_result
            | None =>
                evaluate σ model interpretation (Implies A B) w
                = evaluate σ model interpretation (Or (Not A) B) w
                ∧ evaluate σ model interpretation (Implies A B) w
                  = match negation_map (many_lattice model) !! a with
                    | Some neg_a_base =>
                        val_not_a ← interpret model interpretation (lattice (σ w))
                                      neg_a_base;
                        join (lattice (σ w)) val_not_a b
                    | None => Raise ValueError
                    end
            end).
  { intros σ model A B w a b Ha Hb. cbn [evaluate].
    unfold Implies_evaluate, Or_evaluate, Not_evaluate. rewrite Ha, Hb. cbn.
    destruct (implication_map (many_lattice model) !! (a, b)); [reflexivity|].
    destruct (negation_map (many_lattice model) !! a); auto. }
  split; [|exact Hlaw].
  eexists _, _, _, _.
  split; [vm_compute; reflexivity|]. split; [vm_compute; reflexivity|].
  split; [vm_compute; reflexivity|]. split; [vm_compute; reflexivity|].
  split; [reflexivity|]. split; [reflexivity|].
  split; [vm_compute; reflexivity|]. split; [vm_compute; reflexivity|].
  split; [vm_compute; reflexivity|]. split; [vm_compute; reflexivity|].
  assert (Hint : ∀ ml' l', interpret ml' interpretation l' "0" = interpret ml' mode l' "0").
  { intros ml' l'. apply interpret_same_mode. unfold same_mode, mode.
    case_bool_decide; reflexivity. }
  split; [rewrite Hint; unfold mode; case_bool_decide; vm_compute; reflexivity|].
  split; [vm_compute; reflexivity|].
  match goal with
  | |- evaluate ?s ?m _ ?f ?w = evaluate _ _ _ ?g _ ∧ _ =>
      destruct (Hlaw s m (Atom "p") (Atom "q") w "1" "0") as [Hor Hjoin];
        [vm_compute; reflexivity|vm_compute; reflexivity|]
  end.
  split; [exact Hor|]. rewrite Hjoin. reflexivity.
Qed.

(** ** Parsing *)

(** Skipping all white space at once, as the lexer does, or one character
    per turn gives the same next token. *)
Lemma get_next_token_skip_whitespace (text : string) :
  get_next_token (skip_whitespace text) = get_next_token text.
Proof.
  induction text as [|c rest IH]; [reflexivity|].
  cbn [skip_whitespace]. destruct (isspace c) eqn:Hc.
  - rewrite IH. cbn [get_next_token]. now rewrite Hc.
  - reflexivity.
Qed.

Lemma get_atom_length (s : string) v s' :
  get_atom s = (v, s') → (String.length s' ≤ String.length s)%nat.
Proof.
  revert v s'. induction s as [|c rest IH]; intros v s'; cbn.
  - intros [= <- <-]. cbn. lia.
  - destruct (isalnum c).
    + destruct (get_atom rest) as [r t] eqn:Hr. intros [= <- <-].
      specialize (IH _ _ eq_refl). lia.
    + intros [= <- <-]. cbn. lia.
Qed.

Ltac tok_size :=
  cbn [fst snd String.length];
  first [rewrite bool_decide_eq_true_2 by reflexivity
        |rewrite bool_decide_eq_false_2 by discriminate];
  lia.

Lemma get_next_token_length (s : string) tok s' :
  get_next_token s = Ok (tok, s') →
  (String.length s' + (if bool_decide (tok.1 = EOF) then 0 else 1) ≤ String.length s)%nat.
Proof.
  revert tok s'. induction s as [|c rest IH]; intros tok s'.
  - cbn. intros [= <- <-]. tok_size.
  - cbn [get_next_token]. destruct (isspace c).
    { intros H%IH. cbn [String.length]. lia. }
    destruct (isalnum c) eqn:Hal.
    { cbn [get_atom]. rewrite Hal. destruct (get_atom rest) as [r t] eqn:Hr.
      intros [= <- <-]. apply get_atom_length in Hr. tok_size. }
    repeat match goal with
    | |- context [if Ascii.eqb c ?x then _ else _] => destruct (Ascii.eqb c x)
    | |- context [match rest with _ => _ end] => destruct rest as [|? rest]
    | |- context [match ?a with Ascii _ _ _ _ _ _ _ _ => _ end] => destruct a as [[] [] [] [] [] [] [] []]
    | |- Ok _ = Ok _ → _ => intros [= <- <-]; tok_size
    | |- Raise _ = Ok _ → _ => discriminate
    end.
Qed.

Lemma eat_pending (self self' : FormulaParser) (tt : token_type) :
  eat self tt = Ok self' → tt ≠ EOF → (pending self' + 1 ≤ pending self)%nat.
Proof.
  unfold eat. case_bool_decide as Htok; [|discriminate].
  destruct (get_next_token (lexer self)) as [[tok lx]|] eqn:Hnext; cbn; [|discriminate].
  intros [= <-] Hne. apply get_next_token_length in Hnext.
  unfold pending. cbn [lexer current_token].
  rewrite (bool_decide_eq_false_2 ((current_token self).1 = EOF)) by congruence.
  lia.
Qed.

Ltac finish := cbn [finishes] in *; first [exact I | contradiction | lia].

(** Every method consumes what it parses, so the counts of [fuel_suffices]
    are enough. *)
Lemma fuel_suffices_all : ∀ n self, (pending self ≤ n)%nat → fuel_suffices n self.
Proof.
  induction n as [n IH] using lt_wf_ind. intros self Hn.
  assert (Hunary : ∀ fuel, (10 * n + 1 ≤ fuel)%nat →
                   finishes (unary fuel self) (pending self) true).
  { intros [|fuel] Hf; [lia|]. cbn [unary].
    destruct ((current_token self).1) eqn:Htok; try finish.
    - destruct (eat self ATOM) as [self1|] eqn:He; [|finish].
      apply eat_pending in He; [|discriminate]. finish.
    - destruct (eat self NOT) as [self1|] eqn:He; [|finish].
      apply eat_pending in He; [|discriminate].
      destruct (IH (n - 1)%nat ltac:(lia) self1 ltac:(lia)) as (Hu & _).
      specialize (Hu fuel ltac:(lia)).
      destruct (unary fuel self1) as [[[c self2]|]|]; finish.
    - destruct (eat self BOX) as [self1|] eqn:He; [|finish].
      apply eat_pending in He; [|discriminate].
      destruct (IH (n - 1)%nat ltac:(lia) self1 ltac:(lia)) as (Hu & _).
      specialize (Hu fuel ltac:(lia)).
      destruct (unary fuel self1) as [[[c self2]|]|]; finish.
    - destruct (eat self DIAMOND) as [self1|] eqn:He; [|finish].
      apply eat_pending in He; [|discriminate].
      destruct (IH (n - 1)%nat ltac:(lia) self1 ltac:(lia)) as (Hu & _).
      specialize (Hu fuel ltac:(lia)).
      destruct (unary fuel self1) as [[[c self2]|]|]; finish.
    - destruct (eat self LPAREN) as [self1|] eqn:He; [|finish].
      apply eat_pending in He; [|discriminate].
      destruct (IH (n - 1)%nat ltac:(lia) self1 ltac:(lia))
        as (_ & _ & _ & _ & _ & _ & _ & _ & Hi).
      specialize (Hi fuel ltac:(lia)).
      destruct (iff fuel self1) as [[[c self2]|]|]; [|finish|finish].
      cbn [finishes] in Hi.
      destruct (eat self2 RPAREN) as [self3|] eqn:He3; [|finish].
      apply eat_pending in He3; [|discriminate]. finish. }
  assert (Hand_loop : ∀ fuel node, (10 * n + 1 ≤ fuel)%nat →
                      finishes (and_loop fuel node self) (pending self) false).
  { intros [|fuel] node Hf; [lia|]. cbn [and_loop]. case_bool_decide; [|finish].
    destruct (eat self AND) as [self1|] eqn:He; [|finish].
    apply eat_pending in He; [|discriminate].
    destruct (IH (n - 1)%nat ltac:(lia) self1 ltac:(lia)) as (Hu & _ & _ & _ & _ & _ & _ & _ & _).
    specialize (Hu fuel ltac:(lia)).
    destruct (unary fuel self1) as [[[rhs self2]|]|]; [|finish|finish].
    cbn [finishes] in Hu.
    destruct (IH (n - 1)%nat ltac:(lia) self2 ltac:(lia)) as (_ & Hal & _ & _ & _ & _ & _ & _ & _).
    match goal with
    | |- finishes (and_loop fuel ?nd self2) _ _ =>
        specialize (Hal fuel nd ltac:(lia));
        destruct (and_loop fuel nd self2) as [[[? ?]|]|]; finish
    end. }
  assert (Hand : ∀ fuel, (10 * n + 2 ≤ fuel)%nat →
                 finishes (and_expr fuel self) (pending self) true).
  { intros [|fuel] Hf; [lia|]. cbn [and_expr].
    specialize (Hunary fuel ltac:(lia)).
    destruct (unary fuel self) as [[[node self1]|]|]; [|finish|finish].
    cbn [finishes] in Hunary.
    destruct (IH (n - 1)%nat ltac:(lia) self1 ltac:(lia)) as (_ & Hl & _).
    specialize (Hl fuel node ltac:(lia)).
    destruct (and_loop fuel node self1) as [[[? ?]|]|]; finish. }
  assert (Hor_loop : ∀ fuel node, (10 * n + 3 ≤ fuel)%nat →
                     finishes (or_loop fuel node self) (pending self) false).
  { intros [|fuel] node Hf; [lia|]. cbn [or_loop]. case_bool_decide; [|finish].
    destruct (eat self OR) as [self1|] eqn:He; [|finish].
    apply eat_pending in He; [|discriminate].
    destruct (IH (n - 1)%nat ltac:(lia) self1 ltac:(lia)) as (_ & _ & Hae & _ & _ & _ & _ & _ & _).
    specialize (Hae fuel ltac:(lia)).
    destruct (and_expr fuel self1) as [[[rhs self2]|]|]; [|finish|finish].
    cbn [finishes] in Hae.
    destruct (IH (n - 1)%nat ltac:(lia) self2 ltac:(lia)) as (_ & _ & _ & Hol & _ & _ & _ & _ & _).
    match goal with
    | |- finishes (or_loop fuel ?nd self2) _ _ =>
        specialize (Hol fuel nd ltac:(lia));
        destruct (or_loop fuel nd self2) as [[[? ?]|]|]; finish
    end. }
  assert (Hor : ∀ fuel, (10 * n + 4 ≤ fuel)%nat →
                finishes (or_expr fuel self) (pending self) true).
  { intros [|fuel] Hf; [lia|]. cbn [or_expr].
    specialize (Hand fuel ltac:(lia)).
    destruct (and_expr fuel self) as [[[node self1]|]|]; [|finish|finish].
    cbn [finishes] in Hand.
    destruct (IH (n - 1)%nat ltac:(lia) self1 ltac:(lia)) as (_ & _ & _ & Hl & _).
    specialize (Hl fuel node ltac:(lia)).
    destruct (or_loop fuel node self1) as [[[? ?]|]|]; finish. }
  assert (Himp_loop : ∀ fuel node, (10 * n + 5 ≤ fuel)%nat →
                      finishes (implies_loop fuel node self) (pending self) false).
  { intros [|fuel] node Hf; [lia|]. cbn [implies_loop]. case_bool_decide; [|finish].
    destruct (eat self IMPLIES) as [self1|] eqn:He; [|finish].
    apply eat_pending in He; [|discriminate].
    destruct (IH (n - 1)%nat ltac:(lia) self1 ltac:(lia)) as (_ & _ & _ & _ & Hoe & _ & _ & _ & _).
    specialize (Hoe fuel ltac:(lia)).
    destruct (or_expr fuel self1) as [[[rhs self2]|]|]; [|finish|finish].
    cbn [finishes] in Hoe.
    destruct (IH (n - 1)%nat ltac:(lia) self2 ltac:(lia)) as (_ & _ & _ & _ & _ & Hil & _ & _ & _).
    match goal with
    | |- finishes (implies_loop fuel ?nd self2) _ _ =>
        specialize (Hil fuel nd ltac:(lia));
        destruct (implies_loop fuel nd self2) as [[[? ?]|]|]; finish
    end. }
  assert (Himp : ∀ fuel, (10 * n + 6 ≤ fuel)%nat →
                 finishes (implies fuel self) (pending self) true).
  { intros [|fuel] Hf; [lia|]. cbn [implies].
    specialize (Hor fuel ltac:(lia)).
    destruct (or_expr fuel self) as [[[node self1]|]|]; [|finish|finish].
    cbn [finishes] in Hor.
    destruct (IH (n - 1)%nat ltac:(lia) self1 ltac:(lia))
      as (_ & _ & _ & _ & _ & Hl & _).
    specialize (Hl fuel node ltac:(lia)).
    destruct (implies_loop fuel node self1) as [[[? ?]|]|]; finish. }
  assert (Hiff_loop : ∀ fuel node, (10 * n + 7 ≤ fuel)%nat →
                      finishes (iff_loop fuel node self) (pending self) false).
  { intros [|fuel] node Hf; [lia|]. cbn [iff_loop]. case_bool_decide; [|finish].
    destruct (eat self IFF) as [self1|] eqn:He; [|finish].
    apply eat_pending in He; [|discriminate].
    destruct (IH (n - 1)%nat ltac:(lia) self1 ltac:(lia)) as (_ & _ & _ & _ & _ & _ & Hie & _ & _).
    specialize (Hie fuel ltac:(lia)).
    destruct (implies fuel self1) as [[[rhs self2]|]|]; [|finish|finish].
    cbn [finishes] in Hie.
    destruct (IH (n - 1)%nat ltac:(lia) self2 ltac:(lia)) as (_ & _ & _ & _ & _ & _ & _ & Hfl & _).
    match goal with
    | |- finishes (iff_loop fuel ?nd self2) _ _ =>
        specialize (Hfl fuel nd ltac:(lia));
        destruct (iff_loop fuel nd self2) as [[[? ?]|]|]; finish
    end. }
  assert (Hiff : ∀ fuel, (10 * n + 8 ≤ fuel)%nat →
                 finishes (iff fuel self) (pending self) true).
  { intros [|fuel] Hf; [lia|]. cbn [iff].
    specialize (Himp fuel ltac:(lia)).
    destruct (implies fuel self) as [[[node self1]|]|]; [|finish|finish].
    cbn [finishes] in Himp.
    destruct (IH (n - 1)%nat ltac:(lia) self1 ltac:(lia))
      as (_ & _ & _ & _ & _ & _ & _ & Hl & _).
    specialize (Hl fuel node ltac:(lia)).
    destruct (iff_loop fuel node self1) as [[[? ?]|]|]; finish. }
  repeat split; assumption.
Qed.

(** The count [parse_fuel] is enough for every text: [parse] always gives
    the outcome of the Python call. *)
Theorem parse_total (text : string) : ∃ r, parse text = Some r.
Proof.
  unfold parse, FormulaParser_init, Lexer_init.
  destruct (get_next_token text) as [[tok lx]|] eqn:Hnext; cbn; [|eauto].
  apply get_next_token_length in Hnext.
  destruct (fuel_suffices_all (String.length text) (mkFormulaParser lx tok))
    as (_ & _ & _ & _ & _ & _ & _ & _ & Hi).
  { unfold pending. cbn. lia. }
  specialize (Hi (parse_fuel text)). unfold parse_fuel in *.
  destruct (iff _ _) as [[[ast self]|]|].
  - clear Hnext Hi. case_bool_decide; eexists; reflexivity.
  - eexists; reflexivity.
  - exfalso. apply Hi. lia.
Qed.

(** C9: [(p & q)] parses to [And(Atom p, Atom q)], [[]p] to [Box(Atom p)],
    and parsing [p &] ends in the parser's exception (a [ValueError], no
    tree is returned). *)
Theorem parse_examples :
  parse "(p & q)" = Some (Ok (And (Atom "p") (Atom "q")))
  ∧ parse "[]p" = Some (Ok (Box (Atom "p")))
  ∧ parse "p &" = Some (Raise ValueError).
Proof. vm_compute. auto. Qed.

(** ** The executable order checks are sound *)

Lemma reflexive_onb_sound (L : Lattice) : reflexive_onb L = true → reflexive_on L.
Proof. intros H%bool_decide_eq_true. exact H. Qed.

Lemma antisymmetric_onb_sound (L : Lattice) :
  antisymmetric_onb L = true → antisymmetric_on L.
Proof. intros H%bool_decide_eq_true x y Hx Hy. exact (H x Hx y Hy). Qed.

Lemma transitive_onb_sound (L : Lattice) : transitive_onb L = true → transitive_on L.
Proof. intros H%bool_decide_eq_true x y z Hx Hy Hz. exact (H x Hx y Hy z Hz). Qed.

Lemma order_restrictedb_sound (ML : ManyLattice) (L : Lattice) :
  order_restrictedb ML L = true → order_restricted ML L.
Proof.
  intros [Hs%bool_decide_eq_true H%bool_decide_eq_true]%andb_true_iff.
  split; [exact Hs|]. intros x y Hx Hy. exact (H x Hx y Hy).
Qed.

(** ** The theorems at concrete inputs *)

(** The fallback law of C1 at a pair of values where the fallback differs
    from the consequent: in the Boolean world, [q -> q] is [join(1, 0) = 1]
    while [q] is [0]. *)
Lemma boolean_scenario_witness :
  evaluate (λ _, Samples.valued) Samples.loop "down" (Atom "q") 1%positive = Ok "0"
  ∧ implication_map (many_lattice Samples.loop) !! ("0", "0") = None
  ∧ evaluate (λ _, Samples.valued) Samples.loop "down"
      (Implies (Atom "q") (Atom "q")) 1%positive
    = evaluate (λ _, Samples.valued) Samples.loop "down"
        (Or (Not (Atom "q")) (Atom "q")) 1%positive
  ∧ evaluate (λ _, Samples.valued) Samples.loop "down"
      (Implies (Atom "q") (Atom "q")) 1%positive = Ok "1".
Proof.
  assert (Hq : evaluate (λ _, Samples.valued) Samples.loop "down" (Atom "q") 1%positive
               = Ok "0") by (vm_compute; reflexivity).
  assert (Hnone : implication_map (many_lattice Samples.loop) !! ("0", "0") = None)
    by (vm_compute; reflexivity).
  destruct (boolean_scenario "down") as (_ & _ & _ & _ & _ & Hlaw).
  specialize (Hlaw (λ _, Samples.valued) Samples.loop (Atom "q") (Atom "q") 1%positive
                "0" "0" Hq Hq).
  rewrite Hnone in Hlaw. destruct Hlaw as [Hor Hjoin].
  split; [exact Hq|]. split; [exact Hnone|]. split; [exact Hor|].
  rewrite Hjoin. vm_compute. reflexivity.
Defined.

Lemma meet_set_join_set_empty_witness :
  Lattice_init "ends" Boolean.elems Boolean.rels None None = Ok Examples.ends
  ∧ ∃ t b,
      top Examples.ends = Some t ∧ bottom Examples.ends = Some b
      ∧ meet_set Examples.ends (Some ∅) = Ok t ∧ join_set Examples.ends (Some ∅) = Ok b
      ∧ meet_set Examples.ends None = Ok t ∧ join_set Examples.ends None = Ok b.
Proof.
  assert (Hinit : Lattice_init "ends" Boolean.elems Boolean.rels None None
                  = Ok Examples.ends) by (vm_compute; reflexivity).
  split; [exact Hinit|].
  exact (meet_set_join_set_empty _ _ _ _ _ _ Hinit).
Defined.

Lemma meet_join_laws_witness :
  Lattice_init "ends" Boolean.elems Boolean.rels None None = Ok Examples.ends
  ∧ "0" ∈ elements Examples.ends ∧ "1" ∈ elements Examples.ends
  ∧ antisymmetric_on Examples.ends
  ∧ is_less_than_or_equal Examples.ends "0" "0" = true
  ∧ meet Examples.ends "0" "1" = meet Examples.ends "1" "0"
  ∧ join Examples.ends "0" "1" = join Examples.ends "1" "0"
  ∧ (∀ scan, scan ≡ₚ upper_bounds Examples.ends "0" "1" →
       scan_least Examples.ends scan = join Examples.ends "0" "1")
  ∧ meet Examples.ends "0" "0" = Ok "0" ∧ join Examples.ends "0" "0" = Ok "0".
Proof.
  assert (Hinit : Lattice_init "ends" Boolean.elems Boolean.rels None None
                  = Ok Examples.ends) by (vm_compute; reflexivity).
  assert (H0 : "0" ∈ elements Examples.ends)
    by (apply (bool_decide_unpack _); vm_compute; exact I).
  assert (H1 : "1" ∈ elements Examples.ends)
    by (apply (bool_decide_unpack _); vm_compute; exact I).
  assert (Hanti : antisymmetric_on Examples.ends)
    by (apply antisymmetric_onb_sound; vm_compute; reflexivity).
  assert (Hrefl : is_less_than_or_equal Examples.ends "0" "0" = true)
    by (vm_compute; reflexivity).
  destruct (meet_join_laws _ _ _ _ _ _ "0" "1" Hinit H0 H1) as (_ & Hmc & Hjc & Hrest).
  destruct (Hrest Hanti) as (_ & Hscan & Hidem).
  destruct (Hidem Hrefl) as [Hm Hj].
  repeat (split; [assumption|]). assumption.
Defined.

Lemma interpretation_monotone_witness :
  Lattice_init "ends" Boolean.elems Boolean.rels None None = Ok Examples.ends
  ∧ name Examples.ends ∈ (name <$> comp_sub_lat Examples.chain)
  ∧ order_restricted Examples.chain Examples.ends
  ∧ transitive_on Examples.chain
  ∧ "h" ∈ elements Examples.chain ∧ "1" ∈ elements Examples.chain
  ∧ is_less_than_or_equal Examples.chain "h" "1" = true
  ∧ (∃ x y, down_interpretation Examples.chain Examples.ends "h" = Ok x
            ∧ down_interpretation Examples.chain Examples.ends "1" = Ok y
            ∧ is_less_than_or_equal Examples.ends x y = true)
  ∧ (∃ x y, up_interpretation Examples.chain Examples.ends "h" = Ok x
            ∧ up_interpretation Examples.chain Examples.ends "1" = Ok y
            ∧ is_less_than_or_equal Examples.ends x y = true).
Proof.
  assert (Hinit : Lattice_init "ends" Boolean.elems Boolean.rels None None
                  = Ok Examples.ends) by (vm_compute; reflexivity).
  assert (Hreg : name Examples.ends ∈ (name <$> comp_sub_lat Examples.chain))
    by (cbn; now apply list_elem_of_singleton).
  assert (Hres : order_restricted Examples.chain Examples.ends)
    by (apply order_restrictedb_sound; vm_compute; reflexivity).
  assert (Htrans : transitive_on Examples.chain)
    by (apply transitive_onb_sound; vm_compute; reflexivity).
  assert (Hh : "h" ∈ elements Examples.chain)
    by (apply (bool_decide_unpack _); vm_compute; exact I).
  assert (H1 : "1" ∈ elements Examples.chain)
    by (apply (bool_decide_unpack _); vm_compute; exact I).
  assert (Hle : is_less_than_or_equal Examples.chain "h" "1" = true)
    by (vm_compute; reflexivity).
  repeat (split; [assumption|]).
  exact (interpretation_monotone Examples.chain Examples.ends _ _ _ _ _
           Hinit Hreg Hres Htrans "h" "1" Hh H1 Hle).
Defined.

Lemma sublattice_registration_witness :
  ManyLattice_init "many" "filtered" "chain" Examples.chain_elems Examples.chain_rels
    [Examples.ends] None None None = Ok Examples.chain
  ∧ (name (lattice Examples.blank) ∉ (name <$> comp_sub_lat Examples.chain))
  ∧ sublattices_within Examples.chain
  ∧ ∃ ML', add_comp_sub_lat Examples.chain (lattice Examples.blank) = (ML', Ok tt)
           ∧ comp_sub_lat ML' = [Examples.ends; lattice Examples.blank]
           ∧ sublattices_within ML'.
Proof.
  assert (Hinit : ManyLattice_init "many" "filtered" "chain" Examples.chain_elems
                    Examples.chain_rels [Examples.ends] None None None
                  = Ok Examples.chain) by (vm_compute; reflexivity).
  assert (Hnew : name (lattice Examples.blank) ∉ (name <$> comp_sub_lat Examples.chain)).
  { cbn. intros H%list_elem_of_singleton. discriminate. }
  assert (Hsub : Boolean.elems ⊆ Examples.chain_elems)
    by (apply (bool_decide_unpack _); vm_compute; exact I).
  destruct (sublattice_registration _ _ _ _ _ _ _ _ _ _ (lattice Examples.blank) Hinit)
    as ((_ & Hiff) & _ & Hadd).
  assert (Hinv : sublattices_within Examples.chain).
  { apply Hiff. intros l ->%list_elem_of_singleton. exact Hsub. }
  destruct (Hadd Hnew) as (ML' & Heq & Hcsl & _ & Hkeep).
  split; [exact Hinit|]. split; [exact Hnew|]. split; [exact Hinv|].
  exists ML'. split; [exact Heq|]. split; [exact Hcsl|].
  apply (Hkeep Hinv). exact Hsub.
Defined.

Lemma delete_world_spec_witness :
  3%positive ∈ worlds Examples.line
  ∧ ¬ (has_outgoing Examples.line 3%positive ∨ has_incoming Examples.line 3%positive)
  ∧ has_outgoing Examples.line 1%positive
  ∧ delete_world Examples.line 1%positive = (Examples.line, Raise ValueError)
  ∧ ∃ m', delete_world Examples.line 3%positive = (m', Ok tt)
          ∧ worlds m' = worlds Examples.line ∖ {[3%positive]}
          ∧ (accessibility_relation m'
             = delete 3%positive (accessibility_relation Examples.line)).
Proof.
  assert (H3 : 3%positive ∈ worlds Examples.line)
    by (apply (bool_decide_unpack _); vm_compute; exact I).
  assert (H1 : 1%positive ∈ worlds Examples.line)
    by (apply (bool_decide_unpack _); vm_compute; exact I).
  assert (Hfree : ¬ (has_outgoing Examples.line 3%positive
                     ∨ has_incoming Examples.line 3%positive)).
  { intros [H%has_outgoing_iff|H%has_incoming_iff].
    - apply H. vm_compute. reflexivity.
    - vm_compute in H. discriminate. }
  assert (Hout : has_outgoing Examples.line 1%positive).
  { apply has_outgoing_iff. apply (bool_decide_unpack _). vm_compute. exact I. }
  destruct (delete_world_spec Examples.line 3%positive H3) as (_ & _ & Hdel).
  destruct (delete_world_spec Examples.line 1%positive H1) as (_ & Hkeep & _).
  destruct (Hdel Hfree) as (m' & Heq & Hw & Hacc & _).
  split; [exact H3|]. split; [exact Hfree|]. split; [exact Hout|].
  split; [apply Hkeep; now left|].
  exists m'. auto.
Defined.

Lemma Box_vacuous_witness :
  accessibility_relation Examples.line !! 3%positive = Some ∅
  ∧ Lattice_init "bool" Boolean.elems Boolean.rels (Some Boolean.neg) (Some ∅)
    = Ok (lattice Examples.blank)
  ∧ assignments Examples.blank !! "p" = None
  ∧ ∃ t, top (lattice Examples.blank) = Some t
         ∧ evaluate (λ _, Examples.blank) Examples.line "down" (Box (Atom "p")) 3%positive
           = Ok t.
Proof.
  assert (Hacc : accessibility_relation Examples.line !! 3%positive = Some ∅)
    by (vm_compute; reflexivity).
  assert (Hinit : Lattice_init "bool" Boolean.elems Boolean.rels (Some Boolean.neg) (Some ∅)
                  = Ok (lattice Examples.blank)) by (vm_compute; reflexivity).
  split; [exact Hacc|]. split; [exact Hinit|]. split; [reflexivity|].
  exact (Box_vacuous (λ _, Examples.blank) Examples.line "down" (Atom "p") 3%positive
           _ _ _ _ _ Hacc Hinit).
Defined.

(** * Further properties *)

(** ** Meet and join as bounds *)

Lemma join_returns_iff (L : Lattice) (a b : string) :
  (∃ j, join L a b = Ok j) ↔ a ∈ elements L ∧ b ∈ elements L ∧ ∃ j, is_lub L a b j.
Proof.
  split.
  - intros [j (Ha & Hb & Hj)%join_Ok]. eauto.
  - intros (Ha & Hb & j & Hj & Haj & Hbj & Hleast).
    rewrite join_unfold by assumption.
    apply (scan_least_total L _ j).
    + apply In_upper_bounds. auto.
    + intros y (Hy & Hay & Hby)%In_upper_bounds. auto.
Qed.

Lemma meet_returns_iff (L : Lattice) (a b : string) :
  (∃ m, meet L a b = Ok m) ↔ a ∈ elements L ∧ b ∈ elements L ∧ ∃ m, is_glb L a b m.
Proof.
  split.
  - intros [m (Ha & Hb & Hm)%meet_Ok]. eauto.
  - intros (Ha & Hb & m & Hm & Hma & Hmb & Hgreatest).
    rewrite meet_unfold by assumption.
    apply (scan_greatest_total L _ m).
    + apply In_lower_bounds. auto.
    + intros y (Hy & Hya & Hyb)%In_lower_bounds. auto.
Qed.

(** [join] returns exactly when both arguments are elements and a least
    upper bound exists; what it returns is one, and its only exception is
    [ValueError].  Dually for [meet]. *)
Theorem join_meet_outcome (L : Lattice) (a b : string) :
  ((∃ j, join L a b = Ok j) ↔
     a ∈ elements L ∧ b ∈ elements L ∧ ∃ j, is_lub L a b j)
  ∧ (∀ j, join L a b = Ok j → is_lub L a b j)
  ∧ ((∃ m, meet L a b = Ok m) ↔
       a ∈ elements L ∧ b ∈ elements L ∧ ∃ m, is_glb L a b m)
  ∧ (∀ m, meet L a b = Ok m → is_glb L a b m)
  ∧ (∀ e, join L a b = Raise e ∨ meet L a b = Raise e → e = ValueError).
Proof.
  split; [|split; [|split; [|split]]].
  - apply join_returns_iff.
  - intros j Hj%join_Ok. tauto.
  - apply meet_returns_iff.
  - intros m Hm%meet_Ok. tauto.
  - intros e [H|H]; [now apply join_Raise in H|now apply meet_Raise in H].
Qed.

(** The loops of [meet_set] and [join_set] stay inside the elements of a
    closed structure and never raise there. *)
Lemma for_each_join_closed (L : Lattice) (l : list string) : closed L → ∀ acc : string,
  acc ∈ elements L → (∀ x, In x l → x ∈ elements L) →
  ∃ j, for_each (λ greatest element, join L greatest element) acc l = Ok j
       ∧ j ∈ elements L.
Proof.
  intros Hc. induction l as [|e l IH]; intros acc Hacc Hl; cbn.
  - eauto.
  - destruct (closed_join L Hc acc e Hacc (Hl e (or_introl eq_refl)))
      as (acc' & -> & Hacc' & _).
    apply IH; [exact Hacc'|]. intros x Hx. apply Hl. now right.
Qed.

Lemma for_each_meet_closed (L : Lattice) (l : list string) : closed L → ∀ acc : string,
  acc ∈ elements L → (∀ x, In x l → x ∈ elements L) →
  ∃ m, for_each (λ lower element, meet L lower element) acc l = Ok m
       ∧ m ∈ elements L.
Proof.
  intros Hc. induction l as [|e l IH]; intros acc Hacc Hl; cbn.
  - eauto.
  - destruct (closed_meet L Hc acc e Hacc (Hl e (or_introl eq_refl)))
      as (acc' & -> & Hacc' & _).
    apply IH; [exact Hacc'|]. intros x Hx. apply Hl. now right.
Qed.

Lemma join_set_closed (L : Lattice) (S : gset string) :
  closed L → S ⊆ elements L → S ≠ ∅ →
  ∃ j, join_set L (Some S) = Ok j ∧ j ∈ elements L.
Proof.
  intros Hc Hsub Hne. unfold join_set. cbn.
  destruct (iter S) as [|g l] eqn:Hiter.
  { exfalso. apply Hne. apply elements_empty_inv in Hiter. now apply leibniz_equiv. }
  assert (Hin : ∀ x, In x (g :: l) → x ∈ elements L).
  { intros x Hx. apply Hsub, In_iter. now rewrite Hiter. }
  apply for_each_join_closed; auto. apply Hin. now left.
Qed.

Lemma meet_set_closed (L : Lattice) (S : gset string) :
  closed L → S ⊆ elements L → S ≠ ∅ →
  ∃ m, meet_set L (Some S) = Ok m ∧ m ∈ elements L.
Proof.
  intros Hc Hsub Hne. unfold meet_set. cbn.
  destruct (iter S) as [|g l] eqn:Hiter.
  { exfalso. apply Hne. apply elements_empty_inv in Hiter. now apply leibniz_equiv. }
  assert (Hin : ∀ x, In x (g :: l) → x ∈ elements L).
  { intros x Hx. apply Hsub, In_iter. now rewrite Hiter. }
  apply for_each_meet_closed; auto. apply Hin. now left.
Qed.

Lemma for_each_unit_outcome {A} (f : A → result unit) (l : list A) :
  (∀ x, f x = Ok tt ∨ f x = Raise ValueError) →
  for_each (λ _ x, f x) tt l = Ok tt ∨ for_each (λ _ x, f x) tt l = Raise ValueError.
Proof.
  intros Hf. induction l as [|x l IH]; cbn; [now left|].
  destruct (Hf x) as [->| ->]; [exact IH|now right].
Qed.

(** Any exception inside the closure check is a [ValueError]. *)
Lemma check_pairs_outcome (L : Lattice) :
  check_pairs L = Ok tt ∨ check_pairs L = Raise ValueError.
Proof.
  unfold check_pairs. apply for_each_unit_outcome. intros x.
  apply for_each_unit_outcome. intros y.
  destruct (meet L x y) as [m|e] eqn:Hm; cbn.
  - destruct (join L x y) as [j|e] eqn:Hj; cbn; [now left|].
    apply join_Raise in Hj as ->. now right.
  - apply meet_Raise in Hm as ->. now right.
Qed.

Lemma closed_has_bounds (L : Lattice) :
  closed L ↔ has_bounds (elements L) (relations L).
Proof.
  rewrite closed_iff. unfold has_bounds. split.
  - intros H x y Hx Hy. destruct (H x y Hx Hy) as [[m Hm] [j Hj]].
    apply meet_Ok in Hm as (_ & _ & Hm). apply join_Ok in Hj as (_ & _ & Hj). eauto.
  - intros H x y Hx Hy. destruct (H x y Hx Hy) as [[m Hm] [j Hj]]. split.
    + apply (meet_returns_iff L x y). eauto.
    + apply (join_returns_iff L x y). eauto.
Qed.

Lemma Lattice_init_closed_Ok (nm : string) (E : gset string) (R : gset (string * string))
    neg imp :
  E ≠ ∅ → closed (mkLattice nm E R (default ∅ neg) (default ∅ imp) None None) →
  ∃ b t, Lattice_init nm E R neg imp
         = Ok (mkLattice nm E R (default ∅ neg) (default ∅ imp) (Some b) (Some t))
         ∧ b ∈ E ∧ t ∈ E.
Proof.
  intros HE Hc.
  set (pre := mkLattice nm E R (default ∅ neg) (default ∅ imp) None None) in *.
  destruct (meet_set_closed pre E Hc) as (b & Hb & Hbin); [done|done|].
  set (mid := mkLattice nm E R (default ∅ neg) (default ∅ imp) (Some b) None).
  destruct (join_set_closed mid E Hc) as (t & Ht & Htin); [done|done|].
  exists b, t. split; [|split; assumption].
  unfold Lattice_init, _check_is_lattice. fold pre. rewrite Hc. cbn.
  rewrite Hb. cbn. fold mid. rewrite Ht. reflexivity.
Qed.

(** For a non-empty element set, [Lattice(...)] succeeds exactly when every
    pair of elements has a greatest lower and a least upper bound, and fails
    with [ValueError] otherwise.  The object built carries the arguments
    (an omitted map is empty), and its [bottom] and [top] are elements. *)
Theorem Lattice_init_outcome (nm : string) (E : gset string) (R : gset (string * string)) neg imp :
  E ≠ ∅ →
  (has_bounds E R →
     ∃ b t, Lattice_init nm E R neg imp
            = Ok (mkLattice nm E R (default ∅ neg) (default ∅ imp) (Some b) (Some t))
            ∧ b ∈ E ∧ t ∈ E)
  ∧ (¬ has_bounds E R → Lattice_init nm E R neg imp = Raise ValueError).
Proof.
  intros HE.
  set (pre := mkLattice nm E R (default ∅ neg) (default ∅ imp) None None).
  assert (Hiff : closed pre ↔ has_bounds E R) by apply (closed_has_bounds pre).
  split.
  - intros Hc%Hiff. now apply Lattice_init_closed_Ok.
  - intros Hn. unfold Lattice_init, _check_is_lattice. fold pre.
    destruct (check_pairs_outcome pre) as [Hc|Hc].
    + exfalso. apply Hn, Hiff, Hc.
    + rewrite Hc. reflexivity.
Qed.

(** In a lattice that was built successfully and whose relation is
    transitive on the elements, [bottom] is the meet and [top] the join of
    all elements, [bottom] lies below and [top] above every element. *)
Theorem bottom_top_extrema nm E R neg imp L :
  Lattice_init nm E R neg imp = Ok L → transitive_on L →
  ∃ b t, bottom L = Some b ∧ top L = Some t
         ∧ meet_set L (Some (elements L)) = Ok b
         ∧ join_set L (Some (elements L)) = Ok t
         ∧ ∀ x, x ∈ elements L →
             is_less_than_or_equal L b x = true ∧ is_less_than_or_equal L x t = true.
Proof.
  intros Hinit Htr.
  destruct (Lattice_init_extrema _ _ _ _ _ _ Hinit Htr)
    as (b & t & Hb & Ht & _ & _ & Hext).
  exists b, t. split; [exact Hb|]. split; [exact Ht|].
  destruct (Lattice_init_Ok _ _ _ _ _ _ Hinit) as (b' & t' & -> & _ & Hmb & Hjt).
  cbn in Hb, Ht. injection Hb as ->. injection Ht as ->.
  split; [|split; [|exact Hext]].
  - revert Hmb. unfold meet_set. cbn. destruct (iter E); [discriminate|].
    intros <-. reflexivity.
  - revert Hmb Hjt. unfold meet_set, join_set. cbn. destruct (iter E); [discriminate|].
    intros _ <-. reflexivity.
Qed.

(** ** The lattice laws of a partial order *)

Section laws.
Variable L : Lattice.
Hypothesis Hclosed : closed L.
Hypothesis Hrefl : reflexive_on L.
Hypothesis Hanti : antisymmetric_on L.
Hypothesis Htrans : transitive_on L.

Local Abbreviation leq := (is_less_than_or_equal L).

Lemma leq_join_iff (a b : string) :
  a ∈ elements L → b ∈ elements L → leq a b = true ↔ join L a b = Ok b.
Proof.
  intros Ha Hb. split.
  - intros Hab. destruct (closed_join L Hclosed a b Ha Hb)
      as (j & -> & Hj & Haj & Hbj & Hleast).
    f_equal. apply Hanti; auto.
  - intros (_ & _ & _ & Hab & _)%join_Ok. exact Hab.
Qed.

Lemma leq_meet_iff (a b : string) :
  a ∈ elements L → b ∈ elements L → leq a b = true ↔ meet L a b = Ok a.
Proof.
  intros Ha Hb. split.
  - intros Hab. destruct (closed_meet L Hclosed a b Ha Hb)
      as (m & -> & Hm & Hma & Hmb & Hgreatest).
    f_equal. apply Hanti; auto.
  - intros (_ & _ & _ & _ & Hab & _)%meet_Ok. exact Hab.
Qed.

(** The order is recovered from either operation: [a ≤ b] holds exactly
    when [join(a, b)] is [b], and exactly when [meet(a, b)] is [a]. *)
Theorem order_from_join_meet (a b : string) :
  a ∈ elements L → b ∈ elements L →
  (leq a b = true ↔ join L a b = Ok b) ∧ (leq a b = true ↔ meet L a b = Ok a).
Proof. intros Ha Hb. split; [now apply leq_join_iff|now apply leq_meet_iff]. Qed.

(** Absorption: [meet(a, join(a, b)) = a] and [join(a, meet(a, b)) = a]. *)
Theorem absorption (a b : string) :
  a ∈ elements L → b ∈ elements L →
  (∃ j, join L a b = Ok j ∧ meet L a j = Ok a)
  ∧ (∃ m, meet L a b = Ok m ∧ join L a m = Ok a).
Proof.
  intros Ha Hb. split.
  - destruct (closed_join L Hclosed a b Ha Hb) as (j & Hj & Hjin & Haj & _).
    exists j. split; [exact Hj|]. now apply leq_meet_iff.
  - destruct (closed_meet L Hclosed a b Ha Hb) as (m & Hm & Hmin & Hma & _).
    exists m. split; [exact Hm|]. rewrite join_comm. now apply leq_join_iff.
Qed.

(** Associativity of [join] and of [meet]. *)
Theorem join_meet_assoc (a b c : string) :
  a ∈ elements L → b ∈ elements L → c ∈ elements L →
  (∃ ab bc r, join L a b = Ok ab ∧ join L b c = Ok bc
              ∧ join L ab c = Ok r ∧ join L a bc = Ok r)
  ∧ (∃ ab bc r, meet L a b = Ok ab ∧ meet L b c = Ok bc
                ∧ meet L ab c = Ok r ∧ meet L a bc = Ok r).
Proof.
  intros Ha Hb Hc. split.
  - destruct (closed_join L Hclosed a b Ha Hb) as (ab & Hab & Habin & Ha_ab & Hb_ab & Hlab).
    destruct (closed_join L Hclosed b c Hb Hc) as (bc & Hbc & Hbcin & Hb_bc & Hc_bc & Hlbc).
    destruct (closed_join L Hclosed ab c Habin Hc) as (l & Hl & Hlin & Hab_l & Hc_l & Hll).
    destruct (closed_join L Hclosed a bc Ha Hbcin) as (r & Hr & Hrin & Ha_r & Hbc_r & Hlr).
    exists ab, bc, l. repeat (split; [assumption|]).
    rewrite Hr. f_equal. apply Hanti; try assumption.
    + apply Hlr; [assumption| |].
      * apply (Htrans a ab l); assumption.
      * apply Hlbc; [assumption| |assumption]. apply (Htrans b ab l); assumption.
    + apply Hll; [assumption| |].
      * apply Hlab; [assumption|assumption|]. apply (Htrans b bc r); assumption.
      * apply (Htrans c bc r); assumption.
  - destruct (closed_meet L Hclosed a b Ha Hb) as (ab & Hab & Habin & Hab_a & Hab_b & Hgab).
    destruct (closed_meet L Hclosed b c Hb Hc) as (bc & Hbc & Hbcin & Hbc_b & Hbc_c & Hgbc).
    destruct (closed_meet L Hclosed ab c Habin Hc) as (l & Hl & Hlin & Hl_ab & Hl_c & Hgl).
    destruct (closed_meet L Hclosed a bc Ha Hbcin) as (r & Hr & Hrin & Hr_a & Hr_bc & Hgr).
    exists ab, bc, l. repeat (split; [assumption|]).
    rewrite Hr. f_equal. apply Hanti; try assumption.
    + apply Hgl; [assumption| |].
      * apply Hgab; [assumption|assumption|]. apply (Htrans r bc b); assumption.
      * apply (Htrans r bc c); assumption.
    + apply Hgr; [assumption| |].
      * apply (Htrans l ab a); assumption.
      * apply Hgbc; [assumption| |assumption]. apply (Htrans l ab b); assumption.
Qed.
End laws.

(** ** Filters, registration and interpretation *)

(** A many-lattice is built exactly when its lattice part is and the filter
    lies inside the elements: an exception of the lattice part is passed on,
    a filter outside the elements gives [ValueError], and every many-lattice
    built has its filter among its elements. *)
Theorem ManyLattice_init_outcome (n1 n2 n3 : string) (E : gset string) (R : gset (string * string))
    csl neg imp (flt : option (gset string)) :
  (∀ e, Lattice_init n3 E R neg imp = Raise e →
        ManyLattice_init n1 n2 n3 E R csl neg imp flt = Raise e)
  ∧ (∀ L, Lattice_init n3 E R neg imp = Ok L →
       (default ∅ flt ⊆ E →
          ManyLattice_init n1 n2 n3 E R csl neg imp flt
          = Ok (mkManyLattice (mkFilteredLattice L n2 (default ∅ flt)) csl n1))
       ∧ (¬ default ∅ flt ⊆ E →
          ManyLattice_init n1 n2 n3 E R csl neg imp flt = Raise ValueError))
  ∧ (∀ ML, ManyLattice_init n1 n2 n3 E R csl neg imp flt = Ok ML →
       filter ML ⊆ elements ML).
Proof.
  unfold ManyLattice_init, FilteredLattice_init, _check_filter. split; [|split].
  - intros e ->. reflexivity.
  - intros L HL. rewrite HL. cbn.
    destruct (Lattice_init_closed _ _ _ _ _ _ HL) as (_ & -> & _). split; intros Hf.
    + now rewrite bool_decide_eq_true_2.
    + now rewrite bool_decide_eq_false_2.
  - intros ML. destruct (Lattice_init n3 E R neg imp) as [L|]; cbn; [|discriminate].
    case_bool_decide as Hf; cbn; [|discriminate]. intros [= <-]. exact Hf.
Qed.

Lemma Lattice_init_extrema_mem nm E R neg imp L :
  Lattice_init nm E R neg imp = Ok L →
  closed L ∧ ∃ b t, bottom L = Some b ∧ top L = Some t
                    ∧ b ∈ elements L ∧ t ∈ elements L.
Proof.
  intros Hinit. destruct (Lattice_init_Ok _ _ _ _ _ _ Hinit)
    as (b & t & -> & Hc & Hb & Ht).
  split; [exact Hc|]. exists b, t. cbn [bottom top elements].
  assert (HE : E ≠ ∅).
  { intros ->. revert Hb. unfold meet_set. cbn. rewrite iter_empty. discriminate. }
  destruct (meet_set_closed _ E Hc) as (b' & Hb' & Hbin); [done|done|].
  destruct (join_set_closed
              (mkLattice nm E R (default ∅ neg) (default ∅ imp) (Some b) None) E Hc)
    as (t' & Ht' & Htin); [done|done|].
  rewrite Hb in Hb'. rewrite Ht in Ht'. injection Hb' as <-. injection Ht' as <-.
  auto.
Qed.

Lemma down_interpretation_mem (ML : ManyLattice) nm E R neg imp L (a : string) :
  Lattice_init nm E R neg imp = Ok L → name L ∈ (name <$> comp_sub_lat ML) →
  ∃ d, down_interpretation ML L a = Ok d ∧ d ∈ elements L ∧ (a ∈ elements L → d = a).
Proof.
  intros Hinit Hreg.
  destruct (Lattice_init_extrema_mem _ _ _ _ _ _ Hinit) as (Hc & b & t & Hb & Ht & Hbin & Htin).
  unfold down_interpretation.
  rewrite bool_decide_eq_false_2 by (intros Hn; apply Hn, Hreg).
  case_bool_decide as Ha; [eauto|].
  case_bool_decide as Hempty.
  - rewrite Hb. exists b. cbn. split; [reflexivity|]. split; [exact Hbin|]. contradiction.
  - destruct (join_set_closed L _ Hc (λ x Hx, proj2 (proj1 (elem_of_filter _ _ x) Hx)) Hempty)
      as (j & Hj & Hjin).
    exists j. split; [exact Hj|]. split; [exact Hjin|]. contradiction.
Qed.

Lemma up_interpretation_mem (ML : ManyLattice) nm E R neg imp L (a : string) :
  Lattice_init nm E R neg imp = Ok L → name L ∈ (name <$> comp_sub_lat ML) →
  ∃ u, up_interpretation ML L a = Ok u ∧ u ∈ elements L ∧ (a ∈ elements L → u = a).
Proof.
  intros Hinit Hreg.
  destruct (Lattice_init_extrema_mem _ _ _ _ _ _ Hinit) as (Hc & b & t & Hb & Ht & Hbin & Htin).
  unfold up_interpretation.
  rewrite bool_decide_eq_false_2 by (intros Hn; apply Hn, Hreg).
  case_bool_decide as Ha; [eauto|].
  case_bool_decide as Hempty.
  - rewrite Ht. exists t. cbn. split; [reflexivity|]. split; [exact Htin|]. contradiction.
  - destruct (meet_set_closed L _ Hc (λ x Hx, proj2 (proj1 (elem_of_filter _ _ x) Hx)) Hempty)
      as (m & Hm & Hmin).
    exists m. split; [exact Hm|]. split; [exact Hmin|]. contradiction.
Qed.

(** For a lattice that was built successfully, the two interpretations
    raise [ValueError] when its name is not registered; when it is, they
    return for every string whatsoever, the result is an element of the
    lattice, an element of the lattice is returned unchanged, and
    interpreting a result again gives it back. *)
Theorem interpretation_outcome (ML : ManyLattice) nm E R neg imp L (a : string) :
  Lattice_init nm E R neg imp = Ok L →
  (name L ∉ (name <$> comp_sub_lat ML) →
     down_interpretation ML L a = Raise ValueError
     ∧ up_interpretation ML L a = Raise ValueError)
  ∧ (name L ∈ (name <$> comp_sub_lat ML) →
     ∃ d u, down_interpretation ML L a = Ok d ∧ up_interpretation ML L a = Ok u
            ∧ d ∈ elements L ∧ u ∈ elements L
            ∧ (a ∈ elements L → d = a ∧ u = a)
            ∧ down_interpretation ML L d = Ok d ∧ up_interpretation ML L d = Ok d
            ∧ down_interpretation ML L u = Ok u ∧ up_interpretation ML L u = Ok u).
Proof.
  intros Hinit. split.
  - intros Hn. unfold down_interpretation, up_interpretation.
    now rewrite bool_decide_eq_true_2.
  - intros Hreg.
    destruct (down_interpretation_mem ML _ _ _ _ _ _ a Hinit Hreg) as (d & Hd & Hdin & Hda).
    destruct (up_interpretation_mem ML _ _ _ _ _ _ a Hinit Hreg) as (u & Hu & Huin & Hua).
    exists d, u. repeat (split; [auto; fail|]).
    assert (Hid : ∀ x, x ∈ elements L →
                  down_interpretation ML L x = Ok x ∧ up_interpretation ML L x = Ok x).
    { intros x Hx.
      destruct (down_interpretation_mem ML _ _ _ _ _ _ x Hinit Hreg) as (d' & -> & _ & ->);
        [|exact Hx].
      destruct (up_interpretation_mem ML _ _ _ _ _ _ x Hinit Hreg) as (u' & -> & _ & ->);
        [|exact Hx].
      auto. }
    destruct (Hid d Hdin). destruct (Hid u Huin). auto 10.
Qed.

Lemma find_snoc {A} (f : A → bool) (l : list A) (x : A) :
  find f (l ++ [x])%list
  = match find f l with Some y => Some y | None => if f x then Some x else None end.
Proof.
  induction l as [|y l IH]; cbn; [reflexivity|]. destruct (f y); [reflexivity|exact IH].
Qed.

(** A lookup by name returns the first registered lattice of that name, and
    nothing exactly when the name is not registered.  After a lattice with a
    new name is added, looking its name up returns it, every other name
    looks up as before, names that were distinct stay distinct, and adding
    it a second time is refused with [ValueError]. *)
Theorem add_comp_sub_lat_lookup (ML : ManyLattice) (lattice : Lattice) :
  (∀ nm l, get_comp_sub_lattice ML nm = Some l → name l = nm ∧ l ∈ comp_sub_lat ML)
  ∧ (∀ nm, get_comp_sub_lattice ML nm = None ↔ nm ∉ (name <$> comp_sub_lat ML))
  ∧ (name lattice ∉ (name <$> comp_sub_lat ML) →
     ∃ ML', add_comp_sub_lat ML lattice = (ML', Ok tt)
            ∧ get_comp_sub_lattice ML' (name lattice) = Some lattice
            ∧ (∀ nm, nm ≠ name lattice →
                 get_comp_sub_lattice ML' nm = get_comp_sub_lattice ML nm)
            ∧ (NoDup (name <$> comp_sub_lat ML) → NoDup (name <$> comp_sub_lat ML'))
            ∧ add_comp_sub_lat ML' lattice = (ML', Raise ValueError)).
Proof.
  split; [|split].
  - intros nm l Hf. unfold get_comp_sub_lattice in Hf.
    apply find_some in Hf as [Hin Hnm%bool_decide_eq_true].
    split; [exact Hnm|now apply list_elem_of_In].
  - intros nm. rewrite <- get_comp_sub_lattice_is_Some.
    rewrite eq_None_not_Some. tauto.
  - intros Hnew. unfold add_comp_sub_lat.
    rewrite bool_decide_eq_false_2 by now rewrite get_comp_sub_lattice_is_Some.
    eexists. split; [reflexivity|].
    assert (Hnone : get_comp_sub_lattice ML (name lattice) = None).
    { apply eq_None_not_Some. now rewrite get_comp_sub_lattice_is_Some. }
    assert (Hget : get_comp_sub_lattice
                     (mkManyLattice ML (comp_sub_lat ML ++ [lattice]) (name_many_lattice ML))
                     (name lattice) = Some lattice).
    { unfold get_comp_sub_lattice in *. cbn. rewrite find_snoc, Hnone.
      now rewrite bool_decide_eq_true_2. }
    split; [exact Hget|]. split; [|split].
    + intros nm Hnm. unfold get_comp_sub_lattice. cbn. rewrite find_snoc.
      destruct (find _ (comp_sub_lat ML)); [reflexivity|].
      now rewrite bool_decide_eq_false_2 by congruence.
    + cbn. rewrite fmap_app. cbn. intros Hnd. apply NoDup_app. split; [exact Hnd|].
      split; [|apply NoDup_singleton].
      intros x Hx ->%list_elem_of_singleton. contradiction.
    + rewrite bool_decide_eq_true_2; [reflexivity|]. rewrite Hget. eauto.
Qed.

(** ** Assignments of a world *)

(** [assign_value] accepts exactly the elements of the world's lattice.  A
    value it accepts is what [get_assignment] and the evaluation of the atom
    then return, every other variable keeps its assignment, and names and
    lattice are untouched; a value it refuses gives [ValueError] and the
    world stays as it was. *)
Theorem assign_value_spec (self : World) (variable value : string) :
  (value ∈ elements (lattice self) →
     ∃ self', assign_value self variable value = (self', Ok tt)
       ∧ get_assignment self' variable = Some value
       ∧ (∀ x, x ≠ variable → get_assignment self' x = get_assignment self x)
       ∧ name_long self' = name_long self ∧ name_short self' = name_short self
       ∧ lattice self' = lattice self
       ∧ ∀ model interpretation w,
           evaluate (λ _, self') model interpretation (Atom variable) w = Ok value)
  ∧ (value ∉ elements (lattice self) →
     assign_value self variable value = (self, Raise ValueError)).
Proof.
  unfold assign_value. split; intros Hv.
  - rewrite bool_decide_eq_false_2 by tauto. eexists. split; [reflexivity|].
    unfold get_assignment. cbn. split; [apply lookup_insert_eq|].
    split; [intros x Hx; now apply lookup_insert_ne|].
    repeat (split; [reflexivity|]). intros model i w.
    unfold Atom_evaluate. cbn. now rewrite lookup_insert_eq.
  - now rewrite bool_decide_eq_true_2.
Qed.

(** ** Construction and growth of a model *)

Lemma lookup_foldl_ensure_entry (l : list wref) : ∀ (d : gmap wref (gset wref)) (k : wref),
  foldl ensure_entry d l !! k
  = match d !! k with
    | Some ts => Some ts
    | None => if bool_decide (k ∈ l) then Some ∅ else None
    end.
Proof.
  induction l as [|w l IH]; intros d k; cbn.
  - destruct (d !! k); [reflexivity|]. now rewrite bool_decide_eq_false_2 by apply not_elem_of_nil.
  - rewrite IH. unfold ensure_entry. destruct (d !! w) as [tw|] eqn:Hw.
    + destruct (d !! k) as [tk|] eqn:Hk; [reflexivity|].
      rewrite (bool_decide_ext (k ∈ w :: l) (k ∈ l)); [reflexivity|].
      rewrite elem_of_cons. split; [|tauto].
      intros [->|?]; [congruence|assumption].
    + destruct (decide (k = w)) as [->|Hne].
      * rewrite lookup_insert_eq, Hw.
        now rewrite bool_decide_eq_true_2 by apply list_elem_of_here.
      * rewrite lookup_insert_ne by congruence. destruct (d !! k); [reflexivity|].
        rewrite (bool_decide_ext (k ∈ w :: l) (k ∈ l)); [reflexivity|].
        rewrite elem_of_cons. tauto.
Qed.

(** [Model(...)] never raises.  It keeps the worlds and every entry of the
    accessibility relation it is given, and gives an empty entry to each
    world that had none; afterwards every world has an entry, and an entry
    of a non-world exists only if it was passed in. *)
Theorem Model_init_entries (nm : string) (ml : ManyLattice) (W : gset wref) (w0 : wref)
    (acc : option (gmap wref (gset wref))) (props actions : option (gset string)) :
  ∃ m, Model_init nm ml W w0 acc props actions = Ok m
       ∧ worlds m = W ∧ many_lattice m = ml ∧ initial_state m = w0
       ∧ entries_total m
       ∧ (∀ k ts, default ∅ acc !! k = Some ts → accessibility_relation m !! k = Some ts)
       ∧ (∀ k, k ∈ W → default ∅ acc !! k = None → accessibility_relation m !! k = Some ∅)
       ∧ (∀ k, k ∉ W → accessibility_relation m !! k = default ∅ acc !! k).
Proof.
  eexists. split; [reflexivity|]. cbn.
  repeat (split; [reflexivity|]).
  assert (Hl : ∀ k, foldl ensure_entry (default ∅ acc) (iter W) !! k
               = match default ∅ acc !! k with
                 | Some ts => Some ts
                 | None => if bool_decide (k ∈ W) then Some ∅ else None
                 end).
  { intros k. rewrite lookup_foldl_ensure_entry. destruct (_ !! k); [reflexivity|].
    rewrite (bool_decide_ext (k ∈ iter W) (k ∈ W)); [reflexivity|apply elem_of_iter]. }
  split; [|split; [|split]].
  - intros k Hk. cbn. rewrite Hl. destruct (_ !! k); [eauto|].
    rewrite bool_decide_eq_true_2 by assumption. eauto.
  - intros k ts Hk. now rewrite Hl, Hk.
  - intros k Hk Hnone. rewrite Hl, Hnone. now rewrite bool_decide_eq_true_2.
  - intros k Hk. rewrite Hl. destruct (_ !! k); [reflexivity|].
    now rewrite bool_decide_eq_false_2.
Qed.

(** [add_world] raises [ValueError] when a world of the model already has
    the short name (the world itself included), else [Exception] when the
    lattice of the world is not registered by name, and leaves the model as
    it was in both cases.  Otherwise the world joins the worlds, gets an
    empty entry unless it had one, no other entry changes, and the model
    keeps: an entry for every world, registered lattices, distinct short
    names. *)
Theorem add_world_outcome (σ : store) (m : Model) (w : wref) :
  ((∃ v, v ∈ worlds m ∧ name_short (σ v) = name_short (σ w)) →
     add_world σ m w = (m, Raise ValueError))
  ∧ (¬ (∃ v, v ∈ worlds m ∧ name_short (σ v) = name_short (σ w)) →
     (name (lattice (σ w)) ∉ (name <$> comp_sub_lat (many_lattice m)) →
        add_world σ m w = (m, Raise Exception_))
     ∧ (name (lattice (σ w)) ∈ (name <$> comp_sub_lat (many_lattice m)) →
        ∃ m', add_world σ m w = (m', Ok tt)
          ∧ worlds m' = {[w]} ∪ worlds m
          ∧ accessibility_relation m' !! w
            = Some (default ∅ (accessibility_relation m !! w))
          ∧ (∀ v, v ≠ w →
               accessibility_relation m' !! v = accessibility_relation m !! v)
          ∧ many_lattice m' = many_lattice m ∧ initial_state m' = initial_state m
          ∧ (entries_total m → entries_total m')
          ∧ (worlds_registered σ m → worlds_registered σ m')
          ∧ (unique_short_names σ m → unique_short_names σ m'))).
Proof.
  split.
  - intros Hclash. unfold add_world.
    now rewrite bool_decide_eq_true_2 by now apply get_world_is_Some.
  - intros Hfresh. split.
    + intros Hreg. now apply add_world_unregistered.
    + intros Hreg. unfold add_world.
      rewrite bool_decide_eq_false_2 by now rewrite get_world_is_Some.
      rewrite bool_decide_eq_false_2 by tauto.
      eexists. split; [reflexivity|]. cbn. split; [reflexivity|].
      assert (Hw : ensure_entry (accessibility_relation m) w !! w
                   = Some (default ∅ (accessibility_relation m !! w))).
      { unfold ensure_entry. destruct (accessibility_relation m !! w) eqn:Hl; cbn.
        - exact Hl.
        - apply lookup_insert_eq. }
      assert (Hv : ∀ v, v ≠ w → ensure_entry (accessibility_relation m) w !! v
                                = accessibility_relation m !! v).
      { intros v Hne. unfold ensure_entry. destruct (accessibility_relation m !! w);
          [reflexivity|]. now apply lookup_insert_ne. }
      split; [exact Hw|]. split; [exact Hv|]. split; [reflexivity|].
      split; [reflexivity|]. split; [|split].
      * intros Htot v. cbn. rewrite elem_of_union, elem_of_singleton.
        intros [->|Hin]; [rewrite Hw; eauto|].
        destruct (decide (v = w)) as [->|Hne]; [rewrite Hw; eauto|].
        rewrite Hv by assumption. now apply Htot.
      * intros Hinv v. cbn. rewrite elem_of_union, elem_of_singleton.
        intros [->|Hin]; [exact Hreg|now apply Hinv].
      * intros Huniq u v. cbn. rewrite !elem_of_union, !elem_of_singleton.
        intros [->|Hu] [->|Hv'] Hname; [reflexivity| | |now apply Huniq].
        -- exfalso. apply Hfresh. eauto.
        -- exfalso. apply Hfresh. eauto.
Qed.

(** Deleting a world that is not in the model and has no edge raises
    [KeyError], but only after its entry, if it had one, was removed from
    the accessibility relation: this failure does change the model. *)
Theorem delete_world_non_member (m : Model) (w : wref) :
  w ∉ worlds m → ¬ has_outgoing m w → ¬ has_incoming m w →
  delete_world m w
  = (set_accessibility_relation m (delete w (accessibility_relation m)), Raise KeyError)
  ∧ (accessibility_relation m !! w = Some ∅ →
     accessibility_relation (delete_world m w).1 ≠ accessibility_relation m).
Proof.
  intros Hw Hout Hin.
  assert (Heq : delete_world m w
                = (set_accessibility_relation m (delete w (accessibility_relation m)),
                   Raise KeyError)).
  { unfold delete_world.
    rewrite bool_decide_eq_false_2 by now rewrite <- has_outgoing_iff.
    destruct (existsb _ _) eqn:Hex; [exfalso; now apply Hin, has_incoming_iff|].
    rewrite (bool_decide_eq_false_2 _ Hw).
    case_bool_decide as Hsome; [reflexivity|].
    unfold set_accessibility_relation. rewrite delete_id; [reflexivity|].
    now apply eq_None_not_Some. }
  split; [exact Heq|]. rewrite Heq. cbn. intros Hentry Hsame.
  assert (Hl : delete w (accessibility_relation m) !! w = None) by apply lookup_delete_eq.
  rewrite Hsame in Hl. congruence.
Qed.

(** Adding a world and deleting it again gives the model back, provided
    the world was new: not in the model, without entry and without incoming
    edge. *)
Theorem add_world_delete_world (σ : store) (m : Model) (w : wref) :
  w ∉ worlds m → accessibility_relation m !! w = None → ¬ has_incoming m w →
  ¬ (∃ v, v ∈ worlds m ∧ name_short (σ v) = name_short (σ w)) →
  name (lattice (σ w)) ∈ (name <$> comp_sub_lat (many_lattice m)) →
  ∃ m', add_world σ m w = (m', Ok tt) ∧ delete_world m' w = (m, Ok tt).
Proof.
  intros Hw Hentry Hin Hfresh Hreg. unfold add_world.
  rewrite bool_decide_eq_false_2 by now rewrite get_world_is_Some.
  rewrite bool_decide_eq_false_2 by tauto.
  eexists. split; [reflexivity|].
  set (m' := mkModel _ _ _ _ _ _ _).
  assert (Hacc : accessibility_relation m' = <[w := ∅]> (accessibility_relation m)).
  { unfold m', ensure_entry. cbn. now rewrite Hentry. }
  assert (Hw' : w ∈ worlds m').
  { unfold m'. cbn. now apply elem_of_union_l, elem_of_singleton. }
  assert (Hout : ¬ has_outgoing m' w).
  { intros (ts & u & Hts & Hu). rewrite Hacc, lookup_insert_eq in Hts.
    injection Hts as <-. now apply not_elem_of_empty in Hu. }
  assert (Hin' : ¬ has_incoming m' w).
  { intros (v & ts & Hts & Hwts). rewrite Hacc in Hts.
    destruct (decide (v = w)) as [->|Hne].
    - rewrite lookup_insert_eq in Hts. injection Hts as <-.
      now apply not_elem_of_empty in Hwts.
    - rewrite lookup_insert_ne in Hts by congruence. apply Hin. unfold has_incoming. eauto. }
  unfold delete_world.
  rewrite bool_decide_eq_false_2 by now rewrite <- has_outgoing_iff.
  destruct (existsb _ _) eqn:Hex; [exfalso; now apply Hin', has_incoming_iff|].
  rewrite (bool_decide_eq_true_2 _ Hw').
  rewrite bool_decide_eq_true_2 by (rewrite Hacc, lookup_insert_eq; eauto).
  f_equal. rewrite Hacc. unfold m'. cbn. destruct m. cbn in *. f_equal.
  - apply set_eq. intros x. rewrite elem_of_difference, elem_of_union, elem_of_singleton.
    split; [tauto|]. intros Hx. split; [now right|]. intros ->. contradiction.
  - now apply delete_insert_id.
Qed.

(** ** Edges of a model *)

Lemma delete_world_edges (m : Model) (w : wref) :
  has_outgoing m w ∨ has_incoming m w → delete_world m w = (m, Raise ValueError).
Proof.
  intros [Hout|Hin]; unfold delete_world.
  - now rewrite bool_decide_eq_true_2 by now apply has_outgoing_iff.
  - case_bool_decide; [reflexivity|].
    apply has_incoming_iff in Hin. now rewrite Hin.
Qed.

Lemma get_world_mem (σ : store) (m : Model) (nm : string) (w : wref) :
  get_world σ m nm = Some w → w ∈ worlds m ∧ name_short (σ w) = nm.
Proof.
  unfold get_world. intros [Hin%In_iter Hnm%bool_decide_eq_true]%find_some. auto.
Qed.

(** When both names are short names of worlds and the source has an entry,
    [add_relation] succeeds for either kind of dictionary: the target joins
    the entry of the source, nothing else changes, [get_accessible_worlds]
    of the source returns the enlarged entry, and from then on neither end
    of the edge can be deleted from the model. *)
Theorem add_relation_spec (σ : store) (defaultdict : bool) (m : Model)
    (n1 n2 : string) (w1 w2 : wref) (ts : gset wref) :
  get_world σ m n1 = Some w1 → get_world σ m n2 = Some w2 →
  accessibility_relation m !! w1 = Some ts →
  ∃ m', add_relation σ defaultdict m n1 n2 = (m', Ok tt)
    ∧ accessibility_relation m' = <[w1 := {[w2]} ∪ ts]> (accessibility_relation m)
    ∧ worlds m' = worlds m ∧ many_lattice m' = many_lattice m
    ∧ get_accessible_worlds σ m' n1 = Ok ({[w2]} ∪ ts)
    ∧ (entries_total m → entries_total m')
    ∧ delete_world m' w1 = (m', Raise ValueError)
    ∧ delete_world m' w2 = (m', Raise ValueError).
Proof.
  intros H1 H2 Hts. unfold add_relation. rewrite H1, H2, Hts.
  eexists. split; [reflexivity|].
  set (m' := set_accessibility_relation m _).
  assert (Hacc : accessibility_relation m' !! w1 = Some ({[w2]} ∪ ts))
    by apply lookup_insert_eq.
  assert (Hedge : has_outgoing m' w1 ∧ has_incoming m' w2).
  { split.
    - exists ({[w2]} ∪ ts), w2. split; [exact Hacc|]. now apply elem_of_union_l, elem_of_singleton.
    - exists w1, ({[w2]} ∪ ts). split; [exact Hacc|]. now apply elem_of_union_l, elem_of_singleton. }
  split; [reflexivity|]. split; [reflexivity|]. split; [reflexivity|]. split; [|split; [|split]].
  - unfold get_accessible_worlds.
    change (get_world σ m' n1) with (get_world σ m n1). rewrite H1. now rewrite Hacc.
  - intros Htot v Hv. unfold m'. cbn. destruct (decide (v = w1)) as [->|Hne].
    + rewrite lookup_insert_eq. eauto.
    + rewrite lookup_insert_ne by congruence. now apply Htot.
  - apply delete_world_edges. now left.
  - apply delete_world_edges. now right.
Qed.

(** Adding an edge that was not there and deleting it again gives the model
    back; adding an edge that is there changes nothing. *)
Theorem add_relation_delete_relation (σ : store) (defaultdict : bool) (m : Model)
    (n1 n2 : string) (w1 w2 : wref) (ts : gset wref) :
  get_world σ m n1 = Some w1 → get_world σ m n2 = Some w2 →
  accessibility_relation m !! w1 = Some ts →
  (w2 ∉ ts →
     ∃ m', add_relation σ defaultdict m n1 n2 = (m', Ok tt)
           ∧ delete_relation σ defaultdict m' n1 n2 = (m, Ok tt))
  ∧ (w2 ∈ ts → add_relation σ defaultdict m n1 n2 = (m, Ok tt)).
Proof.
  intros H1 H2 Hts. unfold add_relation. rewrite H1, H2, Hts. split.
  - intros Hnew. eexists. split; [reflexivity|].
    unfold delete_relation.
    set (m' := set_accessibility_relation m _).
    change (get_world σ m' n1) with (get_world σ m n1).
    change (get_world σ m' n2) with (get_world σ m n2).
    rewrite H1, H2. unfold m' at 1. cbn [accessibility_relation set_accessibility_relation].
    rewrite lookup_insert_eq.
    rewrite bool_decide_eq_false_2
      by (intros Hn; apply Hn; now apply elem_of_union_l, elem_of_singleton).
    f_equal. unfold m', set_accessibility_relation. cbn. destruct m. cbn in *. f_equal.
    rewrite insert_insert_eq.
    assert (({[w2]} ∪ ts) ∖ {[w2]} = ts) as ->.
    { apply set_eq. intros x. rewrite elem_of_difference, elem_of_union, elem_of_singleton.
      split; [tauto|]. intros Hx. split; [now right|]. intros ->. contradiction. }
    now apply insert_id.
  - intros Hold. f_equal. unfold set_accessibility_relation. destruct m. cbn in *. f_equal.
    assert ({[w2]} ∪ ts = ts) as ->.
    { apply set_eq. intros x. rewrite elem_of_union, elem_of_singleton.
      split; [|tauto]. intros [->|?]; assumption. }
    now apply insert_id.
Qed.

(** Failures of the edge methods.  A name that is no short name of a world
    gives [ValueError] and no change, for both methods and for
    [get_accessible_worlds].  Deleting an edge that is not in the entry of
    the source gives [ValueError] and no change.  When the source has no
    entry the kind of dictionary shows: a plain dictionary gives [KeyError]
    in both methods and no change; a [defaultdict] lets [add_relation]
    succeed, and makes [delete_relation] raise [ValueError] after it has
    created an empty entry for the source. *)
Theorem relation_failures (σ : store) (defaultdict : bool) (m : Model)
    (n1 n2 : string) :
  (get_world σ m n1 = None ∨ get_world σ m n2 = None →
     add_relation σ defaultdict m n1 n2 = (m, Raise ValueError)
     ∧ delete_relation σ defaultdict m n1 n2 = (m, Raise ValueError))
  ∧ (get_world σ m n1 = None → get_accessible_worlds σ m n1 = Raise ValueError)
  ∧ (∀ w1 w2, get_world σ m n1 = Some w1 → get_world σ m n2 = Some w2 →
       (∀ ts, accessibility_relation m !! w1 = Some ts → w2 ∉ ts →
              delete_relation σ defaultdict m n1 n2 = (m, Raise ValueError))
       ∧ (accessibility_relation m !! w1 = None →
            add_relation σ false m n1 n2 = (m, Raise KeyError)
            ∧ delete_relation σ false m n1 n2 = (m, Raise KeyError)
            ∧ add_relation σ true m n1 n2
              = (set_accessibility_relation m
                   (<[w1 := {[w2]}]> (accessibility_relation m)), Ok tt)
            ∧ delete_relation σ true m n1 n2
              = (set_accessibility_relation m
                   (<[w1 := ∅]> (accessibility_relation m)), Raise ValueError))).
Proof.
  split; [|split].
  - unfold add_relation, delete_relation.
    intros [-> | ->]; [auto|]. destruct (get_world σ m n1); auto.
  - unfold get_accessible_worlds. now intros ->.
  - intros w1 w2 H1 H2. unfold add_relation, delete_relation. rewrite H1, H2. split.
    + intros ts -> Hn. now rewrite bool_decide_eq_true_2.
    + intros ->. auto.
Qed.

(** ** Sublattices proposed and generated by the application *)

Lemma all_pass_true {A} (body : A → result bool) (l : list A) :
  all_pass body l = Ok true ↔ ∀ x, In x l → body x = Ok true.
Proof.
  induction l as [|x l IH]; cbn.
  - split; [intros _ ? []|reflexivity].
  - destruct (body x) as [[]|e] eqn:Hx.
    + rewrite IH. split.
      * intros H y [<-|Hy]; auto.
      * intros H y Hy. apply H. auto.
    + split; [discriminate|]. intros H. specialize (H x (or_introl eq_refl)). congruence.
    + split; [discriminate|]. intros H. specialize (H x (or_introl eq_refl)). congruence.
Qed.

Lemma all_pass_returns {A} (body : A → result bool) (l : list A) :
  (∀ x, ∃ b, body x = Ok b) → ∃ b, all_pass body l = Ok b.
Proof.
  intros Hb. induction l as [|x l IH]; cbn; [eauto|].
  destruct (Hb x) as [[] ->]; eauto.
Qed.

(** One pair passes the test of [is_valid_sublattice] exactly when its join
    and its meet exist and lie in the subset; the test never raises. *)
Lemma pair_test (subset : gset string) (B : Lattice) (a b : string) :
  let test :=
    except_ValueError
      (j ← join B a b;
       if bool_decide (j ∉ subset) then Ok false
       else m ← meet B a b; if bool_decide (m ∉ subset) then Ok false else Ok true) in
  (test = Ok true ↔
     ∃ j m, join B a b = Ok j ∧ meet B a b = Ok m ∧ j ∈ subset ∧ m ∈ subset)
  ∧ ∃ r, test = Ok r.
Proof.
  cbn. destruct (join B a b) as [j|e] eqn:Hj; cbn.
  - case_bool_decide as Hjs; cbn.
    + split; [|eauto]. split; [discriminate|]. intros (j' & m & [= <-] & _ & Hin & _).
      contradiction.
    + destruct (meet B a b) as [m|e] eqn:Hm; cbn.
      * case_bool_decide as Hms; cbn.
        -- split; [|eauto]. split; [discriminate|].
           intros (j' & m' & _ & [= <-] & _ & Hin). contradiction.
        -- split; [|eauto]. split; [|reflexivity]. intros _. exists j, m.
           repeat split; try reflexivity; now apply dec_stable.
      * apply meet_Raise in Hm as ->. cbn. split; [|eauto].
        split; [discriminate|]. intros (? & ? & _ & [=] & _).
  - apply join_Raise in Hj as ->. cbn. split; [|eauto].
    split; [discriminate|]. intros (? & ? & [=] & _).
Qed.

Lemma is_valid_sublattice_pairs (subset : gset string) (B : Lattice) :
  size subset ≠ 1%nat →
  is_valid_sublattice subset B = Ok true ↔
  ∀ a b, a ∈ subset → b ∈ subset →
    ∃ j m, join B a b = Ok j ∧ meet B a b = Ok m ∧ j ∈ subset ∧ m ∈ subset.
Proof.
  intros Hs. unfold is_valid_sublattice.
  rewrite bool_decide_eq_false_2 by assumption.
  rewrite all_pass_true. split.
  - intros H a b Ha%In_iter Hb%In_iter. specialize (H a Ha).
    rewrite all_pass_true in H. specialize (H b Hb).
    now apply (pair_test subset B a b) in H.
  - intros H a Ha%In_iter. apply all_pass_true. intros b Hb%In_iter.
    apply (pair_test subset B a b). auto.
Qed.

(** [is_valid_sublattice] never raises.  It accepts every subset with
    exactly one member without looking at it, and any other subset exactly
    when the join and the meet of every two of its members exist in the
    lattice and belong to the subset (so the empty subset is accepted). *)
Theorem is_valid_sublattice_spec (subset : gset string) (B : Lattice) :
  (∃ r, is_valid_sublattice subset B = Ok r)
  ∧ (size subset = 1%nat → is_valid_sublattice subset B = Ok true)
  ∧ (size subset ≠ 1%nat →
     (is_valid_sublattice subset B = Ok true ↔
        ∀ a b, a ∈ subset → b ∈ subset →
          ∃ j m, join B a b = Ok j ∧ meet B a b = Ok m ∧ j ∈ subset ∧ m ∈ subset)).
Proof.
  split; [|split].
  - unfold is_valid_sublattice. case_bool_decide; [eauto|].
    apply all_pass_returns. intros a.
    apply all_pass_returns. intros b. apply (pair_test subset B a b).
  - intros Hs. unfold is_valid_sublattice. now rewrite bool_decide_eq_true_2.
  - apply is_valid_sublattice_pairs.
Qed.

Lemma set_map_stripped (subset : gset string) :
  (∀ x, x ∈ subset → stripped x) → set_map (D := gset string) strip subset = subset.
Proof.
  intros Hs. apply set_eq. intros x. rewrite elem_of_map. split.
  - intros (y & -> & Hy). now rewrite (Hs y Hy).
  - intros Hx. exists x. split; [symmetry; now apply Hs|exact Hx].
Qed.

Lemma sub_relations_stripped (subset : gset string) (R : gset (string * string)) (x y : string) :
  (∀ p, p ∈ R → stripped p.1 ∧ stripped p.2) →
  (x, y) ∈ (base.filter (λ p : string * string, p.1 ∈ subset ∧ p.2 ∈ subset)
              (set_map (λ p : string * string, (strip p.1, strip p.2)) R
                 : gset (string * string)) : gset (string * string))
  ↔ x ∈ subset ∧ y ∈ subset ∧ (x, y) ∈ R.
Proof.
  intros HR. rewrite elem_of_filter, elem_of_map. cbn. split.
  - intros ([Hx Hy] & [a b] & [= -> ->] & Hab). destruct (HR _ Hab) as [Ha Hb]. cbn in *.
    unfold stripped in *. rewrite Ha, Hb in *. auto.
  - intros (Hx & Hy & Hxy). split; [auto|]. exists (x, y).
    destruct (HR _ Hxy) as [Ha Hb]. cbn in *. unfold stripped in *.
    unfold strip in *. split; [congruence|exact Hxy].
Qed.

(** A subset that the dialog proposes is turned into a lattice that can be
    built.  Let the subset be non-empty, made of elements of the base
    lattice and accepted by [is_valid_sublattice]; let the base relation be
    reflexive on the base elements, and let no name involved carry leading
    or trailing white space.  Then the generated lattice is constructed
    without error, under the name [<new_name>_gen_<i+1>], on exactly the
    subset, with empty maps, and its order is the base order restricted to
    the subset: it satisfies [order_restricted] for every many-lattice over
    the same elements and relations. *)
Theorem generated_sublattice_valid (new_name : string) (i : nat)
    (subset : gset string) (B : Lattice) :
  subset ≠ ∅ → subset ⊆ elements B →
  is_valid_sublattice subset B = Ok true →
  reflexive_on B →
  (∀ x, x ∈ subset → stripped x) →
  (∀ p, p ∈ relations B → stripped p.1 ∧ stripped p.2) →
  ∃ S, generated_sublattice new_name i subset B = Ok S
    ∧ name S = new_name +:+ "_gen_" +:+ pretty (i + 1)%nat
    ∧ elements S = subset
    ∧ negation_map S = ∅ ∧ implication_map S = ∅
    ∧ (∀ x y, is_less_than_or_equal S x y = true ↔
              x ∈ subset ∧ y ∈ subset ∧ is_less_than_or_equal B x y = true)
    ∧ (∀ ML : ManyLattice, elements ML = elements B → relations ML = relations B →
         order_restricted ML S).
Proof.
  intros Hne Hsub Hvalid Hrefl Hs HR. unfold generated_sublattice.
  rewrite (set_map_stripped subset Hs).
  set (Rs := base.filter _ _ : gset (string * string)).
  assert (HRs : ∀ x y, (x, y) ∈ Rs ↔ x ∈ subset ∧ y ∈ subset ∧ (x, y) ∈ relations B)
    by (intros x y; now apply sub_relations_stripped).
  set (nmS := new_name +:+ "_gen_" +:+ pretty (i + 1)%nat).
  set (pre := mkLattice nmS subset Rs ∅ ∅ None None).
  assert (Hleq : ∀ x y, is_less_than_or_equal pre x y = true ↔
                        x ∈ subset ∧ y ∈ subset ∧ is_less_than_or_equal B x y = true).
  { intros x y. unfold is_less_than_or_equal. rewrite !bool_decide_eq_true. apply HRs. }
  (* every pair of the subset has bounds inside the subset *)
  assert (Hpairs : ∀ a b, a ∈ subset → b ∈ subset →
            (∃ j, j ∈ subset ∧ is_less_than_or_equal B a j = true
                  ∧ is_less_than_or_equal B b j = true
                  ∧ ∀ u, u ∈ subset → is_less_than_or_equal B a u = true →
                         is_less_than_or_equal B b u = true →
                         is_less_than_or_equal B j u = true)
            ∧ (∃ m, m ∈ subset ∧ is_less_than_or_equal B m a = true
                    ∧ is_less_than_or_equal B m b = true
                    ∧ ∀ u, u ∈ subset → is_less_than_or_equal B u a = true →
                           is_less_than_or_equal B u b = true →
                           is_less_than_or_equal B u m = true)).
  { intros a b Ha Hb. destruct (decide (size subset = 1%nat)) as [Hone|Hmany].
    - apply size_1_elem_of in Hone as [c Hc]. apply leibniz_equiv in Hc.
      assert (a = c) as -> by (rewrite Hc in Ha; now apply elem_of_singleton in Ha).
      assert (b = c) as -> by (rewrite Hc in Hb; now apply elem_of_singleton in Hb).
      assert (Hcc : is_less_than_or_equal B c c = true) by (apply Hrefl, Hsub, Ha).
      split; exists c; repeat split; try assumption;
        intros u Hu _ _; rewrite Hc in Hu; apply elem_of_singleton in Hu as ->; exact Hcc.
    - destruct (proj1 (is_valid_sublattice_pairs subset B Hmany) Hvalid a b Ha Hb)
        as (j & m & Hj & Hm & Hjin & Hmin).
      apply join_Ok in Hj as (_ & _ & _ & Haj & Hbj & Hleast).
      apply meet_Ok in Hm as (_ & _ & _ & Hma & Hmb & Hgreatest).
      split; [exists j|exists m]; repeat split; auto. }
  assert (Hc : closed pre).
  { apply closed_iff. intros x y Hx Hy. cbn in Hx, Hy.
    destruct (Hpairs x y Hx Hy) as [(j & Hjin & Hxj & Hyj & Hleast)
                                    (m & Hmin & Hmx & Hmy & Hgreatest)].
    split.
    - rewrite meet_unfold by assumption. apply (scan_greatest_total pre _ m).
      + apply In_lower_bounds. split; [exact Hmin|]. split; apply Hleq; auto.
      + intros u (Hu & (_ & _ & Hux)%Hleq & (_ & _ & Huy)%Hleq)%In_lower_bounds.
        apply Hleq. auto.
    - rewrite join_unfold by assumption. apply (scan_least_total pre _ j).
      + apply In_upper_bounds. split; [exact Hjin|]. split; apply Hleq; auto.
      + intros u (Hu & (_ & _ & Hxu)%Hleq & (_ & _ & Hyu)%Hleq)%In_upper_bounds.
        apply Hleq. auto. }
  destruct (Lattice_init_closed_Ok nmS subset Rs (Some ∅) (Some ∅) Hne Hc)
    as (b & t & Hinit & _).
  eexists. split; [exact Hinit|]. cbn.
  repeat (split; [reflexivity|]). split; [exact Hleq|].
  intros ML HE HRel. split; [cbn; now rewrite HE|].
  intros x y Hx Hy. cbn in Hx, Hy.
  apply eq_true_iff_eq. split.
  - intros H. apply (proj1 (Hleq x y)) in H as (_ & _ & H).
    unfold is_less_than_or_equal in *. now rewrite HRel.
  - intros H. apply (proj2 (Hleq x y)). split; [exact Hx|]. split; [exact Hy|].
    unfold is_less_than_or_equal in *. now rewrite <- HRel.
Qed.

(** ** Evaluation never fails on a well-formed model *)

Section safety.
Variable σ : store.
Variable model : Model.
Variable interpretation : string.
Variable W : gset wref.
Hypothesis Hwf : well_formed σ model W.

Lemma interpret_mem (w : wref) (a : string) :
  w ∈ W → ∃ d, interpret model interpretation (lattice (σ w)) a = Ok d
               ∧ d ∈ elements (lattice (σ w)).
Proof.
  intros Hw. destruct Hwf as (Hbuilt & Hreg & _).
  destruct (Hbuilt w Hw) as (nm & E & R & neg & imp & Hinit).
  unfold interpret. case_bool_decide.
  - destruct (up_interpretation_mem (many_lattice model) _ _ _ _ _ _ a Hinit (Hreg w Hw))
      as (u & Hu & Hin & _). eauto.
  - destruct (down_interpretation_mem (many_lattice model) _ _ _ _ _ _ a Hinit (Hreg w Hw))
      as (d & Hd & Hin & _). eauto.
Qed.

Lemma world_closed (w : wref) : w ∈ W → closed (lattice (σ w)).
Proof.
  intros Hw. destruct Hwf as (Hbuilt & _).
  destruct (Hbuilt w Hw) as (nm & E & R & neg & imp & Hinit).
  now destruct (Lattice_init_closed _ _ _ _ _ _ Hinit).
Qed.

Lemma safe_Not (child : evaluator) :
  safe σ W child → safe σ W (Not_evaluate σ model interpretation child).
Proof.
  intros Hc w Hw. destruct (Hc w Hw) as (v & Hv & Hin).
  unfold Not_evaluate. rewrite Hv. cbn.
  destruct Hwf as (_ & _ & _ & Hneg). destruct (Hneg w v Hw Hin) as [n ->].
  now apply interpret_mem.
Qed.

Lemma safe_And (l r : evaluator) :
  safe σ W l → safe σ W r → safe σ W (And_evaluate σ l r).
Proof.
  intros Hl Hr w Hw. destruct (Hl w Hw) as (a & Ha & Hain).
  destruct (Hr w Hw) as (b & Hb & Hbin).
  unfold And_evaluate. rewrite Ha, Hb. cbn.
  destruct (closed_meet _ (world_closed w Hw) a b Hain Hbin) as (m & Hm & Hmin & _). eauto.
Qed.

Lemma safe_Or (l r : evaluator) :
  safe σ W l → safe σ W r → safe σ W (Or_evaluate σ l r).
Proof.
  intros Hl Hr w Hw. destruct (Hl w Hw) as (a & Ha & Hain).
  destruct (Hr w Hw) as (b & Hb & Hbin).
  unfold Or_evaluate. rewrite Ha, Hb. cbn.
  destruct (closed_join _ (world_closed w Hw) a b Hain Hbin) as (j & Hj & Hjin & _). eauto.
Qed.

Lemma safe_Implies (l r : evaluator) :
  safe σ W l → safe σ W r → safe σ W (Implies_evaluate σ model interpretation l r).
Proof.
  intros Hl Hr w Hw. destruct (Hl w Hw) as (a & Ha & Hain).
  destruct (Hr w Hw) as (b & Hb & Hbin).
  unfold Implies_evaluate. rewrite Ha, Hb. cbn.
  destruct (_ !! (a, b)) as [base_result|]; [now apply interpret_mem|].
  destruct Hwf as (_ & _ & _ & Hneg). destruct (Hneg w a Hw Hain) as [n ->].
  destruct (interpret_mem w n Hw) as (na & -> & Hnain). cbn.
  destruct (closed_join _ (world_closed w Hw) na b Hnain Hbin) as (j & Hj & Hjin & _). eauto.
Qed.

(** The loop of [Box.evaluate] collects elements of the current world's
    lattice, at least one when there is a world to visit. *)
Lemma Box_loop (child : evaluator) (w : wref) (l : list wref) :
  safe σ W child → w ∈ W → (∀ u, In u l → u ∈ W) →
  ∀ acc : gset string, acc ⊆ elements (lattice (σ w)) →
  ∃ vals : gset string,
    for_each
      (λ (relativized_values : gset string) u,
         raw_val ← child u;
         interp_val ← interpret model interpretation (lattice (σ w)) raw_val;
         Ok ({[interp_val]} ∪ relativized_values))
      acc l = Ok vals
    ∧ vals ⊆ elements (lattice (σ w)) ∧ (l ≠ [] ∨ acc ≠ ∅ → vals ≠ ∅).
Proof.
  intros Hc Hw. induction l as [|u l IH]; intros Hl acc Hacc; cbn.
  - exists acc. split; [reflexivity|]. split; [exact Hacc|]. intros [?|?]; done.
  - destruct (Hc u (Hl u (or_introl eq_refl))) as (raw & -> & _). cbn.
    destruct (interpret_mem w raw Hw) as (d & -> & Hd). cbn.
    destruct (IH (λ x Hx, Hl x (or_intror Hx)) ({[d]} ∪ acc)) as (vals & Hvals & Hsub & Hne).
    { intros x [->%elem_of_singleton|Hx]%elem_of_union; auto. }
    exists vals. split; [exact Hvals|]. split; [exact Hsub|]. intros _. apply Hne. right.
    intros Hempty. apply (not_elem_of_empty (C := gset string) d).
    rewrite <- Hempty. now apply elem_of_union_l, elem_of_singleton.
Qed.

Lemma safe_Box (child : evaluator) :
  safe σ W child → safe σ W (Box_evaluate σ model interpretation child).
Proof.
  intros Hc w Hw. unfold Box_evaluate.
  pose proof Hwf as (Hbuilt & _ & Hacc & _).
  destruct (Hbuilt w Hw) as (nm & E & R & neg & imp & Hinit).
  destruct (Lattice_init_extrema_mem _ _ _ _ _ _ Hinit) as (Hcl & b & t & _ & Ht & _ & Htin).
  case_bool_decide as Hempty.
  - rewrite Ht. cbn. eauto.
  - destruct (accessibility_relation model !! w) as [ts|] eqn:Hts; [|done]. cbn in *.
    destruct (Box_loop child w (iter ts) Hc Hw) with (acc := (∅ : gset string))
      as (vals & -> & Hsub & Hne).
    { intros u Hu%In_iter. now apply (Hacc w ts Hw Hts). }
    { intros x Hx. now apply not_elem_of_empty in Hx. }
    cbn. apply meet_set_closed; [exact Hcl|exact Hsub|]. apply Hne. left.
    intros Hnil. apply Hempty. apply elements_empty_inv in Hnil. now apply leibniz_equiv.
Qed.

Lemma evaluate_safe_aux (node : ASTNode) :
  atoms_assigned σ W (get_atoms node) →
  safe σ W (evaluate σ model interpretation node).
Proof.
  induction node as [nm|c IH|l IHl r IHr|l IHl r IHr|l IHl r IHr|l IHl r IHr|c IH|c IH];
    cbn [get_atoms evaluate]; intros Hat.
  - intros w Hw. destruct (Hat w nm Hw) as (v & Hv & Hin); [now apply elem_of_singleton|].
    unfold Atom_evaluate. rewrite Hv. eauto.
  - now apply safe_Not, IH.
  - apply safe_And; [apply IHl|apply IHr]; intros w p Hw Hp; apply Hat; set_solver.
  - apply safe_Or; [apply IHl|apply IHr]; intros w p Hw Hp; apply Hat; set_solver.
  - apply safe_Implies; [apply IHl|apply IHr]; intros w p Hw Hp; apply Hat; set_solver.
  - assert (Hl : safe σ W (evaluate σ model interpretation l))
      by (apply IHl; intros w p Hw Hp; apply Hat; set_solver).
    assert (Hr : safe σ W (evaluate σ model interpretation r))
      by (apply IHr; intros w p Hw Hp; apply Hat; set_solver).
    unfold Iff_evaluate. apply safe_And; now apply safe_Implies.
  - now apply safe_Box, IH.
  - unfold Diamond_evaluate. now apply safe_Not, safe_Box, safe_Not, IH.
Qed.
End safety.

Section limit.
Variable σ : store.
Variable model : Model.
Variable interpretation : string.

Local Abbreviation run := (evaluate σ model interpretation).
Local Abbreviation run_limited := (evaluate_limited σ model interpretation).

Lemma Box_loop_limited (child : ASTNode) (limit : nat) (world : wref) (l : list wref) :
  (∀ u, run_limited limit child u = RecursionError
        ∨ run_limited limit child u = Within (run child u)) →
  ∀ acc : gset string,
    let body := λ (relativized_values : gset string) u,
      raw_val ← run_limited limit child u;
      interp_val ← Within (interpret model interpretation (lattice (σ world)) raw_val);
      Within (Ok ({[interp_val]} ∪ relativized_values)) in
    for_each_limited body acc l = RecursionError
    ∨ for_each_limited body acc l
      = Within (for_each
                  (λ (relativized_values : gset string) u,
                     raw_val ← run child u;
                     interp_val ← interpret model interpretation (lattice (σ world)) raw_val;
                     Ok ({[interp_val]} ∪ relativized_values))
                  acc l).
Proof.
  intros Hchild. induction l as [|u l IH]; intros acc; cbn; [now right|].
  destruct (Hchild u) as [-> | ->]; [now left|].
  destruct (run child u) as [raw|e]; cbn; [|now right].
  destruct (interpret model interpretation (lattice (σ world)) raw) as [v|e]; cbn;
    [|now right].
  apply IH.
Qed.

(** Under any limit the outcome is [RecursionError] or what [evaluate]
    gives. *)
Lemma evaluate_limited_agree (limit : nat) : ∀ (node : ASTNode) (world : wref),
  run_limited limit node world = RecursionError
  ∨ run_limited limit node world = Within (run node world).
Proof.
  induction limit as [|limit IH]; intros node world; [now left|].
  destruct node as [name|child|l r|l r|l r|l r|child|child]; cbn [evaluate_limited].
  - now right.
  - destruct (IH child world) as [-> | ->]; [now left|]. right. cbn.
    unfold Not_evaluate. destruct (run child world); reflexivity.
  - destruct (IH l world) as [-> | ->]; [now left|]. cbn. unfold And_evaluate.
    destruct (run l world) as [a|e]; cbn; [|now right].
    destruct (IH r world) as [-> | ->]; [now left|]. right.
    destruct (run r world); reflexivity.
  - destruct (IH l world) as [-> | ->]; [now left|]. cbn. unfold Or_evaluate.
    destruct (run l world) as [a|e]; cbn; [|now right].
    destruct (IH r world) as [-> | ->]; [now left|]. right.
    destruct (run r world); reflexivity.
  - destruct (IH l world) as [-> | ->]; [now left|]. cbn. unfold Implies_evaluate.
    destruct (run l world) as [a|e]; cbn; [|now right].
    destruct (IH r world) as [-> | ->]; [now left|]. right.
    destruct (run r world); reflexivity.
  - exact (IH (And (Implies l r) (Implies r l)) world).
  - cbn [evaluate]. unfold Box_evaluate. cbv zeta. case_bool_decide; [now right|].
    destruct (Box_loop_limited child limit world
                (iter (default ∅ (accessibility_relation model !! world)))
                (IH child) ∅) as [-> | ->]; [now left|]. right.
    destruct (for_each _ _ _); reflexivity.
  - exact (IH (Not (Box (Not child))) world).
Qed.

Lemma Box_loop_enough (child : ASTNode) (limit : nat) (world : wref) (l : list wref) :
  (∀ u, run_limited limit child u ≠ RecursionError) →
  ∀ acc : gset string,
    for_each_limited
      (λ (relativized_values : gset string) u,
         raw_val ← run_limited limit child u;
         interp_val ← Within (interpret model interpretation (lattice (σ world)) raw_val);
         Within (Ok ({[interp_val]} ∪ relativized_values)))
      acc l ≠ RecursionError.
Proof.
  intros Hchild. induction l as [|u l IH]; intros acc; cbn; [discriminate|].
  specialize (Hchild u). destruct (run_limited limit child u) as [[raw|e]|]; cbn;
    [|discriminate|contradiction].
  destruct (interpret model interpretation (lattice (σ world)) raw) as [v|e]; cbn;
    [apply IH|discriminate].
Qed.

(** A limit of at least [evaluate_depth] is never reached. *)
Lemma evaluate_limited_enough (limit : nat) : ∀ (node : ASTNode) (world : wref),
  (evaluate_depth node ≤ limit)%nat →
  run_limited limit node world ≠ RecursionError.
Proof.
  induction limit as [|limit IH]; intros node world Hd.
  { destruct node; cbn in Hd; lia. }
  destruct node as [name|child|l r|l r|l r|l r|child|child];
    cbn [evaluate_limited]; cbn [evaluate_depth] in Hd.
  - discriminate.
  - pose proof (IH child world ltac:(lia)) as Hc.
    destruct (run_limited limit child world) as [[v|e]|]; cbn;
      [discriminate|discriminate|contradiction].
  - pose proof (IH l world ltac:(lia)) as Hl. pose proof (IH r world ltac:(lia)) as Hr.
    destruct (run_limited limit l world) as [[a|e]|]; cbn; [|discriminate|contradiction].
    destruct (run_limited limit r world) as [[b|e]|]; cbn;
      [discriminate|discriminate|contradiction].
  - pose proof (IH l world ltac:(lia)) as Hl. pose proof (IH r world ltac:(lia)) as Hr.
    destruct (run_limited limit l world) as [[a|e]|]; cbn; [|discriminate|contradiction].
    destruct (run_limited limit r world) as [[b|e]|]; cbn;
      [discriminate|discriminate|contradiction].
  - pose proof (IH l world ltac:(lia)) as Hl. pose proof (IH r world ltac:(lia)) as Hr.
    destruct (run_limited limit l world) as [[a|e]|]; cbn; [|discriminate|contradiction].
    destruct (run_limited limit r world) as [[b|e]|]; cbn;
      [discriminate|discriminate|contradiction].
  - apply IH. cbn [evaluate_depth]. lia.
  - cbv zeta. case_bool_decide; [discriminate|].
    pose proof (Box_loop_enough child limit world
                  (iter (default ∅ (accessibility_relation model !! world)))
                  (λ u, IH child u ltac:(lia)) ∅) as Hloop.
    destruct (for_each_limited _ _ _) as [[vs|e]|]; cbn;
      [discriminate|discriminate|contradiction].
  - apply IH. cbn [evaluate_depth]. lia.
Qed.
End limit.


(** ** Derived connectives and the interpretation argument *)

(** [Iff] is symmetric in its value: whenever [A <-> B] evaluates to a
    value, [B <-> A] evaluates to the same value. *)
Theorem Iff_symmetric (σ : store) (model : Model) (interpretation : string)
    (A B : ASTNode) (w : wref) (v : string) :
  evaluate σ model interpretation (Iff A B) w = Ok v →
  evaluate σ model interpretation (Iff B A) w = Ok v.
Proof.
  cbn [evaluate]. unfold Iff_evaluate, And_evaluate.
  destruct (Implies_evaluate σ model interpretation (evaluate σ model interpretation A)
              (evaluate σ model interpretation B) w) as [x|]; cbn; [|discriminate].
  destruct (Implies_evaluate σ model interpretation (evaluate σ model interpretation B)
              (evaluate σ model interpretation A) w) as [y|]; cbn; [|discriminate].
  now rewrite meet_comm.
Qed.

(** At a world without successor, [<>A] does not look at [A]: it is the
    negation of the top of the world's lattice, taken in the base table and
    interpreted into the world's lattice, and a [ValueError] when the table
    has no entry for the top. *)
Theorem Diamond_dead_end (σ : store) (model : Model) (interpretation : string)
    (A : ASTNode) (w : wref) (t : string) :
  default ∅ (accessibility_relation model !! w) = ∅ →
  top (lattice (σ w)) = Some t →
  evaluate σ model interpretation (Diamond A) w
  = match negation_map (many_lattice model) !! t with
    | Some n => interpret model interpretation (lattice (σ w)) n
    | None => Raise ValueError
    end.
Proof.
  intros Hacc Ht. cbn [evaluate]. unfold Diamond_evaluate.
  unfold Not_evaluate at 1. unfold Box_evaluate.
  rewrite bool_decide_eq_true_2 by exact Hacc. rewrite Ht. reflexivity.
Qed.

(** Any interpretation argument other than ["up"] selects the down
    interpretation, whatever the formula and the world. *)
Theorem interpretation_default_down (σ : store) (model : Model) (interpretation : string)
    (node : ASTNode) (w : wref) :
  interpretation ≠ "up" →
  evaluate σ model interpretation node w = evaluate σ model "down" node w.
Proof.
  intros Hne. apply evaluate_same_mode. unfold same_mode.
  rewrite bool_decide_eq_false_2 by assumption. reflexivity.
Qed.

(** ** When the interpretation does not matter *)

Section one_lattice.
Variable σ : store.
Variable model : Model.
Variables i j : string.
Variable W : gset wref.
Hypothesis Hone : one_lattice σ model W.

Lemma interpret_member (L : Lattice) (a : string) :
  a ∈ elements L →
  interpret model i L a = interpret model j L a
  ∧ ∀ d, interpret model j L a = Ok d → d = a.
Proof.
  intros Ha. unfold interpret, up_interpretation, down_interpretation.
  rewrite (bool_decide_eq_true_2 _ Ha).
  repeat case_bool_decide; split; congruence.
Qed.

Lemma agree_Not (c1 c2 : evaluator) :
  agree_on σ W c1 c2 →
  agree_on σ W (Not_evaluate σ model i c1) (Not_evaluate σ model j c2).
Proof.
  intros Hc w Hw. destruct (Hc w Hw) as [Heq Hin]. unfold Not_evaluate. rewrite Heq.
  destruct (c2 w) as [v|]; cbn; [|split; [reflexivity|discriminate]].
  destruct (_ !! v) as [n|] eqn:Hn; [|split; [reflexivity|discriminate]].
  destruct Hone as (_ & _ & _ & _ & Hneg & _).
  assert (Hnin : n ∈ elements (lattice (σ w))) by (apply (Hneg w v n Hw); auto).
  destruct (interpret_member (lattice (σ w)) n Hnin) as [-> Hd].
  split; [reflexivity|]. intros d ->%Hd. exact Hnin.
Qed.

Lemma agree_And (l1 l2 r1 r2 : evaluator) :
  agree_on σ W l1 l2 → agree_on σ W r1 r2 →
  agree_on σ W (And_evaluate σ l1 r1) (And_evaluate σ l2 r2).
Proof.
  intros Hl Hr w Hw. unfold And_evaluate.
  destruct (Hl w Hw) as [-> _]. destruct (Hr w Hw) as [-> _].
  split; [reflexivity|].
  destruct (l2 w); cbn; [|discriminate]. destruct (r2 w); cbn; [|discriminate].
  intros v (_ & _ & Hv & _)%meet_Ok. exact Hv.
Qed.

Lemma agree_Or (l1 l2 r1 r2 : evaluator) :
  agree_on σ W l1 l2 → agree_on σ W r1 r2 →
  agree_on σ W (Or_evaluate σ l1 r1) (Or_evaluate σ l2 r2).
Proof.
  intros Hl Hr w Hw. unfold Or_evaluate.
  destruct (Hl w Hw) as [-> _]. destruct (Hr w Hw) as [-> _].
  split; [reflexivity|].
  destruct (l2 w); cbn; [|discriminate]. destruct (r2 w); cbn; [|discriminate].
  intros v (_ & _ & Hv & _)%join_Ok. exact Hv.
Qed.

Lemma agree_Implies (l1 l2 r1 r2 : evaluator) :
  agree_on σ W l1 l2 → agree_on σ W r1 r2 →
  agree_on σ W (Implies_evaluate σ model i l1 r1) (Implies_evaluate σ model j l2 r2).
Proof.
  intros Hl Hr w Hw. unfold Implies_evaluate.
  destruct (Hl w Hw) as [-> Hlin]. destruct (Hr w Hw) as [-> Hrin].
  destruct (l2 w) as [a|]; cbn; [|split; [reflexivity|discriminate]].
  destruct (r2 w) as [b|]; cbn; [|split; [reflexivity|discriminate]].
  destruct Hone as (_ & _ & _ & _ & Hneg & Himp).
  destruct (_ !! (a, b)) as [r|] eqn:Hr'.
  - assert (Hin : r ∈ elements (lattice (σ w))) by (apply (Himp w a b r Hw); auto).
    destruct (interpret_member (lattice (σ w)) r Hin) as [-> Hd].
    split; [reflexivity|]. intros d ->%Hd. exact Hin.
  - destruct (_ !! a) as [n|] eqn:Hn; [|split; [reflexivity|discriminate]].
    assert (Hnin : n ∈ elements (lattice (σ w))) by (apply (Hneg w a n Hw); auto).
    destruct (interpret_member (lattice (σ w)) n Hnin) as [-> _].
    split; [reflexivity|]. destruct (interpret model j _ n); cbn; [|discriminate].
    intros v (_ & _ & Hv & _)%join_Ok. exact Hv.
Qed.

Lemma agree_Box_loop (c1 c2 : evaluator) (w : wref) (l : list wref) :
  agree_on σ W c1 c2 → w ∈ W → (∀ u, In u l → u ∈ W) →
  ∀ acc : gset string,
    for_each
      (λ (relativized_values : gset string) u,
         raw_val ← c1 u;
         interp_val ← interpret model i (lattice (σ w)) raw_val;
         Ok ({[interp_val]} ∪ relativized_values)) acc l
    = for_each
        (λ (relativized_values : gset string) u,
           raw_val ← c2 u;
           interp_val ← interpret model j (lattice (σ w)) raw_val;
           Ok ({[interp_val]} ∪ relativized_values)) acc l.
Proof.
  intros Hc Hw. destruct Hone as (_ & Hsame & _).
  induction l as [|u l IH]; intros Hl acc; cbn; [reflexivity|].
  assert (Hu : u ∈ W) by (apply Hl; now left).
  destruct (Hc u Hu) as [-> Hin].
  destruct (c2 u) as [raw|]; cbn; [|reflexivity].
  assert (Hraw : raw ∈ elements (lattice (σ w))).
  { rewrite <- (Hsame w u Hw Hu). now apply Hin. }
  destruct (interpret_member (lattice (σ w)) raw Hraw) as [-> _].
  destruct (interpret model j _ raw); cbn; [|reflexivity].
  apply IH. intros x Hx. apply Hl. now right.
Qed.

Lemma agree_Box (c1 c2 : evaluator) :
  agree_on σ W c1 c2 →
  agree_on σ W (Box_evaluate σ model i c1) (Box_evaluate σ model j c2).
Proof.
  intros Hc w Hw. unfold Box_evaluate.
  pose proof Hone as (Hbuilt & _ & Hacc & _).
  destruct (Hbuilt w Hw) as (nm & E & R & neg & imp & Hinit).
  destruct (Lattice_init_extrema_mem _ _ _ _ _ _ Hinit) as (Hcl & b & t & _ & Ht & _ & Htin).
  case_bool_decide as Hempty.
  - split; [reflexivity|]. rewrite Ht. cbn. now intros v [= <-].
  - destruct (accessibility_relation model !! w) as [ts|] eqn:Hts; [|done]. cbn in *.
    rewrite (agree_Box_loop c1 c2 w (iter ts) Hc Hw)
      by (intros u Hu%In_iter; now apply (Hacc w ts Hw Hts)).
    split; [reflexivity|].
    destruct (for_each _ _ _) as [vals|]; cbn; [|discriminate].
    unfold meet_set. cbn. destruct (iter vals) as [|x l] eqn:Hl.
    + rewrite Ht. cbn. now intros v [= <-].
    + intros v Hv. clear Hl. revert x Hv.
      assert (Hfold : ∀ l' acc, acc ∈ elements (lattice (σ w)) ∨ l' ≠ [] →
                for_each (λ lower element, meet (lattice (σ w)) lower element) acc l' = Ok v →
                v ∈ elements (lattice (σ w))).
      { induction l' as [|e l' IH]; intros acc Hor; cbn.
        - intros [= <-]. destruct Hor; [assumption|done].
        - destruct (meet _ acc e) as [m|] eqn:Hm; [|discriminate].
          apply IH. left. apply meet_Ok in Hm as (_ & _ & Hmin & _). exact Hmin. }
      intros x. apply Hfold. now right.
Qed.

Lemma evaluate_agree (node : ASTNode) :
  agree_on σ W (evaluate σ model i node) (evaluate σ model j node).
Proof.
  induction node as [nm|c IH|l IHl r IHr|l IHl r IHr|l IHl r IHr|l IHl r IHr|c IH|c IH];
    cbn [evaluate].
  - intros w Hw. split; [reflexivity|]. unfold Atom_evaluate.
    destruct (_ !! nm) as [v|] eqn:Hv; [|discriminate]. intros ? [= <-].
    destruct Hone as (_ & _ & _ & Hasg & _). now apply (Hasg w nm v).
  - now apply agree_Not.
  - now apply agree_And.
  - now apply agree_Or.
  - now apply agree_Implies.
  - unfold Iff_evaluate. apply agree_And; now apply agree_Implies.
  - now apply agree_Box.
  - unfold Diamond_evaluate. now apply agree_Not, agree_Box, agree_Not.
Qed.
End one_lattice.

(** When the worlds that evaluation can reach all have lattices on the same
    elements, hold valid assignments, and the base tables map those
    elements to those elements, then the interpretation argument is
    irrelevant: a formula evaluates to the same outcome for any two
    arguments, in particular for ["up"] and ["down"]. *)
Theorem interpretation_irrelevant (σ : store) (model : Model) (i j : string)
    (W : gset wref) (node : ASTNode) (w : wref) :
  one_lattice σ model W → w ∈ W →
  evaluate σ model i node w = evaluate σ model j node w.
Proof. intros Hone Hw. now apply (evaluate_agree σ model i j W Hone node). Qed.

(** ** Further properties of the lexer and the parser *)

Lemma parse_fuel_ge (text : string) : ∃ k, parse_fuel text = (16 + k)%nat.
Proof. exists (16 * String.length text)%nat. unfold parse_fuel. lia. Qed.

Lemma get_next_token_blank (text : string) :
  lstrip text = EmptyString → get_next_token text = Ok ((EOF, None), EmptyString).
Proof.
  induction text as [|c rest IH]; cbn; [reflexivity|].
  destruct (isspace c); [exact IH|discriminate].
Qed.

(** A text that is empty or consists of white space only is not a formula:
    parsing it raises [ValueError]. *)
Theorem parse_blank (text : string) :
  lstrip text = EmptyString → parse text = Some (Raise ValueError).
Proof.
  intros Hblank. unfold parse, FormulaParser_init, Lexer_init.
  rewrite (get_next_token_blank text Hblank).
  destruct (parse_fuel_ge text) as [k ->]. reflexivity.
Qed.

Lemma isalnum_not_isspace (c : ascii) : isalnum c = true → isspace c = false.
Proof. destruct c as [[] [] [] [] [] [] [] []]; vm_compute; congruence. Qed.

Lemma get_atom_alnum (s : string) :
  forallb isalnum (list_ascii_of_string s) = true → get_atom s = (s, EmptyString).
Proof.
  induction s as [|c s IH]; cbn; [reflexivity|].
  intros [Hc Hs]%andb_true_iff. rewrite Hc, (IH Hs). reflexivity.
Qed.

(** A non-empty run of alphanumeric characters is one token and parses to
    the atom of that name. *)
Theorem parse_identifier (s : string) :
  s ≠ EmptyString → forallb isalnum (list_ascii_of_string s) = true →
  parse s = Some (Ok (Atom s)).
Proof.
  intros Hne Hal. unfold parse, FormulaParser_init, Lexer_init.
  assert (Htok : get_next_token s = Ok ((ATOM, Some s), EmptyString)).
  { destruct s as [|c s']; [done|]. cbn [get_next_token].
    pose proof Hal as Hal'. cbn in Hal'. apply andb_true_iff in Hal' as [Hc _].
    rewrite (isalnum_not_isspace c Hc), Hc, (get_atom_alnum _ Hal). reflexivity. }
  rewrite Htok. destruct (parse_fuel_ge s) as [k ->]. reflexivity.
Qed.

(** A parse that ends within a count ends the same way within any larger
    count. *)
Lemma fuel_monotone : ∀ fuel fuel', (fuel ≤ fuel')%nat →
  (∀ p r, unary fuel p = Some r → unary fuel' p = Some r)
  ∧ (∀ n p r, and_loop fuel n p = Some r → and_loop fuel' n p = Some r)
  ∧ (∀ p r, and_expr fuel p = Some r → and_expr fuel' p = Some r)
  ∧ (∀ n p r, or_loop fuel n p = Some r → or_loop fuel' n p = Some r)
  ∧ (∀ p r, or_expr fuel p = Some r → or_expr fuel' p = Some r)
  ∧ (∀ n p r, implies_loop fuel n p = Some r → implies_loop fuel' n p = Some r)
  ∧ (∀ p r, implies fuel p = Some r → implies fuel' p = Some r)
  ∧ (∀ n p r, iff_loop fuel n p = Some r → iff_loop fuel' n p = Some r)
  ∧ (∀ p r, iff fuel p = Some r → iff fuel' p = Some r).
Proof.
  induction fuel as [|fuel IH]; intros fuel' Hle.
  { repeat split; intros; discriminate. }
  destruct fuel' as [|fuel']; [lia|].
  destruct (IH fuel' ltac:(lia)) as (Hu & Hal & Hae & Hol & Hoe & Hil & Hie & Hfl & Hfe).
  clear IH Hle.
  repeat split; intros;
    match goal with
    | H : _ = Some _ |- _ =>
        cbn [unary and_loop and_expr or_loop or_expr implies_loop implies iff_loop iff]
          in H |- *;
        repeat match type of H with
        | context [(current_token ?p).1] =>
            destruct ((current_token p).1) eqn:?
        | context [bool_decide ?P] => destruct (bool_decide P) eqn:?
        | context [eat ?p ?t] => destruct (eat p t) as [?|?] eqn:?
        | context [unary fuel ?x] =>
            let E := fresh "E" in
            destruct (unary fuel x) as [[[? ?]|?]|] eqn:E;
            [apply Hu in E; rewrite E..|discriminate H]
        | context [and_loop fuel ?n ?x] =>
            let E := fresh "E" in
            destruct (and_loop fuel n x) as [[[? ?]|?]|] eqn:E;
            [apply Hal in E; rewrite E..|discriminate H]
        | context [and_expr fuel ?x] =>
            let E := fresh "E" in
            destruct (and_expr fuel x) as [[[? ?]|?]|] eqn:E;
            [apply Hae in E; rewrite E..|discriminate H]
        | context [or_loop fuel ?n ?x] =>
            let E := fresh "E" in
            destruct (or_loop fuel n x) as [[[? ?]|?]|] eqn:E;
            [apply Hol in E; rewrite E..|discriminate H]
        | context [or_expr fuel ?x] =>
            let E := fresh "E" in
            destruct (or_expr fuel x) as [[[? ?]|?]|] eqn:E;
            [apply Hoe in E; rewrite E..|discriminate H]
        | context [implies_loop fuel ?n ?x] =>
            let E := fresh "E" in
            destruct (implies_loop fuel n x) as [[[? ?]|?]|] eqn:E;
            [apply Hil in E; rewrite E..|discriminate H]
        | context [implies fuel ?x] =>
            let E := fresh "E" in
            destruct (implies fuel x) as [[[? ?]|?]|] eqn:E;
            [apply Hie in E; rewrite E..|discriminate H]
        | context [iff_loop fuel ?n ?x] =>
            let E := fresh "E" in
            destruct (iff_loop fuel n x) as [[[? ?]|?]|] eqn:E;
            [apply Hfl in E; rewrite E..|discriminate H]
        | context [iff fuel ?x] =>
            let E := fresh "E" in
            destruct (iff fuel x) as [[[? ?]|?]|] eqn:E;
            [apply Hfe in E; rewrite E..|discriminate H]
        end;
        exact H
    end.
Qed.

Lemma get_next_token_lstrip (text : string) :
  get_next_token (lstrip text) = get_next_token text.
Proof.
  induction text as [|c rest IH]; [reflexivity|].
  cbn [lstrip]. destruct (isspace c) eqn:Hc.
  - rewrite IH. cbn [get_next_token]. now rewrite Hc.
  - reflexivity.
Qed.

(** White space in front of a text is ignored: the text and the text
    without its leading white space parse to the same outcome. *)
Theorem parse_lstrip (text : string) : parse (lstrip text) = parse text.
Proof.
  unfold parse, FormulaParser_init, Lexer_init. rewrite get_next_token_lstrip.
  destruct (get_next_token text) as [[tok lx]|] eqn:Hnext; [|reflexivity].
  cbn -[parse_fuel iff].
  set (p := mkFormulaParser lx tok).
  assert (Hshort : get_next_token (lstrip text) = Ok (tok, lx))
    by (now rewrite get_next_token_lstrip).
  apply get_next_token_length in Hshort.
  assert (Hlen : (String.length (lstrip text) ≤ String.length text)%nat).
  { clear. induction text as [|c rest IH]; cbn; [lia|]. destruct (isspace c); cbn; lia. }
  set (n := String.length (lstrip text)) in *.
  assert (Hp : (pending p ≤ n)%nat) by (unfold pending, p; cbn; lia).
  destruct (fuel_suffices_all n p Hp) as (_ & _ & _ & _ & _ & _ & _ & _ & Hi).
  specialize (Hi (10 * n + 8)%nat ltac:(lia)).
  destruct (iff (10 * n + 8) p) as [r|] eqn:Hr; [|contradiction].
  destruct (fuel_monotone (10 * n + 8) (parse_fuel (lstrip text)))
    as (_ & _ & _ & _ & _ & _ & _ & _ & Hm1); [unfold parse_fuel; fold n; lia|].
  destruct (fuel_monotone (10 * n + 8) (parse_fuel text))
    as (_ & _ & _ & _ & _ & _ & _ & _ & Hm2); [unfold parse_fuel; lia|].
  now rewrite (Hm1 p r Hr), (Hm2 p r Hr).
Qed.

(** ** Twist structures *)

Lemma elem_of_build_elements (rl : ResiduatedLattice) (p : string * string) :
  p ∈ Twist._build_elements rl ↔ p.1 ∈ elements rl ∧ p.2 ∈ elements rl.
Proof.
  unfold Twist._build_elements. rewrite elem_of_list_to_set, list_elem_of_bind. split.
  - intros (e1 & (e2 & ->%list_elem_of_singleton & He2)%list_elem_of_bind & He1).
    cbn. split; now apply elem_of_iter.
  - intros [H1 H2]. exists p.1. split; [|now apply elem_of_iter].
    apply list_elem_of_bind. exists p.2. split; [|now apply elem_of_iter].
    destruct p. now apply list_elem_of_singleton.
Qed.

Lemma elem_of_build_order (els : gset (string * string))
    (test : string * string → string * string → bool) (p q : string * string) :
  (p, q) ∈ (list_to_set
              (p1 ← iter els; p2 ← iter els; if test p1 p2 then [(p1, p2)] else [])
            : gset ((string * string) * (string * string)))
  ↔ p ∈ els ∧ q ∈ els ∧ test p q = true.
Proof.
  rewrite elem_of_list_to_set, list_elem_of_bind. split.
  - intros (p1 & (p2 & Hin & Hp2)%list_elem_of_bind & Hp1).
    destruct (test p1 p2) eqn:Ht; [|now apply not_elem_of_nil in Hin].
    apply list_elem_of_singleton in Hin. injection Hin as -> ->.
    split; [now apply elem_of_iter|]. split; [now apply elem_of_iter|exact Ht].
  - intros (Hp & Hq & Ht). exists p. split; [|now apply elem_of_iter].
    apply list_elem_of_bind. exists q. split; [|now apply elem_of_iter].
    rewrite Ht. now apply list_elem_of_singleton.
Qed.

(** The twist structure over a residuated lattice has all pairs of elements
    as its elements.  Its truth order relates two of them exactly when the
    first components rise and the second fall, its information order
    exactly when both components rise.  Negation swaps the components: it
    is an involution on the elements, reverses the truth order and
    preserves the information order. *)
Theorem twist_orders (rl : ResiduatedLattice) (p q : string * string) :
  let T := Twist.TwistStructure_init rl in
  (p ∈ Twist.elements T ↔ p.1 ∈ elements rl ∧ p.2 ∈ elements rl)
  ∧ (Twist.is_lq_truth T p q = true ↔
       p ∈ Twist.elements T ∧ q ∈ Twist.elements T
       ∧ is_less_than_or_equal rl p.1 q.1 = true
       ∧ is_less_than_or_equal rl q.2 p.2 = true)
  ∧ (Twist.is_lq_qntt_info T p q = true ↔
       p ∈ Twist.elements T ∧ q ∈ Twist.elements T
       ∧ is_less_than_or_equal rl p.1 q.1 = true
       ∧ is_less_than_or_equal rl p.2 q.2 = true)
  ∧ Twist.negation T (Twist.negation T p) = p
  ∧ (p ∈ Twist.elements T ↔ Twist.negation T p ∈ Twist.elements T)
  ∧ Twist.is_lq_truth T (Twist.negation T q) (Twist.negation T p)
    = Twist.is_lq_truth T p q
  ∧ Twist.is_lq_qntt_info T (Twist.negation T p) (Twist.negation T q)
    = Twist.is_lq_qntt_info T p q.
Proof.
  cbn zeta.
  assert (Hel : ∀ x, x ∈ Twist.elements (Twist.TwistStructure_init rl)
                     ↔ x.1 ∈ elements rl ∧ x.2 ∈ elements rl)
    by (intros x; apply elem_of_build_elements).
  assert (Htruth : ∀ x y, Twist.is_lq_truth (Twist.TwistStructure_init rl) x y = true ↔
            x ∈ Twist.elements (Twist.TwistStructure_init rl)
            ∧ y ∈ Twist.elements (Twist.TwistStructure_init rl)
            ∧ is_less_than_or_equal rl x.1 y.1 = true
            ∧ is_less_than_or_equal rl y.2 x.2 = true).
  { intros x y. unfold Twist.is_lq_truth. rewrite bool_decide_eq_true. cbn.
    unfold Twist._build_truth_order.
    rewrite (elem_of_build_order _
               (λ p1 p2, is_less_than_or_equal rl p1.1 p2.1
                         && is_less_than_or_equal rl p2.2 p1.2) x y).
    now rewrite andb_true_iff. }
  assert (Hinfo : ∀ x y, Twist.is_lq_qntt_info (Twist.TwistStructure_init rl) x y = true ↔
            x ∈ Twist.elements (Twist.TwistStructure_init rl)
            ∧ y ∈ Twist.elements (Twist.TwistStructure_init rl)
            ∧ is_less_than_or_equal rl x.1 y.1 = true
            ∧ is_less_than_or_equal rl x.2 y.2 = true).
  { intros x y. unfold Twist.is_lq_qntt_info. rewrite bool_decide_eq_true. cbn.
    unfold Twist._build_quantity_info_order.
    rewrite (elem_of_build_order _
               (λ p1 p2, is_less_than_or_equal rl p1.1 p2.1
                         && is_less_than_or_equal rl p1.2 p2.2) x y).
    now rewrite andb_true_iff. }
  assert (Hneg : ∀ x, x ∈ Twist.elements (Twist.TwistStructure_init rl)
                      ↔ Twist.negation (Twist.TwistStructure_init rl) x
                        ∈ Twist.elements (Twist.TwistStructure_init rl)).
  { intros x. rewrite !Hel. cbn. tauto. }
  split; [apply Hel|]. split; [apply Htruth|]. split; [apply Hinfo|].
  split; [now destruct p|]. split; [apply Hneg|]. split.
  - apply eq_true_iff_eq. rewrite !Htruth, <- !Hneg. cbn. tauto.
  - apply eq_true_iff_eq. rewrite !Hinfo, <- !Hneg. cbn. tauto.
Qed.

(** De Morgan duality of the weak operations: negating a weak meet gives
    the weak join of the negations and conversely, exceptions included. *)
Theorem twist_de_morgan (T : Twist.TwistStructure) (p q : string * string) :
  Twist.weak_join T (Twist.negation T p) (Twist.negation T q)
  = match Twist.weak_meet T p q with
    | Ok r => Ok (Twist.negation T r)
    | Raise e => Raise e
    end
  ∧ Twist.weak_meet T (Twist.negation T p) (Twist.negation T q)
    = match Twist.weak_join T p q with
      | Ok r => Ok (Twist.negation T r)
      | Raise e => Raise e
      end.
Proof.
  unfold Twist.weak_join, Twist.weak_meet, Twist.negation. cbn. split.
  - destruct (meet _ p.1 q.1) as [m|e1] eqn:Hm;
      destruct (join _ p.2 q.2) as [j|e2] eqn:Hj; cbn; try reflexivity.
    apply meet_Raise in Hm as ->. apply join_Raise in Hj as ->. reflexivity.
  - destruct (join _ p.1 q.1) as [j|e1] eqn:Hj;
      destruct (meet _ p.2 q.2) as [m|e2] eqn:Hm; cbn; try reflexivity.
    apply meet_Raise in Hm as ->. apply join_Raise in Hj as ->. reflexivity.
Qed.


(** ** The further theorems at concrete inputs *)

Lemma join_meet_outcome_witness :
  join Examples.ends "0" "1" = Ok "1"
  ∧ is_lub Examples.ends "0" "1" "1"
  ∧ ("0" ∈ elements Examples.ends ∧ "1" ∈ elements Examples.ends
     ∧ ∃ m, is_glb Examples.ends "0" "1" m)
  ∧ ∀ e, join Examples.ends "0" "2" = Raise e → e = ValueError.
Proof.
  assert (Hj : join Examples.ends "0" "1" = Ok "1") by (vm_compute; reflexivity).
  assert (Hm : meet Examples.ends "0" "1" = Ok "0") by (vm_compute; reflexivity).
  destruct (join_meet_outcome Examples.ends "0" "1") as (_ & Hlub & Hmeet & _ & _).
  destruct (join_meet_outcome Examples.ends "0" "2") as (_ & _ & _ & _ & Herr).
  split; [exact Hj|]. split; [exact (Hlub "1" Hj)|].
  split; [apply Hmeet; eauto|]. intros e He. apply Herr. now left.
Defined.

Lemma Lattice_init_outcome_witness :
  Boolean.elems ≠ ∅ ∧ has_bounds Boolean.elems Boolean.rels
  ∧ ¬ has_bounds Boolean.elems Samples.loose
  ∧ (∃ b t, Lattice_init "bool" Boolean.elems Boolean.rels None None
            = Ok (mkLattice "bool" Boolean.elems Boolean.rels ∅ ∅ (Some b) (Some t))
            ∧ b ∈ Boolean.elems ∧ t ∈ Boolean.elems)
  ∧ Lattice_init "bool" Boolean.elems Samples.loose None None = Raise ValueError.
Proof.
  assert (HE : Boolean.elems ≠ ∅).
  { intros H. assert (Hin : "0" ∈ Boolean.elems)
      by (apply (bool_decide_unpack _); vm_compute; exact I).
    rewrite H in Hin. now apply not_elem_of_empty in Hin. }
  assert (Hb : has_bounds Boolean.elems Boolean.rels).
  { apply (closed_has_bounds (mkLattice "" Boolean.elems Boolean.rels ∅ ∅ None None)).
    vm_compute. reflexivity. }
  assert (Hn : ¬ has_bounds Boolean.elems Samples.loose).
  { intros H.
    apply (closed_has_bounds (mkLattice "" Boolean.elems Samples.loose ∅ ∅ None None)) in H.
    vm_compute in H. discriminate. }
  destruct (Lattice_init_outcome "bool" Boolean.elems Boolean.rels None None HE) as [Hok _].
  destruct (Lattice_init_outcome "bool" Boolean.elems Samples.loose None None HE) as [_ Hbad].
  split; [exact HE|]. split; [exact Hb|]. split; [exact Hn|].
  split; [exact (Hok Hb)|exact (Hbad Hn)].
Defined.

Lemma bottom_top_extrema_witness :
  Lattice_init "ends" Boolean.elems Boolean.rels None None = Ok Examples.ends
  ∧ transitive_on Examples.ends
  ∧ ∃ b t, bottom Examples.ends = Some b ∧ top Examples.ends = Some t
           ∧ meet_set Examples.ends (Some (elements Examples.ends)) = Ok b
           ∧ join_set Examples.ends (Some (elements Examples.ends)) = Ok t
           ∧ ∀ x, x ∈ elements Examples.ends →
               is_less_than_or_equal Examples.ends b x = true
               ∧ is_less_than_or_equal Examples.ends x t = true.
Proof.
  assert (Hinit : Lattice_init "ends" Boolean.elems Boolean.rels None None
                  = Ok Examples.ends) by (vm_compute; reflexivity).
  assert (Htr : transitive_on Examples.ends)
    by (apply transitive_onb_sound; vm_compute; reflexivity).
  split; [exact Hinit|]. split; [exact Htr|].
  exact (bottom_top_extrema _ _ _ _ _ _ Hinit Htr).
Defined.

Lemma order_from_join_meet_witness :
  closed Samples.chain_lat ∧ reflexive_on Samples.chain_lat
  ∧ antisymmetric_on Samples.chain_lat
  ∧ "0" ∈ elements Samples.chain_lat ∧ "h" ∈ elements Samples.chain_lat
  ∧ (is_less_than_or_equal Samples.chain_lat "0" "h" = true ↔
       join Samples.chain_lat "0" "h" = Ok "h")
  ∧ (is_less_than_or_equal Samples.chain_lat "0" "h" = true ↔
       meet Samples.chain_lat "0" "h" = Ok "0").
Proof.
  assert (Hc : closed Samples.chain_lat) by (vm_compute; reflexivity).
  assert (Hr : reflexive_on Samples.chain_lat)
    by (apply reflexive_onb_sound; vm_compute; reflexivity).
  assert (Ha : antisymmetric_on Samples.chain_lat)
    by (apply antisymmetric_onb_sound; vm_compute; reflexivity).
  assert (H0 : "0" ∈ elements Samples.chain_lat)
    by (apply (bool_decide_unpack _); vm_compute; exact I).
  assert (Hh : "h" ∈ elements Samples.chain_lat)
    by (apply (bool_decide_unpack _); vm_compute; exact I).
  repeat (split; [assumption|]).
  exact (order_from_join_meet Samples.chain_lat Hc Hr Ha "0" "h" H0 Hh).
Defined.

Lemma absorption_witness :
  closed Samples.chain_lat ∧ reflexive_on Samples.chain_lat
  ∧ antisymmetric_on Samples.chain_lat
  ∧ "h" ∈ elements Samples.chain_lat ∧ "1" ∈ elements Samples.chain_lat
  ∧ (∃ j, join Samples.chain_lat "h" "1" = Ok j ∧ meet Samples.chain_lat "h" j = Ok "h")
  ∧ (∃ m, meet Samples.chain_lat "h" "1" = Ok m ∧ join Samples.chain_lat "h" m = Ok "h").
Proof.
  assert (Hc : closed Samples.chain_lat) by (vm_compute; reflexivity).
  assert (Hr : reflexive_on Samples.chain_lat)
    by (apply reflexive_onb_sound; vm_compute; reflexivity).
  assert (Ha : antisymmetric_on Samples.chain_lat)
    by (apply antisymmetric_onb_sound; vm_compute; reflexivity).
  assert (Hh : "h" ∈ elements Samples.chain_lat)
    by (apply (bool_decide_unpack _); vm_compute; exact I).
  assert (H1 : "1" ∈ elements Samples.chain_lat)
    by (apply (bool_decide_unpack _); vm_compute; exact I).
  repeat (split; [assumption|]).
  exact (absorption Samples.chain_lat Hc Hr Ha "h" "1" Hh H1).
Defined.

Lemma join_meet_assoc_witness :
  closed Samples.chain_lat ∧ antisymmetric_on Samples.chain_lat
  ∧ transitive_on Samples.chain_lat
  ∧ "0" ∈ elements Samples.chain_lat ∧ "h" ∈ elements Samples.chain_lat
  ∧ "1" ∈ elements Samples.chain_lat
  ∧ (∃ ab bc r, join Samples.chain_lat "0" "h" = Ok ab
                ∧ join Samples.chain_lat "h" "1" = Ok bc
                ∧ join Samples.chain_lat ab "1" = Ok r
                ∧ join Samples.chain_lat "0" bc = Ok r)
  ∧ (∃ ab bc r, meet Samples.chain_lat "0" "h" = Ok ab
                ∧ meet Samples.chain_lat "h" "1" = Ok bc
                ∧ meet Samples.chain_lat ab "1" = Ok r
                ∧ meet Samples.chain_lat "0" bc = Ok r).
Proof.
  assert (Hc : closed Samples.chain_lat) by (vm_compute; reflexivity).
  assert (Ha : antisymmetric_on Samples.chain_lat)
    by (apply antisymmetric_onb_sound; vm_compute; reflexivity).
  assert (Ht : transitive_on Samples.chain_lat)
    by (apply transitive_onb_sound; vm_compute; reflexivity).
  assert (H0 : "0" ∈ elements Samples.chain_lat)
    by (apply (bool_decide_unpack _); vm_compute; exact I).
  assert (Hh : "h" ∈ elements Samples.chain_lat)
    by (apply (bool_decide_unpack _); vm_compute; exact I).
  assert (H1 : "1" ∈ elements Samples.chain_lat)
    by (apply (bool_decide_unpack _); vm_compute; exact I).
  repeat (split; [assumption|]).
  exact (join_meet_assoc Samples.chain_lat Hc Ha Ht "0" "h" "1" H0 Hh H1).
Defined.


Lemma ManyLattice_init_outcome_witness :
  Lattice_init "chain" Examples.chain_elems Examples.chain_rels None None
  = Ok Samples.chain_lat
  ∧ ManyLattice_init "many" "filtered" "chain" Examples.chain_elems Examples.chain_rels
      [Examples.ends] None None (Some {["1"]})
    = Ok (mkManyLattice (mkFilteredLattice Samples.chain_lat "filtered" {["1"]})
            [Examples.ends] "many")
  ∧ ManyLattice_init "many" "filtered" "chain" Examples.chain_elems Examples.chain_rels
      [Examples.ends] None None (Some {["2"]})
    = Raise ValueError
  ∧ ManyLattice_init "many" "filtered" "chain" ∅ Examples.chain_rels
      [Examples.ends] None None None
    = Raise AttributeError.
Proof.
  assert (Hinit : Lattice_init "chain" Examples.chain_elems Examples.chain_rels None None
                  = Ok Samples.chain_lat) by (vm_compute; reflexivity).
  assert (Hempty : Lattice_init "chain" ∅ Examples.chain_rels None None
                   = Raise AttributeError) by (vm_compute; reflexivity).
  destruct (ManyLattice_init_outcome "many" "filtered" "chain" Examples.chain_elems
              Examples.chain_rels [Examples.ends] None None (Some {["1"]}))
    as (_ & Hgood & _).
  destruct (ManyLattice_init_outcome "many" "filtered" "chain" Examples.chain_elems
              Examples.chain_rels [Examples.ends] None None (Some {["2"]}))
    as (_ & Hbad & _).
  destruct (ManyLattice_init_outcome "many" "filtered" "chain" ∅
              Examples.chain_rels [Examples.ends] None None None)
    as (Hpass & _ & _).
  split; [exact Hinit|]. split; [|split].
  - apply (Hgood _ Hinit). apply (bool_decide_unpack _). vm_compute. exact I.
  - apply (Hbad _ Hinit). apply (bool_decide_eq_false_1 _). vm_compute. reflexivity.
  - exact (Hpass _ Hempty).
Defined.

Lemma interpretation_outcome_witness :
  Lattice_init "ends" Boolean.elems Boolean.rels None None = Ok Examples.ends
  ∧ name Examples.ends ∈ (name <$> comp_sub_lat Examples.chain)
  ∧ (name Examples.ends ∉ (name <$> comp_sub_lat Examples.bare))
  ∧ down_interpretation Examples.bare Examples.ends "h" = Raise ValueError
  ∧ ∃ d u, down_interpretation Examples.chain Examples.ends "h" = Ok d
           ∧ up_interpretation Examples.chain Examples.ends "h" = Ok u
           ∧ d ∈ elements Examples.ends ∧ u ∈ elements Examples.ends
           ∧ down_interpretation Examples.chain Examples.ends d = Ok d
           ∧ up_interpretation Examples.chain Examples.ends u = Ok u.
Proof.
  assert (Hinit : Lattice_init "ends" Boolean.elems Boolean.rels None None
                  = Ok Examples.ends) by (vm_compute; reflexivity).
  assert (Hreg : name Examples.ends ∈ (name <$> comp_sub_lat Examples.chain))
    by (cbn; now apply list_elem_of_singleton).
  assert (Hnot : name Examples.ends ∉ (name <$> comp_sub_lat Examples.bare))
    by (cbn; apply not_elem_of_nil).
  destruct (interpretation_outcome Examples.chain _ _ _ _ _ _ "h" Hinit) as [_ Hin].
  destruct (interpretation_outcome Examples.bare _ _ _ _ _ _ "h" Hinit) as [Hout _].
  destruct (Hin Hreg) as (d & u & Hd & Hu & Hdin & Huin & _ & Hdd & _ & _ & Huu).
  split; [exact Hinit|]. split; [exact Hreg|]. split; [exact Hnot|].
  split; [exact (proj1 (Hout Hnot))|].
  exists d, u. auto 10.
Defined.

Lemma add_comp_sub_lat_lookup_witness :
  (name Samples.bool_lat ∉ (name <$> comp_sub_lat Examples.chain))
  ∧ NoDup (name <$> comp_sub_lat Examples.chain)
  ∧ get_comp_sub_lattice Examples.chain "bool" = None
  ∧ ∃ ML', add_comp_sub_lat Examples.chain Samples.bool_lat = (ML', Ok tt)
           ∧ get_comp_sub_lattice ML' "bool" = Some Samples.bool_lat
           ∧ get_comp_sub_lattice ML' "ends" = get_comp_sub_lattice Examples.chain "ends"
           ∧ NoDup (name <$> comp_sub_lat ML')
           ∧ add_comp_sub_lat ML' Samples.bool_lat = (ML', Raise ValueError).
Proof.
  assert (Hnew : name Samples.bool_lat ∉ (name <$> comp_sub_lat Examples.chain)).
  { cbn. intros H%list_elem_of_singleton. discriminate. }
  assert (Hnd : NoDup (name <$> comp_sub_lat Examples.chain))
    by (cbn; apply NoDup_singleton).
  destruct (add_comp_sub_lat_lookup Examples.chain Samples.bool_lat)
    as (_ & Hnone & Hadd).
  destruct (Hadd Hnew) as (ML' & Heq & Hget & Hother & Hkeep & Hagain).
  split; [exact Hnew|]. split; [exact Hnd|].
  split; [apply (Hnone "bool"); exact Hnew|].
  exists ML'. split; [exact Heq|]. split; [exact Hget|].
  split; [apply Hother; discriminate|]. split; [exact (Hkeep Hnd)|exact Hagain].
Defined.

Lemma assign_value_spec_witness :
  "1" ∈ elements (lattice Examples.blank)
  ∧ ("2" ∉ elements (lattice Examples.blank))
  ∧ assign_value Examples.blank "p" "2" = (Examples.blank, Raise ValueError)
  ∧ ∃ w', assign_value Examples.blank "p" "1" = (w', Ok tt)
          ∧ get_assignment w' "p" = Some "1"
          ∧ get_assignment w' "q" = get_assignment Examples.blank "q"
          ∧ evaluate (λ _, w') Examples.line "down" (Atom "p") 3%positive = Ok "1".
Proof.
  assert (H1 : "1" ∈ elements (lattice Examples.blank))
    by (apply (bool_decide_unpack _); vm_compute; exact I).
  assert (H2 : "2" ∉ elements (lattice Examples.blank))
    by (apply (bool_decide_eq_false_1 _); vm_compute; reflexivity).
  destruct (assign_value_spec Examples.blank "p" "1") as [Hok _].
  destruct (assign_value_spec Examples.blank "p" "2") as [_ Hbad].
  destruct (Hok H1) as (w' & Heq & Hget & Hother & _ & _ & _ & Hev).
  split; [exact H1|]. split; [exact H2|]. split; [exact (Hbad H2)|].
  exists w'. split; [exact Heq|]. split; [exact Hget|].
  split; [apply Hother; discriminate|apply Hev].
Defined.

Lemma Model_init_entries_witness :
  ∃ m, Model_init "m" Examples.chain {[1%positive; 2%positive]} 1%positive
         (Some {[2%positive := {[1%positive]}; 5%positive := ∅]}) None None = Ok m
       ∧ entries_total m
       ∧ accessibility_relation m !! 1%positive = Some ∅
       ∧ accessibility_relation m !! 2%positive = Some {[1%positive]}
       ∧ accessibility_relation m !! 5%positive = Some ∅
       ∧ accessibility_relation m !! 6%positive = None.
Proof.
  destruct (Model_init_entries "m" Examples.chain {[1%positive; 2%positive]} 1%positive
              (Some {[2%positive := {[1%positive]}; 5%positive := ∅]}) None None)
    as (m & Heq & _ & _ & _ & Htot & Hkeep & Hfill & Hrest).
  exists m. split; [exact Heq|]. split; [exact Htot|]. split; [|split; [|split]].
  - apply Hfill; [apply (bool_decide_unpack _); vm_compute; exact I|].
    vm_compute. reflexivity.
  - apply Hkeep. vm_compute. reflexivity.
  - apply Hkeep. vm_compute. reflexivity.
  - rewrite Hrest; [vm_compute; reflexivity|].
    apply (bool_decide_eq_false_1 _). vm_compute. reflexivity.
Defined.

Lemma add_world_outcome_witness :
  (∃ v, v ∈ worlds Samples.solo
        ∧ name_short (Samples.two_worlds v) = name_short (Samples.two_worlds 1%positive))
  ∧ ¬ (∃ v, v ∈ worlds Samples.solo
            ∧ name_short (Samples.two_worlds v) = name_short (Samples.two_worlds 2%positive))
  ∧ name (lattice (Samples.two_worlds 2%positive))
    ∈ (name <$> comp_sub_lat (many_lattice Samples.solo))
  ∧ entries_total Samples.solo
  ∧ add_world Samples.two_worlds Samples.solo 1%positive = (Samples.solo, Raise ValueError)
  ∧ ∃ m', add_world Samples.two_worlds Samples.solo 2%positive = (m', Ok tt)
          ∧ worlds m' = {[2%positive]} ∪ worlds Samples.solo
          ∧ accessibility_relation m' !! 2%positive = Some ∅
          ∧ entries_total m'.
Proof.
  assert (Hclash : ∃ v, v ∈ worlds Samples.solo
            ∧ name_short (Samples.two_worlds v) = name_short (Samples.two_worlds 1%positive)).
  { exists 1%positive. split; [|reflexivity].
    apply (bool_decide_unpack _). vm_compute. exact I. }
  assert (Hfresh : ¬ (∃ v, v ∈ worlds Samples.solo
            ∧ name_short (Samples.two_worlds v)
              = name_short (Samples.two_worlds 2%positive))).
  { intros (v & Hin' & Hv). cbn in Hin'. apply elem_of_singleton in Hin' as ->.
    vm_compute in Hv. discriminate. }
  assert (Hreg : name (lattice (Samples.two_worlds 2%positive))
                 ∈ (name <$> comp_sub_lat (many_lattice Samples.solo)))
    by (cbn; now apply list_elem_of_singleton).
  assert (Htot : entries_total Samples.solo).
  { intros v Hv. cbn in Hv. apply elem_of_singleton in Hv as ->.
    vm_compute. eauto. }
  destruct (add_world_outcome Samples.two_worlds Samples.solo 1%positive) as [Herr _].
  destruct (add_world_outcome Samples.two_worlds Samples.solo 2%positive) as [_ Hok].
  destruct (Hok Hfresh) as [_ Hadd].
  destruct (Hadd Hreg) as (m' & Heq & Hws & Hent & _ & _ & _ & Hkeep & _).
  split; [exact Hclash|]. split; [exact Hfresh|]. split; [exact Hreg|].
  split; [exact Htot|]. split; [exact (Herr Hclash)|].
  exists m'. split; [exact Heq|]. split; [exact Hws|]. split; [exact Hent|exact (Hkeep Htot)].
Defined.

Lemma delete_world_non_member_witness :
  (2%positive ∉ worlds Samples.stray)
  ∧ ¬ has_outgoing Samples.stray 2%positive ∧ ¬ has_incoming Samples.stray 2%positive
  ∧ accessibility_relation Samples.stray !! 2%positive = Some ∅
  ∧ (delete_world Samples.stray 2%positive).2 = Raise KeyError
  ∧ accessibility_relation (delete_world Samples.stray 2%positive).1
    ≠ accessibility_relation Samples.stray.
Proof.
  assert (Hw : 2%positive ∉ worlds Samples.stray)
    by (apply (bool_decide_eq_false_1 _); vm_compute; reflexivity).
  assert (Hout : ¬ has_outgoing Samples.stray 2%positive).
  { intros H%has_outgoing_iff. apply H. vm_compute. reflexivity. }
  assert (Hin : ¬ has_incoming Samples.stray 2%positive).
  { intros H%has_incoming_iff. vm_compute in H. discriminate. }
  assert (Hentry : accessibility_relation Samples.stray !! 2%positive = Some ∅)
    by (vm_compute; reflexivity).
  destruct (delete_world_non_member Samples.stray 2%positive Hw Hout Hin) as [Heq Hchg].
  split; [exact Hw|]. split; [exact Hout|]. split; [exact Hin|]. split; [exact Hentry|].
  split; [now rewrite Heq|exact (Hchg Hentry)].
Defined.

Lemma add_world_delete_world_witness :
  (2%positive ∉ worlds Samples.solo)
  ∧ accessibility_relation Samples.solo !! 2%positive = None
  ∧ ¬ has_incoming Samples.solo 2%positive
  ∧ ∃ m', add_world Samples.two_worlds Samples.solo 2%positive = (m', Ok tt)
          ∧ delete_world m' 2%positive = (Samples.solo, Ok tt).
Proof.
  assert (Hw : 2%positive ∉ worlds Samples.solo)
    by (apply (bool_decide_eq_false_1 _); vm_compute; reflexivity).
  assert (Hentry : accessibility_relation Samples.solo !! 2%positive = None)
    by (vm_compute; reflexivity).
  assert (Hin : ¬ has_incoming Samples.solo 2%positive).
  { intros H%has_incoming_iff. vm_compute in H. discriminate. }
  assert (Hfresh : ¬ (∃ v, v ∈ worlds Samples.solo
            ∧ name_short (Samples.two_worlds v)
              = name_short (Samples.two_worlds 2%positive))).
  { intros (v & Hin' & Hv). cbn in Hin'. apply elem_of_singleton in Hin' as ->.
    vm_compute in Hv. discriminate. }
  assert (Hreg : name (lattice (Samples.two_worlds 2%positive))
                 ∈ (name <$> comp_sub_lat (many_lattice Samples.solo)))
    by (cbn; now apply list_elem_of_singleton).
  split; [exact Hw|]. split; [exact Hentry|]. split; [exact Hin|].
  exact (add_world_delete_world Samples.two_worlds Samples.solo 2%positive
           Hw Hentry Hin Hfresh Hreg).
Defined.

Lemma add_relation_spec_witness :
  get_world Samples.two_worlds Samples.duo "a" = Some 1%positive
  ∧ get_world Samples.two_worlds Samples.duo "b" = Some 2%positive
  ∧ accessibility_relation Samples.duo !! 1%positive = Some ∅
  ∧ ∃ m', add_relation Samples.two_worlds false Samples.duo "a" "b" = (m', Ok tt)
          ∧ get_accessible_worlds Samples.two_worlds m' "a" = Ok ({[2%positive]} ∪ ∅)
          ∧ delete_world m' 1%positive = (m', Raise ValueError)
          ∧ delete_world m' 2%positive = (m', Raise ValueError).
Proof.
  assert (H1 : get_world Samples.two_worlds Samples.duo "a" = Some 1%positive)
    by (vm_compute; reflexivity).
  assert (H2 : get_world Samples.two_worlds Samples.duo "b" = Some 2%positive)
    by (vm_compute; reflexivity).
  assert (Hts : accessibility_relation Samples.duo !! 1%positive = Some ∅)
    by (vm_compute; reflexivity).
  destruct (add_relation_spec Samples.two_worlds false Samples.duo "a" "b" _ _ _ H1 H2 Hts)
    as (m' & Heq & _ & _ & _ & Hget & _ & Hd1 & Hd2).
  split; [exact H1|]. split; [exact H2|]. split; [exact Hts|].
  exists m'. auto.
Defined.

Lemma add_relation_delete_relation_witness :
  get_world Samples.two_worlds Samples.duo "a" = Some 1%positive
  ∧ get_world Samples.two_worlds Samples.duo "b" = Some 2%positive
  ∧ accessibility_relation Samples.duo !! 1%positive = Some ∅
  ∧ (2%positive ∉ (∅ : gset wref))
  ∧ ∃ m', add_relation Samples.two_worlds true Samples.duo "a" "b" = (m', Ok tt)
          ∧ delete_relation Samples.two_worlds true m' "a" "b" = (Samples.duo, Ok tt).
Proof.
  assert (H1 : get_world Samples.two_worlds Samples.duo "a" = Some 1%positive)
    by (vm_compute; reflexivity).
  assert (H2 : get_world Samples.two_worlds Samples.duo "b" = Some 2%positive)
    by (vm_compute; reflexivity).
  assert (Hts : accessibility_relation Samples.duo !! 1%positive = Some ∅)
    by (vm_compute; reflexivity).
  assert (Hnew : 2%positive ∉ (∅ : gset wref)) by apply not_elem_of_empty.
  destruct (add_relation_delete_relation Samples.two_worlds true Samples.duo "a" "b"
              _ _ _ H1 H2 Hts) as [Hround _].
  split; [exact H1|]. split; [exact H2|]. split; [exact Hts|]. split; [exact Hnew|].
  exact (Hround Hnew).
Defined.

Lemma relation_failures_witness :
  get_world Samples.two_worlds Samples.duo "z" = None
  ∧ get_world Samples.two_worlds Samples.duo "a" = Some 1%positive
  ∧ get_world Samples.two_worlds Samples.duo "b" = Some 2%positive
  ∧ accessibility_relation Samples.duo !! 1%positive = Some ∅
  ∧ add_relation Samples.two_worlds true Samples.duo "a" "z" = (Samples.duo, Raise ValueError)
  ∧ delete_relation Samples.two_worlds true Samples.duo "a" "z"
    = (Samples.duo, Raise ValueError)
  ∧ get_accessible_worlds Samples.two_worlds Samples.duo "z" = Raise ValueError
  ∧ delete_relation Samples.two_worlds true Samples.duo "a" "b"
    = (Samples.duo, Raise ValueError).
Proof.
  assert (Hz : get_world Samples.two_worlds Samples.duo "z" = None)
    by (vm_compute; reflexivity).
  assert (H1 : get_world Samples.two_worlds Samples.duo "a" = Some 1%positive)
    by (vm_compute; reflexivity).
  assert (H2 : get_world Samples.two_worlds Samples.duo "b" = Some 2%positive)
    by (vm_compute; reflexivity).
  assert (Hts : accessibility_relation Samples.duo !! 1%positive = Some ∅)
    by (vm_compute; reflexivity).
  destruct (relation_failures Samples.two_worlds true Samples.duo "a" "z") as (Hname & _ & _).
  destruct (relation_failures Samples.two_worlds true Samples.duo "z" "a") as (_ & Hget & _).
  destruct (relation_failures Samples.two_worlds true Samples.duo "a" "b") as (_ & _ & Hedge).
  destruct (Hname (or_intror Hz)) as [Ha Hd].
  destruct (Hedge _ _ H1 H2) as [Hno _].
  split; [exact Hz|]. split; [exact H1|]. split; [exact H2|]. split; [exact Hts|].
  split; [exact Ha|]. split; [exact Hd|]. split; [exact (Hget Hz)|].
  apply (Hno ∅ Hts). apply not_elem_of_empty.
Defined.

Lemma is_valid_sublattice_spec_witness :
  size Boolean.elems ≠ 1%nat
  ∧ is_valid_sublattice Boolean.elems Samples.chain_lat = Ok true
  ∧ is_valid_sublattice {["h"]} Samples.loose_lat = Ok true
  ∧ ∀ a b, a ∈ Boolean.elems → b ∈ Boolean.elems →
      ∃ j m, join Samples.chain_lat a b = Ok j ∧ meet Samples.chain_lat a b = Ok m
             ∧ j ∈ Boolean.elems ∧ m ∈ Boolean.elems.
Proof.
  assert (Hsize : size Boolean.elems ≠ 1%nat) by (vm_compute; discriminate).
  assert (Hvalid : is_valid_sublattice Boolean.elems Samples.chain_lat = Ok true)
    by (vm_compute; reflexivity).
  destruct (is_valid_sublattice_spec Boolean.elems Samples.chain_lat) as (_ & _ & Hiff).
  destruct (is_valid_sublattice_spec {["h"]} Samples.loose_lat) as (_ & Hone & _).
  split; [exact Hsize|]. split; [exact Hvalid|].
  split; [apply Hone; vm_compute; reflexivity|].
  exact (proj1 (Hiff Hsize) Hvalid).
Defined.

Lemma generated_sublattice_valid_witness :
  Boolean.elems ≠ ∅ ∧ Boolean.elems ⊆ elements Samples.chain_lat
  ∧ is_valid_sublattice Boolean.elems Samples.chain_lat = Ok true
  ∧ reflexive_on Samples.chain_lat
  ∧ ∃ S, generated_sublattice "N" 0 Boolean.elems Samples.chain_lat = Ok S
         ∧ name S = "N_gen_1" ∧ elements S = Boolean.elems
         ∧ order_restricted Examples.chain S.
Proof.
  assert (HE : Boolean.elems ≠ ∅).
  { intros H. assert (Hin : "0" ∈ Boolean.elems)
      by (apply (bool_decide_unpack _); vm_compute; exact I).
    rewrite H in Hin. now apply not_elem_of_empty in Hin. }
  assert (Hsub : Boolean.elems ⊆ elements Samples.chain_lat)
    by (apply (bool_decide_unpack _); vm_compute; exact I).
  assert (Hvalid : is_valid_sublattice Boolean.elems Samples.chain_lat = Ok true)
    by (vm_compute; reflexivity).
  assert (Hr : reflexive_on Samples.chain_lat)
    by (apply reflexive_onb_sound; vm_compute; reflexivity).
  assert (Hs : ∀ x, x ∈ Boolean.elems → stripped x).
  { change (set_Forall (λ x, strip x = x) Boolean.elems).
    apply (bool_decide_unpack _). vm_compute. exact I. }
  assert (HR : ∀ p, p ∈ relations Samples.chain_lat → stripped p.1 ∧ stripped p.2).
  { change (set_Forall (λ p : string * string, strip p.1 = p.1 ∧ strip p.2 = p.2)
              (relations Samples.chain_lat)).
    apply (bool_decide_unpack _). vm_compute. exact I. }
  destruct (generated_sublattice_valid "N" 0 Boolean.elems Samples.chain_lat
              HE Hsub Hvalid Hr Hs HR) as (S & Heq & Hname & Hel & _ & _ & _ & Hord).
  split; [exact HE|]. split; [exact Hsub|]. split; [exact Hvalid|]. split; [exact Hr|].
  exists S. split; [exact Heq|]. split; [exact Hname|]. split; [exact Hel|].
  apply Hord; reflexivity.
Defined.


Lemma Iff_symmetric_witness :
  evaluate (λ _, Samples.valued) Samples.loop "down" (Iff (Atom "p") (Atom "q")) 1%positive
  = Ok "0"
  ∧ evaluate (λ _, Samples.valued) Samples.loop "down" (Iff (Atom "q") (Atom "p")) 1%positive
    = Ok "0".
Proof.
  assert (H : evaluate (λ _, Samples.valued) Samples.loop "down"
                (Iff (Atom "p") (Atom "q")) 1%positive = Ok "0")
    by (vm_compute; reflexivity).
  split; [exact H|]. exact (Iff_symmetric _ _ _ _ _ _ _ H).
Defined.

Lemma Diamond_dead_end_witness :
  default ∅ (accessibility_relation Samples.dead_end !! 1%positive) = ∅
  ∧ top (lattice Samples.valued) = Some "1"
  ∧ evaluate (λ _, Samples.valued) Samples.dead_end "down" (Diamond (Atom "r")) 1%positive
    = Ok "0"
  ∧ evaluate (λ _, Examples.blank) Examples.line "down" (Diamond (Atom "r")) 3%positive
    = Raise ValueError.
Proof.
  assert (Hacc : default ∅ (accessibility_relation Samples.dead_end !! 1%positive) = ∅)
    by (vm_compute; reflexivity).
  assert (Hacc' : default ∅ (accessibility_relation Examples.line !! 3%positive) = ∅)
    by (vm_compute; reflexivity).
  assert (Ht : top (lattice Samples.valued) = Some "1") by reflexivity.
  split; [exact Hacc|]. split; [exact Ht|]. split.
  - rewrite (Diamond_dead_end (λ _, Samples.valued) Samples.dead_end "down" (Atom "r")
               1%positive "1" Hacc Ht).
    vm_compute. reflexivity.
  - rewrite (Diamond_dead_end (λ _, Examples.blank) Examples.line "down" (Atom "r")
               3%positive "1" Hacc' Ht).
    vm_compute. reflexivity.
Defined.

Lemma interpretation_default_down_witness :
  "UP" ≠ "up"
  ∧ evaluate (λ _, Samples.valued) Samples.loop "UP" (Box (Atom "p")) 1%positive
    = evaluate (λ _, Samples.valued) Samples.loop "down" (Box (Atom "p")) 1%positive.
Proof.
  assert (Hne : "UP" ≠ "up") by discriminate.
  split; [exact Hne|]. now apply interpretation_default_down.
Defined.

Lemma interpretation_irrelevant_witness :
  one_lattice (λ _, Samples.valued) Samples.loop {[1%positive]}
  ∧ evaluate (λ _, Samples.valued) Samples.loop "up"
      (Box (Implies (Atom "p") (Not (Atom "q")))) 1%positive
    = evaluate (λ _, Samples.valued) Samples.loop "down"
        (Box (Implies (Atom "p") (Not (Atom "q")))) 1%positive.
Proof.
  assert (Hone : one_lattice (λ _, Samples.valued) Samples.loop {[1%positive]}).
  { split; [|split; [|split; [|split; [|split]]]].
    - intros w _. exists "bool", Boolean.elems, Boolean.rels, (Some Boolean.neg), (Some ∅).
      vm_compute. reflexivity.
    - reflexivity.
    - intros w ts ->%elem_of_singleton Hts. vm_compute in Hts.
      injection Hts as <-. reflexivity.
    - intros w p v _. revert p v.
      change (map_Forall (λ (_ : string) v, v ∈ Boolean.elems)
                ({["p" := "1"; "q" := "0"]} : gmap string string)).
      apply (bool_decide_unpack _). vm_compute. exact I.
    - intros w x n _ _. revert x n.
      change (map_Forall (λ (_ : string) n, n ∈ Boolean.elems) Boolean.neg).
      apply (bool_decide_unpack _). vm_compute. exact I.
    - intros w x y r _ _ _ H. cbn in H. now rewrite lookup_empty in H. }
  split; [exact Hone|].
  apply (interpretation_irrelevant _ _ "up" "down" _ _ _ Hone). now apply elem_of_singleton.
Defined.

Lemma parse_blank_witness :
  lstrip "  " = EmptyString ∧ parse "  " = Some (Raise ValueError).
Proof.
  assert (H : lstrip "  " = EmptyString) by reflexivity.
  split; [exact H|exact (parse_blank "  " H)].
Defined.

Lemma parse_identifier_witness :
  "p1" ≠ EmptyString ∧ forallb isalnum (list_ascii_of_string "p1") = true
  ∧ parse "p1" = Some (Ok (Atom "p1")).
Proof.
  assert (Hne : "p1" ≠ EmptyString) by discriminate.
  assert (Hal : forallb isalnum (list_ascii_of_string "p1") = true) by reflexivity.
  split; [exact Hne|]. split; [exact Hal|exact (parse_identifier "p1" Hne Hal)].
Defined.
